(** * SonicSuite: joint normalisation of the playback spectra

    The helper [normalizePlaybackSeries] of [src/ui/FRPlayback.tsx] (carried as
    a text literal by [tmp_normalize.py]) rescales a batch of dB series on a
    common scale.  JavaScript numbers are IEEE 754 binary64 values, so the
    embedding computes on Rocq's primitive floats: the same format, the same
    round-to-nearest-even arithmetic, one NaN, two zeros and two infinities. *)

From Stdlib Require Import ZArith List Bool Lia Floats.
Import ListNotations.

Local Open Scope float_scope.

(** ** The JavaScript built-ins the helper calls *)

(** [Number.isFinite(x)]: neither NaN nor an infinity. *)
Definition Number_isFinite (x : float) : bool := is_finite x.

Definition is_pos_zero (x : float) : bool :=
  match classify x with PZero => true | _ => false end.

Definition is_neg_zero (x : float) : bool :=
  match classify x with NZero => true | _ => false end.

(** [Math.max(a, b)] (ECMAScript 21.3.2.24): NaN if an argument is NaN; the
    running maximum starts at [a], becomes [+0] when it is [-0] and [b] is
    [+0], and becomes [b] when [b > a]. *)
Definition Math_max (a b : float) : float :=
  if is_nan a || is_nan b then nan
  else
    let highest := if is_pos_zero b && is_neg_zero a then b else a in
    if highest <? b then b else highest.

(** ** normalizePlaybackSeries *)

(** The result object [{ arrays }]. *)
Record playback : Set := { arrays : list (list float) }.

(** Body of the inner loop of the peak scan:
    [if (!Number.isFinite(value)) continue; if (value > peak) peak = value;] *)
Definition peak_step (peak value : float) : float :=
  if negb (Number_isFinite value) then peak
  else if peak <? value then value else peak.

(** The two nested [for] loops over [series], started at
    [Number.NEGATIVE_INFINITY]. *)
Definition scan_peak (series : list (list float)) : float :=
  fold_left (fun peak arr => fold_left peak_step arr peak) series neg_infinity.

(** [Number.isFinite(value) ? value - peak : Number.NaN] *)
Definition normalizedValue (peak value : float) : float :=
  if Number_isFinite value then value - peak else nan.

(** [if (Number.isFinite(normalizedValue) && normalizedValue < min) min = normalizedValue;] *)
Definition min_step (min nv : float) : float :=
  if Number_isFinite nv && (nv <? min) then nv else min.

(** The callback of the first [series.map]: it fills [normalized] from left to
    right and updates the captured variable [min] on the way, so [min] is
    threaded through as state. *)
Fixpoint normalized (peak : float) (source : list float) (min : float)
  : list float * float :=
  match source with
  | [] => ([], min)
  | value :: rest =>
      let nv := normalizedValue peak value in
      let '(tl, min') := normalized peak rest (min_step min nv) in
      (nv :: tl, min')
  end.

(** [series.map(...)] with the shared [min]: the series are visited in order. *)
Fixpoint centered (peak : float) (series : list (list float)) (min : float)
  : list (list float) * float :=
  match series with
  | [] => ([], min)
  | source :: rest =>
      let '(arr, min1) := normalized peak source min in
      let '(tl, min2) := centered peak rest min1 in
      (arr :: tl, min2)
  end.

(** [Number.isFinite(value) ? Math.max(0, value + offset) : Number.NaN] *)
Definition shifted_value (offset value : float) : float :=
  if Number_isFinite value then Math_max zero (value + offset) else nan.

(** The callback of the second [map]. *)
Definition shifted (offset : float) (source : list float) : list float :=
  map (shifted_value offset) source.

Definition normalizePlaybackSeries (series : list (list float)) : playback :=
  if Nat.eqb (length series) 0 then {| arrays := [] |}
  else
    let peak := scan_peak series in
    let peak := if negb (Number_isFinite peak) then zero else peak in
    let '(centered, min) := centered peak series infinity in
    let offset := if Number_isFinite min then - min else zero in
    {| arrays := map (shifted offset) centered |}.

(** The spec's name for the contract: the batch in, the batch out. *)
Definition normalize (batch : list (list float)) : list (list float) :=
  arrays (normalizePlaybackSeries batch).

(** ** Names for the intermediate quantities of one call *)

(** [peak] after the fallback [if (!Number.isFinite(peak)) peak = 0]. *)
Definition peak_of (series : list (list float)) : float :=
  let peak := scan_peak series in
  if negb (Number_isFinite peak) then zero else peak.

(** [min] once the first [map] has run. *)
Definition min_of (series : list (list float)) : float :=
  snd (centered (peak_of series) series infinity).

(** [offset = Number.isFinite(min) ? -min : 0]. *)
Definition offset_of (series : list (list float)) : float :=
  let min := min_of series in
  if Number_isFinite min then - min else zero.

(** The samples of a batch, series after series. *)
Definition samples (batch : list (list float)) : list float := concat batch.

(** Does the batch hold a finite sample? *)
Definition has_finite (batch : list (list float)) : bool :=
  existsb Number_isFinite (samples batch).

(** [batch[i][j]], when both indices are in range. *)
Definition at_pos (batch : list (list float)) (i j : nat) : option float :=
  match nth_error batch i with
  | Some arr => nth_error arr j
  | None => None
  end.

(** What one call does to the sample [value], given the call's [peak] and
    [offset]. *)
Definition pipeline (peak offset value : float) : float :=
  shifted_value offset (normalizedValue peak value).

(** [m] is the least finite value of [l]: it occurs in [l], is finite, and no
    finite value of [l] lies below it. *)
Definition is_min_finite (m : float) (l : list float) : Prop :=
  In m l /\ Number_isFinite m = true /\
  forall y, In y l -> Number_isFinite y = true -> (m <=? y) = true.

(** [m] is the greatest finite value of [l]. *)
Definition is_max_finite (m : float) (l : list float) : Prop :=
  In m l /\ Number_isFinite m = true /\
  forall y, In y l -> Number_isFinite y = true -> (y <=? m) = true.

(** ** Exact values and rounding, in units of [2^-1074]

    Every finite binary64 number is an integer multiple of [2^-1074], the
    least subnormal.  [sf_val] reads a finite number in that unit; the
    functions below describe the rounding of binary64 on such integers. *)

Definition sf_val (x : spec_float) : Z :=
  match x with
  | S754_finite s m e => cond_Zopp s (Zpos m * 2 ^ (e + 1074))
  | _ => 0
  end.

Definition val (x : float) : Z := sf_val (Prim2SF x).

(** [n / 2^k] rounded to the nearest integer, ties to even ([0 <= n]). *)
Definition rne (n k : Z) : Z :=
  let q := (n / 2 ^ k)%Z in
  match (2 * (n mod 2 ^ k) ?= 2 ^ k)%Z with
  | Lt => q
  | Gt => (q + 1)%Z
  | Eq => if Z.even q then q else (q + 1)%Z
  end.

(** The exponent of the grid on which a magnitude [n] is rounded: 53
    significant bits, and never finer than the unit. *)
Definition rexp (n : Z) : Z := Z.max 0 (Z.log2 n - 52).

Definition rnd_pos (n : Z) : Z := (rne n (rexp n) * 2 ^ rexp n)%Z.

(** Round to nearest even at 53 bits, overflow apart. *)
Definition rnd (n : Z) : Z := (Z.sgn n * rnd_pos (Z.abs n))%Z.

(** The magnitudes that are binary64 numbers, overflow apart. *)
Definition fmt (n : Z) : Prop := (Z.abs n mod 2 ^ rexp (Z.abs n) = 0)%Z.

(** The first magnitude that overflows: [2^1024], in units of [2^-1074]. *)
Definition top : Z := (2 ^ 2098)%Z.

(** [Number.MAX_VALUE], the largest finite number. *)
Definition MAX_VALUE : float := 0x1.fffffffffffffp1023%float.

(** The specification's "values after centering": [p] subtracted from every
    finite sample of the batch. *)
Definition centred_by (p : float) (batch : list (list float)) : list float :=
  map (fun v => (v - p)%float) (filter Number_isFinite (samples batch)).

(** An operation on two finite numbers is exact when its result is finite
    and is the exact difference (sum) of the operands. *)
Definition exact_sub (x y : float) : Prop :=
  Number_isFinite (x - y)%float = true /\ val (x - y)%float = (val x - val y)%Z.

Definition exact_add (x y : float) : Prop :=
  Number_isFinite (x + y)%float = true /\ val (x + y)%float = (val x + val y)%Z.

(** The spacing of the binary64 numbers at the magnitude of a finite [x] (its
    unit in the last place), in units of [2^-1074]. *)
Definition ulp (x : float) : Z := (2 ^ rexp (Z.abs (val x)))%Z.

(** ** The call on the JavaScript heap

    Arrays are objects: the batch is an array of references to arrays of
    numbers, and the same inner array may occur twice in it.  The functional
    embedding above works on the contents; the embedding below runs the same
    statements on a heap, with every allocation, read and write explicit. *)

Definition addr : Set := nat.

(** A [number[]] with its slots ([None] is a hole, read as [undefined]), or
    an array of references. *)
Inductive object : Set :=
| Numbers (slots : list (option float))
| Arrays (refs : list addr).

Definition heap : Set := list object.

(** Heap computations; [None] stands for a TypeError (a reference that is
    not an object of the expected kind). *)
Definition js (A : Type) : Type := heap -> option (A * heap).

Definition ret {A : Type} (x : A) : js A := fun h => Some (x, h).

Definition bind {A B : Type} (m : js A) (k : A -> js B) : js B :=
  fun h => match m h with
           | Some (x, h') => k x h'
           | None => None
           end.

Declare Scope js_scope.
Delimit Scope js_scope with js.
Notation "x <- m ;; k" := (bind m (fun x => k))
  (at level 61, m at next level, right associativity) : js_scope.
Notation "m ;; k" := (bind m (fun _ => k))
  (at level 61, right associativity) : js_scope.

(** A new object gets the next free address. *)
Definition alloc (o : object) : js addr :=
  fun h => Some (length h, h ++ [o]).

(** [new Array(n)]: [n] holes. *)
Definition new_Array (n : nat) : js addr := alloc (Numbers (repeat None n)).

(** [arr.length] *)
Definition array_length (p : addr) : js nat :=
  fun h => match nth_error h p with
           | Some (Numbers s) => Some (length s, h)
           | Some (Arrays r) => Some (length r, h)
           | None => None
           end.

(** [arr[i]] on an array of numbers; out of range it reads [undefined]. *)
Definition get (p : addr) (i : nat) : js (option float) :=
  fun h => match nth_error h p with
           | Some (Numbers s) => Some (nth i s None, h)
           | _ => None
           end.

(** The elements of an array of references. *)
Definition refs_of (p : addr) : js (list addr) :=
  fun h => match nth_error h p with
           | Some (Arrays r) => Some (r, h)
           | _ => None
           end.

(** [s[i] = x] on the slots; past the end JavaScript extends the array. *)
Definition store_slot (s : list (option float)) (i : nat) (x : float)
  : list (option float) :=
  if Nat.ltb i (length s) then firstn i s ++ Some x :: skipn (S i) s
  else s ++ repeat None (i - length s) ++ [Some x].

Fixpoint update {A : Type} (l : list A) (p : nat) (x : A) : list A :=
  match l, p with
  | [], _ => []
  | _ :: tl, O => x :: tl
  | y :: tl, S p' => y :: update tl p' x
  end.

(** [arr[i] = x] *)
Definition put (p : addr) (i : nat) (x : float) : js unit :=
  fun h => match nth_error h p with
           | Some (Numbers s) => Some (tt, update h p (Numbers (store_slot s i x)))
           | _ => None
           end.

(** A loop over [l] with the loop-carried state [s]. *)
Fixpoint for_each {A S : Type} (l : list A) (body : S -> A -> js S) (s : S) : js S :=
  match l with
  | [] => ret s
  | x :: tl => bind (body s x) (for_each tl body)
  end.

(** The peak scan: two nested loops that only read. *)
Definition scan_peak_js (series : addr) : js float :=
  (arrs <- refs_of series ;;
   for_each arrs (fun peak arr =>
     n <- array_length arr ;;
     for_each (seq 0 n) (fun peak i =>
       value <- get arr i ;;
       ret (match value with
            | Some x => peak_step peak x
            | None => peak
            end)) peak) neg_infinity)%js.

(** The shape shared by the two [map] callbacks:
    [const dst = new Array(source.length);
     for (let i = 0; i < source.length; i++) { dst[i] = f(source[i]); st = g(st, dst[i]); }
     return dst;]
    with [st] the captured variable ([min] in the first map, nothing in the
    second).  A hole is not finite, so both callbacks store NaN for it. *)
Definition map_callback {S : Type} (f : float -> float) (g : S -> float -> S)
  (st : S) (source : addr) : js (addr * S) :=
  (n <- array_length source ;;
   dst <- new_Array n ;;
   st' <- for_each (seq 0 n) (fun st i =>
            value <- get source i ;;
            let nv := match value with Some x => f x | None => nan end in
            put dst i nv ;;
            ret (g st nv)) st ;;
   ret (dst, st'))%js.

(** [arr.map(callback)]: the callback runs on the elements in order, and the
    array of its results is a new object. *)
Definition map_js {S : Type} (callback : S -> addr -> js (addr * S))
  (arr : addr) (st : S) : js (addr * S) :=
  (sources <- refs_of arr ;;
   r <- for_each sources (fun acc source =>
          r <- callback (snd acc) source ;;
          ret (fst acc ++ [fst r], snd r)) ([], st) ;;
   out <- alloc (Arrays (fst r)) ;;
   ret (out, snd r))%js.

(** The function on the heap; it returns the reference held by [arrays]. *)
Definition normalizePlaybackSeries_js (series : addr) : js addr :=
  (n <- array_length series ;;
   if Nat.eqb n 0 then alloc (Arrays [])
   else
     peak <- scan_peak_js series ;;
     let peak := if negb (Number_isFinite peak) then zero else peak in
     cm <- map_js (map_callback (normalizedValue peak) min_step) series infinity ;;
     let offset := if Number_isFinite (snd cm) then - snd cm else zero in
     r <- map_js (map_callback (shifted_value offset) (fun (_ : unit) _ => tt)) (fst cm) tt ;;
     ret (fst r))%js.

(** Reading a batch back from the heap: every slot must hold a number. *)
Fixpoint dense (s : list (option float)) : option (list float) :=
  match s with
  | [] => Some []
  | Some x :: tl => option_map (cons x) (dense tl)
  | None :: _ => None
  end.

Definition numbers_at (h : heap) (p : addr) : option (list float) :=
  match nth_error h p with
  | Some (Numbers s) => dense s
  | _ => None
  end.

Fixpoint all_numbers (h : heap) (ps : list addr) : option (list (list float)) :=
  match ps with
  | [] => Some []
  | p :: tl =>
      match numbers_at h p, all_numbers h tl with
      | Some a, Some r => Some (a :: r)
      | _, _ => None
      end
  end.

Definition batch_at (h : heap) (p : addr) : option (list (list float)) :=
  match nth_error h p with
  | Some (Arrays ps) => all_numbers h ps
  | _ => None
  end.

(** ** The caller: the [traces] memo of [FRPlayback]

    The block that the script writes into the component builds the batch from
    the spectra of the current playback, calls the helper once, and turns the
    result into one or two plot traces. *)

From Stdlib Require Strings.String.
From Stdlib Require Import Permutation.
Import String.StringSyntax.
Delimit Scope string_scope with string.
Bind Scope string_scope with String.string.

(** The fields of [spectra] that the block reads; [wetDb] may be absent. *)
Record Spectra : Set := {
  freqs : list float;
  dryDb : list float;
  wetDb : option (list float);
  hasIR : bool
}.

Module PlotDatum.

Record Line : Set := { color : String.string; width : float }.

Record t : Set := {
  type : String.string;
  mode : String.string;
  name : String.string;
  hovertemplate : String.string;
  x : list float;
  y : list float;
  line : Line
}.

End PlotDatum.

Definition baseHover : String.string :=
  "<b>%{x:.0f} Hz</b><br>%{y:.2f} dB<extra></extra>"%string.

(** The condition [spectra.hasIR && spectra.wetDb]. *)
Definition wet_shown (spectra : Spectra) : bool :=
  hasIR spectra && match wetDb spectra with Some _ => true | None => false end.

(** [const series = [Array.from(spectra.dryDb)];
     if (spectra.hasIR && spectra.wetDb) series.push(Array.from(spectra.wetDb));] *)
Definition series_of (spectra : Spectra) : list (list float) :=
  let series := [dryDb spectra] in
  match hasIR spectra, wetDb spectra with
  | true, Some wet => series ++ [wet]
  | _, _ => series
  end.

(** The memo's function.  [None] is a [spectra] that is null; an array is
    truthy even when empty, so [spectra.hasIR && arrays[1]] asks whether
    [hasIR] is set and [arrays] has a second element. *)
Definition traces (spectra : option Spectra) : list PlotDatum.t :=
  match spectra with
  | None => []
  | Some spectra =>
      let freqs := freqs spectra in
      let series := series_of spectra in
      let arrays := arrays (normalizePlaybackSeries series) in
      let dryNormalized :=
        match nth_error arrays 0 with Some a => a | None => [] end in
      let result :=
        [ {| PlotDatum.type := "scatter"%string;
             PlotDatum.mode := "lines"%string;
             PlotDatum.name := "Original (music)"%string;
             PlotDatum.hovertemplate := baseHover;
             PlotDatum.x := freqs;
             PlotDatum.y := dryNormalized;
             PlotDatum.line := {| PlotDatum.color := "#5ac8fa"%string; PlotDatum.width := 2 |} |} ] in
      match hasIR spectra, nth_error arrays 1 with
      | true, Some wet =>
          result ++
          [ {| PlotDatum.type := "scatter"%string;
               PlotDatum.mode := "lines"%string;
               PlotDatum.name := "Convolved"%string;
               PlotDatum.hovertemplate := baseHover;
               PlotDatum.x := freqs;
               PlotDatum.y := wet;
               PlotDatum.line := {| PlotDatum.color := "#ff9f0a"%string; PlotDatum.width := 2 |} |} ]
      | _, _ => result
      end
  end.

(** ** Arrays with holes

    An element that is missing reads as [undefined], for which
    [Number.isFinite] is false; the helper treats it as it treats NaN. *)

Definition filled (s : list (option float)) : list float :=
  map (fun c => match c with Some x => x | None => nan end) s.

Fixpoint all_filled (h : heap) (ps : list addr) : option (list (list float)) :=
  match ps with
  | [] => Some []
  | p :: tl =>
      match nth_error h p, all_filled h tl with
      | Some (Numbers s), Some r => Some (filled s :: r)
      | _, _ => None
      end
  end.

(** The batch at [p], every hole read as NaN. *)
Definition sparse_batch_at (h : heap) (p : addr) : option (list (list float)) :=
  match nth_error h p with
  | Some (Arrays ps) => all_filled h ps
  | _ => None
  end.

(** ** The script [tmp_normalize.py]

    The script edits the text of [src/ui/FRPlayback.tsx]: it replaces the
    [traces] block, retunes the axis range and inserts the helper after the
    end of [serializeBuffer].  A Python [str] is a sequence of code points;
    the built-ins below are the methods of [str] that the script calls. *)

Definition str : Set := list N.

Definition CR : N := 13%N.
Definition LF : N := 10%N.

(** The double quote character, escaped in the literals of the script. *)
Definition dq : str := [34%N].

(** An ASCII literal of the script. *)
Definition lit (s : String.string) : str :=
  map Ascii.N_of_ascii (String.list_ascii_of_string s).

Module Py.

(** [text.startswith(prefix)] *)
Fixpoint startswith (text prefix : str) {struct prefix} : bool :=
  match prefix, text with
  | [], _ => true
  | c :: prefix', d :: text' => N.eqb c d && startswith text' prefix'
  | _ :: _, [] => false
  end.

(** The search of [find]: [text] is the part of the string from index [i]
    on.  [None] stands for the result [-1]. *)
Fixpoint find_here (sub text : str) (i : nat) : option nat :=
  if startswith text sub then Some i
  else match text with
       | [] => None
       | _ :: rest => find_here sub rest (S i)
       end.

(** [text.find(sub, start)] for [0 <= start]: the lowest index not below
    [start] at which [sub] occurs in [text]. *)
Definition find (text sub : str) (start : nat) : option nat :=
  if Nat.leb start (length text) then find_here sub (skipn start text) start
  else None.

(** [sub in text] *)
Definition contains (text sub : str) : bool :=
  match find text sub 0 with Some _ => true | None => false end.

(** The scan of [replace] for a non-empty [old]: left to right, an occurrence
    found is replaced and skipped ([skip] counts the characters of it that
    are still to be passed), so the occurrences replaced do not overlap. *)
Fixpoint replace_scan (old new text : str) (skip : nat) : str :=
  match text with
  | [] => []
  | c :: rest =>
      match skip with
      | S k => replace_scan old new rest k
      | O =>
          if startswith text old
          then new ++ replace_scan old new rest (length old - 1)
          else c :: replace_scan old new rest 0
      end
  end.

(** [text.replace(old, new)]; an empty [old] matches before every character
    and at the end. *)
Definition replace (text old new : str) : str :=
  match old with
  | [] => new ++ flat_map (fun c => c :: new) text
  | _ :: _ => replace_scan old new text 0
  end.

(** [sep.join(parts)] *)
Fixpoint join (sep : str) (parts : list str) : str :=
  match parts with
  | [] => []
  | [p] => p
  | p :: rest => p ++ sep ++ join sep rest
  end.

End Py.

(** The text searched for by the first [find]: the opening of the block. *)
Definition start_marker : str :=
  lit "const traces = useMemo<PlotDataArray>(() => {".

(** The text searched for by the second [find]: the closing of the block. *)
Definition end_marker : str :=
  lit "  }, [spectra]);".

(** The lines of the new block: the source of the [traces] memo. *)
Definition new_lines : list str :=
  [ lit "const traces = useMemo<PlotDataArray>(() => {";
    lit "    if (!spectra) return [] as PlotDataArray;";
    lit "    const baseHover = " ++ dq ++ lit "<b>%{x:.0f} Hz</b><br>%{y:.2f} dB<extra></extra>" ++ dq ++ lit ";";
    lit "    const freqs = Array.from(spectra.freqs);";
    lit "    const series: number[][] = [Array.from(spectra.dryDb)];";
    [];
    lit "    if (spectra.hasIR && spectra.wetDb) {";
    lit "      series.push(Array.from(spectra.wetDb));";
    lit "    }";
    [];
    lit "    const { arrays } = normalizePlaybackSeries(series);";
    lit "    const dryNormalized = arrays[0] ?? [];";
    lit "    const result: PlotDatum[] = [";
    lit "      {";
    lit "        type: " ++ dq ++ lit "scatter" ++ dq ++ lit ",";
    lit "        mode: " ++ dq ++ lit "lines" ++ dq ++ lit ",";
    lit "        name: " ++ dq ++ lit "Original (music)" ++ dq ++ lit ",";
    lit "        hovertemplate: baseHover,";
    lit "        x: freqs,";
    lit "        y: dryNormalized,";
    lit "        line: { color: " ++ dq ++ lit "#5ac8fa" ++ dq ++ lit ", width: 2 },";
    lit "      } as PlotDatum,";
    lit "    ];";
    [];
    lit "    if (spectra.hasIR && arrays[1]) {";
    lit "      result.push({";
    lit "        type: " ++ dq ++ lit "scatter" ++ dq ++ lit ",";
    lit "        mode: " ++ dq ++ lit "lines" ++ dq ++ lit ",";
    lit "        name: " ++ dq ++ lit "Convolved" ++ dq ++ lit ",";
    lit "        hovertemplate: baseHover,";
    lit "        x: freqs,";
    lit "        y: arrays[1],";
    lit "        line: { color: " ++ dq ++ lit "#ff9f0a" ++ dq ++ lit ", width: 2 },";
    lit "      } as PlotDatum);";
    lit "    }";
    [];
    lit "    return result as PlotDataArray;";
    lit "  }, [spectra]);" ].

(** The two arguments of the first [replace]. *)
Definition clip_old : str :=
  lit "autorangeoptions: { clipmin: -30, clipmax: 30 },".

Definition clip_new : str :=
  lit "autorangeoptions: { clipmin: 0, clipmax: 60 },".

(** The last lines of [serializeBuffer], with their CRLF line ends. *)
Definition insert_target : str :=
  lit "  return { data: mono, sampleRate: buffer.sampleRate, label };" ++ [CR; LF] ++ lit "}" ++ [CR; LF].

(** The lines of the literal [helper_insert]: the source of the helper. *)
Definition helper_lines : list str :=
  [ [];
    lit "function normalizePlaybackSeries(series: number[][]): { arrays: number[][] } {";
    lit "  if (series.length === 0) {";
    lit "    return { arrays: [] };";
    lit "  }";
    [];
    lit "  let peak = Number.NEGATIVE_INFINITY;";
    lit "  for (const arr of series) {";
    lit "    for (let i = 0; i < arr.length; i++) {";
    lit "      const value = arr[i];";
    lit "      if (!Number.isFinite(value)) continue;";
    lit "      if (value > peak) peak = value;";
    lit "    }";
    lit "  }";
    [];
    lit "  if (!Number.isFinite(peak)) {";
    lit "    peak = 0;";
    lit "  }";
    [];
    lit "  let min = Number.POSITIVE_INFINITY;";
    lit "  const centered = series.map((source) => {";
    lit "    const normalized: number[] = new Array(source.length);";
    lit "    for (let i = 0; i < source.length; i++) {";
    lit "      const value = source[i];";
    lit "      const normalizedValue = Number.isFinite(value) ? value - peak : Number.NaN;";
    lit "      normalized[i] = normalizedValue;";
    lit "      if (Number.isFinite(normalizedValue) && normalizedValue < min) {";
    lit "        min = normalizedValue;";
    lit "      }";
    lit "    }";
    lit "    return normalized;";
    lit "  });";
    [];
    lit "  const offset = Number.isFinite(min) ? -min : 0;";
    [];
    lit "  return {";
    lit "    arrays: centered.map((source) => {";
    lit "      const shifted: number[] = new Array(source.length);";
    lit "      for (let i = 0; i < source.length; i++) {";
    lit "        const value = source[i];";
    lit "        shifted[i] = Number.isFinite(value) ? Math.max(0, value + offset) : Number.NaN;";
    lit "      }";
    lit "      return shifted;";
    lit "    }),";
    lit "  };";
    lit "}";
    [] ].

(** [new_block = "\r\n".join(new_lines) + "\r\n"] *)
Definition new_block : str := Py.join [CR; LF] new_lines ++ [CR; LF].

(** The triple-quoted literal [helper_insert]: its lines are separated by
    line feeds, and it starts and ends with one. *)
Definition helper_insert : str := Py.join [LF] helper_lines.

(** The statements of the script between reading and writing the file, in
    three steps.  [inl msg] is [raise ValueError(msg)]. *)

(** The [traces] block, from the first start marker to the end of the first
    end marker found from there on, gives way to [new_block]. *)
Definition replace_block (text : str) : String.string + str :=
  match Py.find text start_marker 0 with
  | None => inl "traces block start not found"%string
  | Some start =>
      match Py.find text end_marker start with
      | None => inl "traces block end not found"%string
      | Some end_ =>
          let end_ := (end_ + length end_marker)%nat in
          inr (firstn start text ++ new_block ++ skipn end_ text)
      end
  end.

(** The range of the axis. *)
Definition retune (text : str) : str := Py.replace text clip_old clip_new.

(** [text.replace(insert_target, insert_target + helper_insert)] *)
Definition with_helper (text : str) : str :=
  Py.replace text insert_target (insert_target ++ helper_insert).

(** The helper goes after the end of [serializeBuffer]. *)
Definition insert_helper (text : str) : String.string + str :=
  if negb (Py.contains text insert_target)
  then inl "serializeBuffer closing not found"%string
  else inr (with_helper text).

Definition rewrite_text (text : str) : String.string + str :=
  match replace_block text with
  | inl msg => inl msg
  | inr text => insert_helper (retune text)
  end.

(** Reading with [encoding="utf-8-sig"] drops a byte order mark at the start
    of the file; writing with [encoding="utf-8"] adds none. *)
Definition read_utf_8_sig (content : str) : str :=
  match content with
  | c :: rest => if N.eqb c 65279 then rest else content
  | [] => content
  end.

Inductive outcome : Set :=
| Written
| ValueError (msg : String.string).

(** One run of the script on the content of the file, as code points: how
    the run ends, and the content of the file after it.  The file is written
    by the last statement only. *)
Definition tmp_normalize (content : str) : outcome * str :=
  match rewrite_text (read_utf_8_sig content) with
  | inl msg => (ValueError msg, content)
  | inr text => (Written, text)
  end.

(** A short text with the three places the script looks for, with CRLF line
    ends. *)
Definition tsx_excerpt : str :=
  lit "function serializeBuffer() {" ++ [CR; LF] ++
  lit "  return { data: mono, sampleRate: buffer.sampleRate, label };" ++ [CR; LF] ++
  lit "}" ++ [CR; LF] ++
  lit "  const traces = useMemo<PlotDataArray>(() => {" ++ [CR; LF] ++
  lit "    return [];" ++ [CR; LF] ++
  lit "  }, [spectra]);" ++ [CR; LF] ++
  lit "    autorangeoptions: { clipmin: -30, clipmax: 30 }," ++ [CR; LF].

(** The same text with LF line ends. *)
Definition tsx_excerpt_lf : str :=
  filter (fun c => negb (N.eqb c CR)) tsx_excerpt.


(** ** Occurrences in a text *)

(** [sub] occurs in [text]. *)
Definition occurs (sub text : str) : Prop :=
  exists pre post, text = pre ++ sub ++ post.

(** No occurrence of [old] in [u ++ w] starts inside [u]. *)
Definition free (old u w : str) : Prop :=
  forall u1 u2, u = u1 ++ u2 -> u2 <> [] -> Py.startswith (u2 ++ w) old = false.

(** One of the two texts is a prefix of the other. *)
Definition compat (a b : str) : bool := Py.startswith a b || Py.startswith b a.

Definition nonempty (s : str) : bool :=
  match s with [] => false | _ :: _ => true end.

(** The suffixes of a text, the longest first. *)
Fixpoint suffixes (l : str) : list str :=
  l :: match l with
       | [] => []
       | _ :: tl => suffixes tl
       end.

(** An occurrence of [m] can start before a [y] that follows and reach into
    it: a proper suffix of [m] and [y] start alike. *)
Definition border (m y : str) : bool :=
  existsb (fun s => nonempty s && compat s y) (tl (suffixes m)).

(** An occurrence of [m] can start inside [y]. *)
Definition inside (m y : str) : bool :=
  existsb (fun s => nonempty s && compat s m) (suffixes y).

(** No occurrence of [m] in any text can share a character with the [y] of
    [u ++ y ++ w]. *)
Definition apart (m y : str) : bool := negb (border m y) && negb (inside m y).

(** No occurrence of [old] in [a ++ b] lies across the border of [a] and
    [b]. *)
Definition clean (old a b : str) : Prop :=
  forall a1 a2, a = a1 ++ a2 -> a2 <> [] ->
    Py.startswith (a2 ++ b) old = true -> (length old <= length a2)%nat.

(** ** The worked examples of the specification *)

Example normalize_empty : normalize [] = [].
Proof. reflexivity. Qed.

Example normalize_single : normalize [[5]] = [[0]].
Proof. vm_compute. reflexivity. Qed.

Example normalize_two_series :
  normalize [[0; 10]; [5; 5]] = [[0; 10]; [5; 5]].
Proof. vm_compute. reflexivity. Qed.

Example normalize_mixed : normalize [[nan; 10; -5]] = [[nan; 15; 0]].
Proof. vm_compute. reflexivity. Qed.

Example normalize_non_finite : normalize [[nan; infinity]] = [[nan; nan]].
Proof. vm_compute. reflexivity. Qed.

(** The caller's batch may hold the same array twice; the heap run returns
    three distinct new arrays and leaves the two input arrays alone. *)
Example heap_run_aliased :
  normalizePlaybackSeries_js 2%nat
    [Numbers [Some 0; Some 10]; Numbers [Some 5; Some 5]; Arrays [0; 1; 0]%nat]
  = Some (10%nat,
          [Numbers [Some 0; Some 10]; Numbers [Some 5; Some 5]; Arrays [0; 1; 0]%nat;
           Numbers [Some (-10); Some 0]; Numbers [Some (-5); Some (-5)];
           Numbers [Some (-10); Some 0]; Arrays [3; 4; 5]%nat;
           Numbers [Some 0; Some 10]; Numbers [Some 5; Some 5];
           Numbers [Some 0; Some 10]; Arrays [7; 8; 9]%nat]).
Proof. vm_compute. reflexivity. Qed.
(** ** Views of a binary64 value *)

Definition sf_finite (x : spec_float) : bool :=
  match x with
  | S754_zero _ | S754_finite _ _ _ => true
  | _ => false
  end.

Lemma SFcompare_refl_finite s m e :
  SFcompare (S754_finite s m e) (S754_finite s m e) = Some Eq.
Proof.
  simpl. rewrite Z.compare_refl, Pos.compare_cont_refl. now destruct s.
Qed.

Lemma Prim2SF_infinity : Prim2SF infinity = S754_infinity false.
Proof. reflexivity. Qed.
Lemma Prim2SF_neg_infinity : Prim2SF neg_infinity = S754_infinity true.
Proof. reflexivity. Qed.
Lemma Prim2SF_zero : Prim2SF zero = S754_zero false.
Proof. reflexivity. Qed.
Lemma Prim2SF_nan : Prim2SF nan = S754_nan.
Proof. reflexivity. Qed.

Lemma is_nan_spec x :
  is_nan x = match Prim2SF x with S754_nan => true | _ => false end.
Proof.
  unfold is_nan. rewrite eqb_spec. unfold SFeqb.
  destruct (Prim2SF x) as [s|s| |s m e]; try reflexivity.
  - now destruct s.
  - now rewrite SFcompare_refl_finite.
Qed.

Lemma is_finite_spec x : Number_isFinite x = sf_finite (Prim2SF x).
Proof.
  unfold Number_isFinite, is_finite. rewrite is_nan_spec.
  unfold is_infinity. rewrite eqb_spec, abs_spec, Prim2SF_infinity.
  destruct (Prim2SF x) as [s|s| |s m e]; reflexivity.
Qed.

(** ** Signs, comparisons and cancellation on binary64 *)

Lemma ltb_neg_infinity v :
  Number_isFinite v = true -> (neg_infinity <? v) = true.
Proof.
  rewrite is_finite_spec, ltb_spec, Prim2SF_neg_infinity.
  now destruct (Prim2SF v).
Qed.

Lemma ltb_infinity v :
  Number_isFinite v = true -> (v <? infinity) = true.
Proof.
  rewrite is_finite_spec, ltb_spec, Prim2SF_infinity.
  now destruct (Prim2SF v).
Qed.

Lemma shl_align_same m e : shl_align m e e = (m, e).
Proof. unfold shl_align. now rewrite Z.sub_diag. Qed.

(** [x - x] is [+0] for every finite [x]. *)
Lemma sub_diag_finite x : Number_isFinite x = true -> x - x = zero.
Proof.
  rewrite is_finite_spec. intros F.
  apply Prim2SF_inj. rewrite sub_spec, Prim2SF_zero.
  unfold SF64sub. destruct (Prim2SF x) as [s|s| |s m e]; try discriminate.
  - now destruct s.
  - unfold SFsub. rewrite Z.min_id, shl_align_same, Z.sub_diag. reflexivity.
Qed.

(** [x + (-x)] is [+0] for every finite [x]. *)
Lemma add_opp_diag_finite x : Number_isFinite x = true -> x + (- x) = zero.
Proof.
  rewrite is_finite_spec. intros F.
  apply Prim2SF_inj. rewrite add_spec, opp_spec, Prim2SF_zero.
  unfold SF64add. destruct (Prim2SF x) as [s|s| |s m e]; try discriminate.
  - now destruct s.
  - unfold SFadd, SFopp. rewrite Z.min_id, shl_align_same.
    assert (H : (cond_Zopp s (Z.pos (fst (m, e))) + cond_Zopp (negb s) (Z.pos (fst (m, e))))%Z = 0%Z)
      by (destruct s; cbn [cond_Zopp negb fst]; lia).
    now rewrite H.
Qed.

Lemma opp_finite x : Number_isFinite (- x) = Number_isFinite x.
Proof.
  rewrite !is_finite_spec, opp_spec. now destruct (Prim2SF x).
Qed.

Lemma is_finite_nan : Number_isFinite nan = false.
Proof. reflexivity. Qed.

Lemma is_finite_not_nan x : Number_isFinite x = true -> is_nan x = false.
Proof.
  rewrite is_finite_spec, is_nan_spec. now destruct (Prim2SF x).
Qed.

Lemma leb_refl_finite x : Number_isFinite x = true -> (x <=? x) = true.
Proof.
  rewrite is_finite_spec, leb_spec. unfold SFleb.
  destruct (Prim2SF x) as [s|s| |s m e]; try discriminate; trivial.
  now rewrite SFcompare_refl_finite.
Qed.

Lemma ltb_leb x y : (x <? y) = true -> (x <=? y) = true.
Proof.
  rewrite ltb_spec, leb_spec. unfold SFltb, SFleb.
  now destruct (SFcompare (Prim2SF x) (Prim2SF y)) as [[]|].
Qed.

(** What [Math.max(0, x)] is for a number [x]: [x] itself when [0 < x], and
    [+0] otherwise (also for [x = -0]). *)
Lemma Math_max_zero x :
  is_nan x = false ->
  Math_max zero x = if zero <? x then x else zero.
Proof.
  intros N. unfold Math_max. rewrite N.
  change (is_nan zero) with false. change (is_neg_zero zero) with false.
  now rewrite andb_false_r.
Qed.

Lemma Math_max_zero_nan x : is_nan x = true -> Math_max zero x = nan.
Proof. intros N. unfold Math_max. now rewrite N, orb_true_r. Qed.

Lemma Math_max_zero_nonneg x :
  Number_isFinite (Math_max zero x) = true -> (zero <=? Math_max zero x) = true.
Proof.
  destruct (is_nan x) eqn:N.
  - rewrite (Math_max_zero_nan _ N). discriminate.
  - rewrite (Math_max_zero _ N). destruct (zero <? x) eqn:L; intros _.
    + now apply ltb_leb.
    + reflexivity.
Qed.

(** ** The loops as folds and maps *)

Lemma normalized_fst peak source min :
  fst (normalized peak source min) = map (normalizedValue peak) source.
Proof.
  revert min. induction source as [|v rest IH]; intros min; simpl; trivial.
  specialize (IH (min_step min (normalizedValue peak v))).
  destruct (normalized peak rest _) as [tl m']. simpl in *. now rewrite IH.
Qed.

Lemma normalized_snd peak source min :
  snd (normalized peak source min)
  = fold_left min_step (map (normalizedValue peak) source) min.
Proof.
  revert min. induction source as [|v rest IH]; intros min; simpl; trivial.
  specialize (IH (min_step min (normalizedValue peak v))).
  destruct (normalized peak rest _) as [tl m']. simpl in *. now rewrite IH.
Qed.

Lemma centered_fst peak series min :
  fst (centered peak series min) = map (map (normalizedValue peak)) series.
Proof.
  revert min. induction series as [|src rest IH]; intros min; simpl; trivial.
  pose proof (normalized_fst peak src min) as Hf.
  destruct (normalized peak src min) as [arr m1].
  specialize (IH m1). destruct (centered peak rest m1) as [tl m2].
  simpl in *. now rewrite Hf, IH.
Qed.

Lemma centered_snd peak series min :
  snd (centered peak series min)
  = fold_left min_step (map (normalizedValue peak) (samples series)) min.
Proof.
  unfold samples.
  revert min. induction series as [|src rest IH]; intros min; simpl; trivial.
  pose proof (normalized_snd peak src min) as Hs.
  destruct (normalized peak src min) as [arr m1].
  specialize (IH m1). destruct (centered peak rest m1) as [tl m2].
  simpl in *. now rewrite map_app, fold_left_app, <- Hs, IH.
Qed.

Lemma scan_peak_fold series :
  scan_peak series = fold_left peak_step (samples series) neg_infinity.
Proof.
  unfold scan_peak, samples. generalize neg_infinity.
  induction series as [|arr rest IH]; intros p; simpl; trivial.
  now rewrite fold_left_app, IH.
Qed.

Lemma min_of_fold series :
  min_of series
  = fold_left min_step (map (normalizedValue (peak_of series)) (samples series)) infinity.
Proof. apply centered_snd. Qed.

(** One call is a pointwise map whose two parameters are batch-wide. *)
Lemma normalize_pointwise series :
  normalize series
  = map (map (pipeline (peak_of series) (offset_of series))) series.
Proof.
  unfold normalize, normalizePlaybackSeries.
  destruct (Nat.eqb (length series) 0) eqn:E.
  - destruct series; [reflexivity | discriminate].
  - fold (peak_of series).
    pose proof (centered_fst (peak_of series) series infinity) as Hf.
    assert (Hs : snd (centered (peak_of series) series infinity) = min_of series)
      by reflexivity.
    destruct (centered (peak_of series) series infinity) as [c mn].
    cbn [fst snd] in Hf, Hs. subst c mn. fold (offset_of series).
    cbn [arrays]. rewrite map_map. apply map_ext. intros arr.
    unfold shifted. rewrite map_map. reflexivity.
Qed.

Lemma samples_normalize series :
  samples (normalize series)
  = map (pipeline (peak_of series) (offset_of series)) (samples series).
Proof.
  rewrite normalize_pointwise. unfold samples. now rewrite concat_map.
Qed.

Lemma at_pos_map (f : float -> float) batch i j :
  at_pos (map (map f) batch) i j = option_map f (at_pos batch i j).
Proof.
  unfold at_pos. rewrite nth_error_map.
  destruct (nth_error batch i) as [arr|]; simpl; trivial.
  now rewrite nth_error_map.
Qed.

Lemma at_pos_normalize series i j :
  at_pos (normalize series) i j
  = option_map (pipeline (peak_of series) (offset_of series)) (at_pos series i j).
Proof. rewrite normalize_pointwise. apply at_pos_map. Qed.

Lemma at_pos_samples batch i j v :
  at_pos batch i j = Some v -> In v (samples batch).
Proof.
  unfold at_pos, samples. destruct (nth_error batch i) as [arr|] eqn:E; [|discriminate].
  intros H. apply in_concat. exists arr. split; eauto using nth_error_In.
Qed.

Lemma samples_at_pos batch v :
  In v (samples batch) -> exists i j, at_pos batch i j = Some v.
Proof.
  unfold samples, at_pos. intros H. apply in_concat in H as (arr & Ha & Hv).
  apply In_nth_error in Ha as [i Hi]. apply In_nth_error in Hv as [j Hj].
  exists i, j. now rewrite Hi.
Qed.

(** ** Scans that keep one of the values they visit *)

Section Selection.
Variable step : float -> float -> float.
Variable good : float -> bool.
Variable init : float.
Hypothesis step_keeps : forall s x, good x = false -> step s x = s.
Hypothesis step_picks : forall s x, step s x = s \/ step s x = x.
Hypothesis step_first : forall x, good x = true -> step init x = x.

Lemma select_from s l :
  fold_left step l s = s \/
  (In (fold_left step l s) l /\ good (fold_left step l s) = true).
Proof.
  revert s. induction l as [|x tl IH]; intros s; simpl; [now left|].
  destruct (IH (step s x)) as [E|[I G]].
  - rewrite E. destruct (good x) eqn:Gx.
    + destruct (step_picks s x) as [->| ->]; [now left | right; auto].
    + rewrite step_keeps by assumption. now left.
  - right. auto.
Qed.

Lemma select_none l s :
  (forall x, In x l -> good x = false) -> fold_left step l s = s.
Proof.
  revert s. induction l as [|x tl IH]; intros s H; simpl; trivial.
  rewrite step_keeps by (apply H; now left). apply IH. intros; apply H; now right.
Qed.

Lemma select_some l :
  (exists x, In x l /\ good x = true) ->
  In (fold_left step l init) l /\ good (fold_left step l init) = true.
Proof.
  induction l as [|x tl IH]; intros (v & Hv & Gv); [contradiction|].
  simpl. destruct (good x) eqn:Gx.
  - rewrite step_first by assumption.
    destruct (select_from x tl) as [E|[I G]].
    + rewrite E. auto.
    + auto.
  - rewrite step_keeps by assumption.
    destruct Hv as [->|Hv]; [congruence|].
    destruct IH as [I G]; eauto.
Qed.
End Selection.

Lemma peak_step_keeps s x : Number_isFinite x = false -> peak_step s x = s.
Proof. unfold peak_step. now intros ->. Qed.

Lemma peak_step_picks s x : peak_step s x = s \/ peak_step s x = x.
Proof. unfold peak_step. destruct (negb _), (s <? x); auto. Qed.

Lemma peak_step_first x :
  Number_isFinite x = true -> peak_step neg_infinity x = x.
Proof.
  intros F. unfold peak_step. now rewrite F, ltb_neg_infinity.
Qed.

Lemma min_step_keeps s x : Number_isFinite x = false -> min_step s x = s.
Proof. unfold min_step. now intros ->. Qed.

Lemma min_step_picks s x : min_step s x = s \/ min_step s x = x.
Proof. unfold min_step. destruct (_ && _); auto. Qed.

Lemma min_step_first x : Number_isFinite x = true -> min_step infinity x = x.
Proof.
  intros F. unfold min_step. now rewrite F, ltb_infinity.
Qed.

Create HintDb scans.
#[local] Hint Resolve peak_step_keeps peak_step_picks peak_step_first
  min_step_keeps min_step_picks min_step_first : scans.

Lemma has_finite_spec batch :
  has_finite batch = true <->
  exists v, In v (samples batch) /\ Number_isFinite v = true.
Proof. unfold has_finite. apply existsb_exists. Qed.

Lemma has_finite_false batch :
  has_finite batch = false ->
  forall v, In v (samples batch) -> Number_isFinite v = false.
Proof.
  intros H v Hv. destruct (Number_isFinite v) eqn:F; trivial.
  assert (has_finite batch = true) by (apply has_finite_spec; eauto). congruence.
Qed.

(** With a finite sample in the batch, the scan ends on one of them. *)
Lemma scan_peak_hits series :
  has_finite series = true ->
  In (scan_peak series) (samples series) /\ Number_isFinite (scan_peak series) = true.
Proof.
  intros H. rewrite scan_peak_fold.
  apply select_some; auto with scans.
  now apply has_finite_spec.
Qed.

Lemma scan_peak_none series :
  has_finite series = false -> scan_peak series = neg_infinity.
Proof.
  intros H. rewrite scan_peak_fold.
  apply select_none with (good := Number_isFinite); auto with scans.
  now apply has_finite_false.
Qed.

Lemma peak_of_hits series :
  has_finite series = true ->
  peak_of series = scan_peak series /\
  In (peak_of series) (samples series) /\ Number_isFinite (peak_of series) = true.
Proof.
  intros H. destruct (scan_peak_hits series H) as [I F].
  unfold peak_of. rewrite F. auto.
Qed.

Lemma peak_of_none series : has_finite series = false -> peak_of series = zero.
Proof. intros H. unfold peak_of. now rewrite scan_peak_none. Qed.

Lemma peak_of_finite series : Number_isFinite (peak_of series) = true.
Proof.
  unfold peak_of. destruct (Number_isFinite (scan_peak series)) eqn:F; trivial.
Qed.

Lemma normalizedValue_finite_inv peak v :
  Number_isFinite (normalizedValue peak v) = true -> Number_isFinite v = true.
Proof.
  unfold normalizedValue. destruct (Number_isFinite v); trivial.
Qed.

(** With a finite sample in the batch, [min] ends on the centred value of a
    finite sample, and that value is finite. *)
Lemma min_of_hits series :
  has_finite series = true ->
  Number_isFinite (min_of series) = true /\
  exists v, In v (samples series) /\ Number_isFinite v = true /\
            min_of series = v - peak_of series.
Proof.
  intros H. destruct (peak_of_hits series H) as (_ & Ip & Fp).
  rewrite min_of_fold.
  destruct (select_some min_step Number_isFinite infinity
              min_step_keeps min_step_picks min_step_first
              (map (normalizedValue (peak_of series)) (samples series))) as [I F].
  - exists (normalizedValue (peak_of series) (peak_of series)). split.
    + now apply in_map.
    + unfold normalizedValue. rewrite Fp, sub_diag_finite by assumption. reflexivity.
  - split; [assumption|].
    apply in_map_iff in I as (v & Ev & Iv). exists v.
    rewrite <- Ev in F. pose proof (normalizedValue_finite_inv _ _ F) as Fv.
    repeat split; trivial. rewrite <- Ev. unfold normalizedValue. now rewrite Fv.
Qed.

Lemma min_of_none series : has_finite series = false -> min_of series = infinity.
Proof.
  intros H. rewrite min_of_fold.
  apply select_none with (good := Number_isFinite); auto with scans.
  intros x Hx. apply in_map_iff in Hx as (v & <- & Hv).
  unfold normalizedValue. now rewrite (has_finite_false _ H v Hv).
Qed.

Lemma pipeline_not_finite peak offset v :
  Number_isFinite v = false -> pipeline peak offset v = nan.
Proof.
  intros F. unfold pipeline, normalizedValue, shifted_value. now rewrite F.
Qed.

Lemma pipeline_finite_inv peak offset v :
  Number_isFinite (pipeline peak offset v) = true -> Number_isFinite v = true.
Proof.
  destruct (Number_isFinite v) eqn:F; trivial.
  now rewrite pipeline_not_finite.
Qed.

Lemma pipeline_nonneg peak offset v :
  Number_isFinite (pipeline peak offset v) = true ->
  (zero <=? pipeline peak offset v) = true.
Proof.
  unfold pipeline, shifted_value.
  destruct (Number_isFinite (normalizedValue peak v)); [|discriminate].
  apply Math_max_zero_nonneg.
Qed.

(** Without a finite sample every result is NaN. *)
Lemma non_finite_batch_result series :
  has_finite series = false ->
  normalize series = map (map (fun _ => nan)) series.
Proof.
  intros H. rewrite normalize_pointwise. apply map_ext_in. intros arr Ha.
  apply map_ext_in. intros v Hv. apply pipeline_not_finite.
  apply (has_finite_false _ H). unfold samples. apply in_concat. eauto.
Qed.

Lemma SFcompare_antisym x y :
  SFcompare y x = option_map CompOpp (SFcompare x y).
Proof.
  destruct x as [s1|s1| |s1 m1 e1], y as [s2|s2| |s2 m2 e2]; simpl; trivial;
    try (destruct s1; trivial; destruct s2; trivial; fail);
    try (destruct s2; trivial; fail).
  change (Pos.compare_cont Eq m2 m1) with (Pos.compare m2 m1).
  change (Pos.compare_cont Eq m1 m2) with (Pos.compare m1 m2).
  rewrite (Z.compare_antisym e1 e2), (Pos.compare_antisym m1 m2).
  destruct s1, s2; trivial; destruct (e1 ?= e2)%Z; simpl; trivial;
    now destruct (m1 ?= m2)%positive.
Qed.

Lemma leb_not_ltb x y : (x <=? y) = true -> (y <? x) = false.
Proof.
  rewrite leb_spec, ltb_spec. unfold SFleb, SFltb.
  rewrite (SFcompare_antisym (Prim2SF x) (Prim2SF y)).
  now destruct (SFcompare (Prim2SF x) (Prim2SF y)) as [[]|].
Qed.

(** ** Right shifts with round and sticky bits *)

Local Open Scope Z_scope.

Lemma digits2_pos_log2 m : Zpos (digits2_pos m) = Z.log2 (Zpos m) + 1.
Proof.
  induction m as [m IH|m IH|]; simpl digits2_pos; trivial.
  - rewrite Pos2Z.inj_succ, IH.
    change (Z.pos m~1) with (2 * Z.pos m + 1). rewrite Z.log2_succ_double; lia.
  - rewrite Pos2Z.inj_succ, IH.
    change (Z.pos m~0) with (2 * Z.pos m). rewrite Z.log2_double; lia.
Qed.

Lemma iter_pos_nat {A} (f : A -> A) p x :
  iter_pos f p x = Nat.iter (Pos.to_nat p) f x.
Proof.
  revert x. induction p as [p IH|p IH|]; intros x; simpl iter_pos.
  - rewrite !IH, <- Nat.iter_succ_r, <- Nat.iter_add.
    f_equal. rewrite Pos2Nat.inj_xI. lia.
  - rewrite !IH, <- Nat.iter_add. f_equal. rewrite Pos2Nat.inj_xO. lia.
  - reflexivity.
Qed.

Lemma shr_1_nonneg m r s :
  0 <= m ->
  shr_1 {| shr_m := m; shr_r := r; shr_s := s |}
  = {| shr_m := m / 2; shr_r := Z.odd m; shr_s := r || s |}.
Proof.
  intros H. destruct m as [|[p|p|]|p]; try lia; unfold shr_1.
  - reflexivity.
  - f_equal. change (Z.pos p~1) with (2 * Z.pos p + 1).
    apply Z.div_unique with 1; lia.
  - f_equal. change (Z.pos p~0) with (2 * Z.pos p).
    apply Z.div_unique with 0; lia.
  - reflexivity.
Qed.

(** The state after [j + 1] one-bit shifts of [m0]: the quotient by
    [2^(j+1)], the bit just shifted out, and whether anything below it was
    set. *)
Lemma shr_iter m0 j :
  0 <= m0 ->
  Nat.iter (S j) shr_1 {| shr_m := m0; shr_r := false; shr_s := false |}
  = {| shr_m := m0 / 2 ^ (Z.of_nat j + 1);
       shr_r := Z.odd (m0 / 2 ^ Z.of_nat j);
       shr_s := negb (m0 mod 2 ^ Z.of_nat j =? 0) |}.
Proof.
  intros H. induction j as [|j IH].
  - unfold Nat.iter. cbn [nat_rect]. rewrite shr_1_nonneg by assumption.
    cbn [Z.of_nat Z.add]. rewrite Z.pow_0_r, Z.div_1_r, Z.mod_1_r, Z.pow_1_r. reflexivity.
  - rewrite Nat.iter_succ, IH. clear IH.
    assert (P : 0 < 2 ^ Z.of_nat j) by (apply Z.pow_pos_nonneg; lia).
    rewrite shr_1_nonneg by (apply Z.div_pos; [assumption | apply Z.pow_pos_nonneg; lia]).
    rewrite Nat2Z.inj_succ.
    replace (Z.succ (Z.of_nat j)) with (Z.of_nat j + 1) by lia.
    f_equal.
    + rewrite Z.div_div by lia. f_equal.
      rewrite (Z.pow_add_r 2 (Z.of_nat j + 1) 1), Z.pow_1_r by lia. reflexivity.
    + (* sticky: bit j or anything below it *)
      rewrite (Z.pow_add_r 2 (Z.of_nat j) 1), Z.pow_1_r by lia.
      rewrite Z.rem_mul_r by lia.
      set (a := m0 mod 2 ^ Z.of_nat j). set (q := m0 / 2 ^ Z.of_nat j).
      assert (Ha : 0 <= a < 2 ^ Z.of_nat j) by (apply Z.mod_pos_bound; lia).
      rewrite (Zmod_odd q).
      destruct (Z.odd q); destruct (Z.eqb_spec a 0);
        match goal with |- context [(?t =? 0)] => destruct (Z.eqb_spec t 0) end;
        simpl; trivial; nia.
Qed.

(** Shifting right by [k] bits and rounding on the two bits kept is rounding
    the quotient by [2^k] to nearest even. *)
Lemma shr_round m0 e k :
  0 <= m0 -> 0 <= k ->
  let '(mrs, e') := shr {| shr_m := m0; shr_r := false; shr_s := false |} e k in
  e' = e + k /\
  round_nearest_even (shr_m mrs) (loc_of_shr_record mrs) = rne m0 k.
Proof.
  intros H Hk. unfold shr. destruct k as [|p|p]; try lia.
  - split; [lia|]. simpl. unfold rne. rewrite Z.pow_0_r, Z.div_1_r, Z.mod_1_r. reflexivity.
  - split; [reflexivity|]. rewrite iter_pos_nat.
    destruct (Pos2Nat.is_succ p) as [j Hj]. rewrite Hj, shr_iter by assumption.
    assert (Ej : Z.pos p = Z.of_nat j + 1) by lia.
    rewrite <- Ej. unfold rne.
    assert (P : 0 < 2 ^ Z.of_nat j) by (apply Z.pow_pos_nonneg; lia).
    assert (E2 : 2 ^ Z.pos p = 2 ^ Z.of_nat j * 2)
      by (rewrite Ej, Z.pow_add_r, Z.pow_1_r; lia).
    rewrite E2, Z.rem_mul_r by lia.
    set (a := m0 mod 2 ^ Z.of_nat j). set (q := m0 / 2 ^ Z.of_nat j).
    assert (Ha : 0 <= a < 2 ^ Z.of_nat j) by (apply Z.mod_pos_bound; lia).
    rewrite <- Z.div_div by lia. fold q.
    rewrite (Zmod_odd q). cbn [shr_m loc_of_shr_record].
    destruct (Z.odd q), (Z.eqb_spec a 0); cbn [negb round_nearest_even].
    + replace (2 * (a + 2 ^ Z.of_nat j * 1) ?= 2 ^ Z.of_nat j * 2) with Eq
        by (symmetry; apply Z.compare_eq_iff; nia). reflexivity.
    + replace (2 * (a + 2 ^ Z.of_nat j * 1) ?= 2 ^ Z.of_nat j * 2) with Gt
        by (symmetry; apply Z.compare_gt_iff; nia). reflexivity.
    + replace (2 * (a + 2 ^ Z.of_nat j * 0) ?= 2 ^ Z.of_nat j * 2) with Lt
        by (symmetry; apply Z.compare_lt_iff; nia). reflexivity.
    + replace (2 * (a + 2 ^ Z.of_nat j * 0) ?= 2 ^ Z.of_nat j * 2) with Lt
        by (symmetry; apply Z.compare_lt_iff; nia). reflexivity.
Qed.

(** ** What [binary_round] computes *)

Lemma pow2_pos k : 0 <= k -> 0 < 2 ^ k.
Proof. intros. apply Z.pow_pos_nonneg; lia. Qed.

Lemma pow2_le a b : 0 <= a <= b -> 2 ^ a <= 2 ^ b.
Proof. intros. apply Z.pow_le_mono_r; lia. Qed.

Lemma pow2_lt a b : 0 <= a < b -> 2 ^ a < 2 ^ b.
Proof. intros. apply Z.pow_lt_mono_r; lia. Qed.

Lemma pow2_split a b : 0 <= a <= b -> 2 ^ b = 2 ^ (b - a) * 2 ^ a.
Proof. intros. rewrite <- Z.pow_add_r by lia. f_equal. lia. Qed.

Lemma top_eq : top = 2 ^ 2098.
Proof. reflexivity. Qed.

Global Opaque top.

Lemma shl_align_spec m e e' :
  let '(mz, ez) := shl_align m e e' in
  ez = Z.min e e' /\ Zpos mz = Zpos m * 2 ^ (e - ez).
Proof.
  unfold shl_align. destruct (e' - e) as [|p|p] eqn:D.
  - split; [lia|]. rewrite Z.sub_diag, Z.pow_0_r. lia.
  - split; [lia|]. rewrite Z.sub_diag, Z.pow_0_r. lia.
  - split; [lia|]. replace (e - e') with (Z.pos p) by lia.
    change (Pos.iter xO m p) with (shift_pos p m).
    rewrite shift_pos_correct. change (Z.pow_pos 2 p) with (2 ^ Z.pos p). lia.
Qed.

Lemma rne_scale a k j :
  0 <= k -> 0 <= j -> rne (a * 2 ^ j) (k + j) = rne a k.
Proof.
  intros Hk Hj. unfold rne.
  assert (Pk := pow2_pos k Hk). assert (Pj := pow2_pos j Hj).
  rewrite Z.pow_add_r, Z.div_mul_cancel_r, Z.mul_mod_distr_r by lia.
  replace (2 * (a mod 2 ^ k * 2 ^ j)) with (2 * (a mod 2 ^ k) * 2 ^ j) by lia.
  destruct (Z.compare_spec (2 * (a mod 2 ^ k)) (2 ^ k));
    destruct (Z.compare_spec (2 * (a mod 2 ^ k) * 2 ^ j) (2 ^ k * 2 ^ j));
    try reflexivity; nia.
Qed.

Lemma rne_exact a k : 0 <= k -> rne (a * 2 ^ k) k = a.
Proof.
  intros Hk. assert (Pk := pow2_pos k Hk).
  unfold rne. rewrite Z.div_mul, Z.mod_mul by lia.
  replace (2 * 0 ?= 2 ^ k) with Lt by (symmetry; apply Z.compare_lt_iff; lia).
  reflexivity.
Qed.

(** The quotient, or the next integer when something is left over. *)
Lemma rne_cases n k :
  0 <= k ->
  (rne n k = n / 2 ^ k \/ (rne n k = n / 2 ^ k + 1 /\ 0 < n mod 2 ^ k)) /\
  n / 2 ^ k <= rne n k.
Proof.
  intros Hk. assert (Pk := pow2_pos k Hk). unfold rne.
  pose proof (Z.mod_pos_bound n (2 ^ k) Pk) as B.
  destruct (Z.compare_spec (2 * (n mod 2 ^ k)) (2 ^ k)) as [E|L|G].
  - destruct (Z.even (n / 2 ^ k)).
    + split; [auto | lia].
    + split; [right; split; lia | lia].
  - split; [auto | lia].
  - split; [right; split; lia | lia].
Qed.

Lemma fexp64 z : fexp prec emax z = Z.max (z - 53) (-1074).
Proof. reflexivity. Qed.

(** The last step of [binary_round_aux]: renormalise a rounded mantissa of at
    most 53 bits (or exactly [2^53]) and test the exponent range. *)
Lemma round_tail s m2 E :
  -1074 <= E -> 1 <= m2 <= 2 ^ 53 -> (2 ^ 52 <= m2 \/ E = -1074) ->
  let R :=
    let '(mrs, e'') := shr_fexp prec emax m2 E loc_Exact in
    match shr_m mrs with
    | Z0 => S754_zero s
    | Zpos m => if e'' <=? emax - prec then S754_finite s m e'' else S754_infinity s
    | Zneg _ => S754_nan
    end in
  (m2 * 2 ^ (E + 1074) < top ->
     exists m' e', R = S754_finite s m' e' /\ -1074 <= e' /\
                   Zpos m' * 2 ^ (e' + 1074) = m2 * 2 ^ (E + 1074)) /\
  (top <= m2 * 2 ^ (E + 1074) -> R = S754_infinity s).
Proof.
  intros HE Hm Hn. rewrite top_eq.
  assert (P := pow2_pos (E + 1074) ltac:(lia)).
  destruct (Z.eq_dec m2 (2 ^ 53)) as [->|Hne].
  - (* the carry: one more shift *)
    unfold shr_fexp. rewrite fexp64.
    change (Zdigits2 (2 ^ 53)) with 54.
    replace (Z.max (54 + E - 53) (-1074) - E) with 1 by lia.
    cbn [shr_record_of_loc shr iter_pos]. unfold shr_1.
    change (2 ^ 53) with (Z.pos (xO (Pos.shiftl 1 52))).
    cbn [shr_m]. change (emax - prec) with 971.
    replace (Z.pos (xO (Pos.shiftl 1 52)) * 2 ^ (E + 1074))
      with (2 ^ (E + 1127)).
    2:{ change (Z.pos (xO (Pos.shiftl 1 52))) with (2 ^ 53).
        rewrite <- Z.pow_add_r by lia. f_equal. lia. }
    split.
    + intros Hlt. apply Z.pow_lt_mono_r_iff in Hlt; try lia.
      destruct (Z.leb_spec (E + 1) 971); [|lia].
      eexists _, _. split; [reflexivity|]. split; [lia|].
      change (Z.pos (Pos.shiftl 1 52)) with (2 ^ 52).
      rewrite <- Z.pow_add_r by lia. f_equal. lia.
    + intros Hge. apply Z.pow_le_mono_r_iff in Hge; try lia.
      destruct (Z.leb_spec (E + 1) 971); [lia|]. reflexivity.
  - assert (Hlt : m2 < 2 ^ 53) by lia.
    destruct m2 as [|p|p]; try lia.
    unfold shr_fexp. rewrite fexp64. cbn [Zdigits2].
    rewrite digits2_pos_log2.
    assert (L : Z.log2 (Z.pos p) < 53) by (apply Z.log2_lt_pow2; lia).
    assert (L' : 2 ^ 52 <= Z.pos p -> 52 <= Z.log2 (Z.pos p))
      by (intros; apply Z.log2_le_pow2; lia).
    replace (Z.max (Z.log2 (Z.pos p) + 1 + E - 53) (-1074) - E) with 0 by lia.
    cbn [shr_record_of_loc shr shr_m]. change (emax - prec) with 971.
    split.
    + intros Hv. destruct (Z.leb_spec E 971) as [|Hbig].
      * eexists _, _. split; [reflexivity|]. split; [lia | reflexivity].
      * exfalso. assert (2 ^ 52 <= Z.pos p) by lia.
        assert (2 ^ 2046 <= 2 ^ (E + 1074)) by (apply pow2_le; lia).
        assert (2 ^ 2098 = 2 ^ 52 * 2 ^ 2046) by (rewrite <- Z.pow_add_r by lia; reflexivity).
        nia.
    + intros Hv. destruct (Z.leb_spec E 971) as [Hsmall|]; [|reflexivity].
      exfalso.
      assert (2 ^ (E + 1074) <= 2 ^ 2045) by (apply pow2_le; lia).
      assert (2 ^ 2098 = 2 ^ 53 * 2 ^ 2045) by (rewrite <- Z.pow_add_r by lia; reflexivity).
      nia.
Qed.

Lemma rexp_scaled m E :
  0 <= E -> rexp (Z.pos m * 2 ^ E) = Z.max 0 (Z.log2 (Z.pos m) + E - 52).
Proof.
  intros HE. unfold rexp. rewrite Z.log2_mul_pow2 by lia. f_equal. lia.
Qed.

(** [binary_round] rounds the exact magnitude to nearest even on the grid of
    its 53 leading bits (the unit grid for subnormals), and overflows to an
    infinity from [2^1024] on. *)
Lemma binary_round_val s m e :
  -1074 <= e ->
  let n := Z.pos m * 2 ^ (e + 1074) in
  let R := binary_round prec emax s m e in
  (rnd_pos n < top ->
     exists m' e', R = S754_finite s m' e' /\ -1074 <= e' /\
                   Z.pos m' * 2 ^ (e' + 1074) = rnd_pos n) /\
  (top <= rnd_pos n -> R = S754_infinity s).
Proof.
  intros He n R. subst R. unfold binary_round.
  rewrite fexp64, digits2_pos_log2.
  assert (L0 := Z.log2_nonneg (Z.pos m)).
  remember (Z.log2 (Z.pos m)) as L eqn:HL.
  remember (Z.max (L + 1 + e - 53) (-1074)) as E eqn:HE.
  pose proof (shl_align_spec m e E) as Hal.
  destruct (shl_align m e E) as [mz ez]. destruct Hal as [Hez Hmz].
  assert (Lz : Z.log2 (Z.pos mz) = L + (e - ez))
    by (rewrite Hmz, Z.log2_mul_pow2 by lia; lia).
  assert (Hsh : shr_fexp prec emax (Z.pos mz) ez loc_Exact
                = shr {| shr_m := Z.pos mz; shr_r := false; shr_s := false |} ez (E - ez)).
  { unfold shr_fexp. rewrite fexp64. cbn [Zdigits2 shr_record_of_loc].
    rewrite digits2_pos_log2, Lz. f_equal. lia. }
  unfold binary_round_aux. rewrite Hsh.
  pose proof (shr_round (Z.pos mz) ez (E - ez) ltac:(lia) ltac:(lia)) as Hr.
  destruct (shr _ ez (E - ez)) as [mrs e']. destruct Hr as [He' Hr].
  rewrite Hr. replace e' with E by lia. clear Hr He' Hsh mrs e'.
  remember (E - ez) as sh eqn:Hs. remember (rne (Z.pos mz) sh) as m2 eqn:Hm2.
  assert (Hsh : 0 <= sh) by lia.
  assert (Psh := pow2_pos sh Hsh).
  (* the rounded magnitude *)
  assert (Hn : rnd_pos n = m2 * 2 ^ (E + 1074)).
  { unfold rnd_pos, n. rewrite rexp_scaled by lia. rewrite <- HL.
    replace (Z.max 0 (L + (e + 1074) - 52)) with (E + 1074) by lia.
    f_equal. rewrite Hm2.
    replace (Z.pos m * 2 ^ (e + 1074)) with (Z.pos mz * 2 ^ (ez + 1074)).
    2:{ rewrite Hmz, <- Z.mul_assoc, <- Z.pow_add_r by lia. do 2 f_equal. lia. }
    replace (E + 1074) with (sh + (ez + 1074)) by lia.
    apply rne_scale; lia. }
  rewrite Hn.
  (* the rounded mantissa fits *)
  pose proof (Z.log2_spec (Z.pos mz) ltac:(lia)) as [Llo Lhi].
  rewrite Lz in Llo, Lhi.
  destruct (rne_cases (Z.pos mz) sh Hsh) as [Hc Hq]. rewrite <- Hm2 in Hc, Hq.
  assert (Qhi : Z.pos mz / 2 ^ sh < 2 ^ 53).
  { apply Z.div_lt_upper_bound; [lia|].
    rewrite <- Z.pow_add_r by lia.
    eapply Z.lt_le_trans; [exact Lhi|]. apply pow2_le. lia. }
  assert (Qlo : E <> -1074 -> 2 ^ 52 <= Z.pos mz / 2 ^ sh).
  { intros HE'. apply Z.div_le_lower_bound; [lia|].
    rewrite <- Z.pow_add_r by lia.
    eapply Z.le_trans; [|exact Llo]. apply pow2_le. lia. }
  assert (Q0 : E = -1074 -> m2 = Z.pos mz).
  { intros HE'. rewrite Hm2. replace sh with 0 by lia.
    rewrite <- (Z.mul_1_r (Z.pos mz)) at 1. change 1 with (2 ^ 0) at 1.
    apply rne_exact. lia. }
  apply round_tail.
  - lia.
  - destruct (Z.eq_dec E (-1074)) as [HE'|HE'].
    + rewrite (Q0 HE').
      replace sh with 0 in Qhi by lia. rewrite Z.pow_0_r, Z.div_1_r in Qhi. lia.
    + specialize (Qlo HE'). assert (0 < 2 ^ 52) by (apply pow2_pos; lia). lia.
  - destruct (Z.eq_dec E (-1074)) as [HE'|HE']; [now right|].
    left. specialize (Qlo HE'). lia.
Qed.

(** ** Finite binary64 numbers and their exact values *)

Lemma valid_finite s m e :
  valid_binary (S754_finite s m e) = true ->
  -1074 <= e <= 971 /\ Z.log2 (Z.pos m) <= 52 /\
  (e = -1074 \/ Z.log2 (Z.pos m) = 52).
Proof.
  unfold SpecFloat.valid_binary, bounded, canonical_mantissa.
  rewrite fexp64, digits2_pos_log2. change (emax - prec) with 971.
  intros H. apply andb_prop in H as [H1 H2].
  apply Z.eqb_eq in H1. apply Z.leb_le in H2. lia.
Qed.

(** The two shapes of a finite number. *)
Lemma finite_cases x :
  Number_isFinite x = true ->
  (exists s, Prim2SF x = S754_zero s) \/
  (exists s m e, Prim2SF x = S754_finite s m e /\
     -1074 <= e <= 971 /\ Z.log2 (Z.pos m) <= 52 /\
     (e = -1074 \/ Z.log2 (Z.pos m) = 52)).
Proof.
  rewrite is_finite_spec. pose proof (Prim2SF_valid x) as V.
  destruct (Prim2SF x) as [s|s| |s m e]; try discriminate; intros _.
  - left. eauto.
  - right. exists s, m, e. split; trivial. exact (valid_finite s m e V).
Qed.

Lemma val_not_finite x : Number_isFinite x = false -> val x = 0.
Proof.
  rewrite is_finite_spec. unfold val. now destruct (Prim2SF x).
Qed.

Lemma rexp_nonneg n : 0 <= rexp n.
Proof. unfold rexp. lia. Qed.

(** A magnitude with a mantissa of at most 53 bits (or exactly [2^53]) is a
    binary64 magnitude. *)
Lemma fmt_mantissa c j : 0 <= c <= 2 ^ 53 -> 0 <= j -> fmt (c * 2 ^ j).
Proof.
  intros Hc Hj. assert (Pj := pow2_pos j Hj). unfold fmt.
  rewrite Z.abs_eq by nia.
  destruct (Z.eq_dec c 0) as [->|Hc0]; [now rewrite Z.mul_0_l, Z.mod_0_l by (apply Z.pow_nonzero; [lia | apply rexp_nonneg])|].
  destruct (Z.eq_dec c (2 ^ 53)) as [->|Hc1].
  - rewrite <- Z.pow_add_r by lia. unfold rexp. rewrite Z.log2_pow2 by lia.
    replace (Z.max 0 (53 + j - 52)) with (j + 1) by lia.
    rewrite (pow2_split (j + 1) (53 + j)) by lia. apply Z.mod_mul.
    apply Z.pow_nonzero; lia.
  - assert (Hr : rexp (c * 2 ^ j) <= j).
    { unfold rexp. rewrite Z.log2_mul_pow2 by lia.
      assert (Z.log2 c < 53) by (apply Z.log2_lt_pow2; lia). lia. }
    pose proof (rexp_nonneg (c * 2 ^ j)) as Hr0.
    remember (rexp (c * 2 ^ j)) as r eqn:Er.
    rewrite (pow2_split r j) by lia.
    rewrite Z.mul_assoc. apply Z.mod_mul. apply Z.pow_nonzero; lia.
Qed.

Lemma fmt_opp n : fmt (- n) <-> fmt n.
Proof. unfold fmt. now rewrite Z.abs_opp. Qed.

Lemma fmt_0 : fmt 0.
Proof. reflexivity. Qed.

Lemma rnd_pos_fmt n : 0 <= n -> fmt n -> rnd_pos n = n.
Proof.
  intros Hn F. unfold fmt in F. rewrite Z.abs_eq in F by assumption.
  unfold rnd_pos. pose proof (rexp_nonneg n) as Hk.
  remember (rexp n) as k eqn:Ek. assert (P := pow2_pos k Hk).
  assert (E : n = n / 2 ^ k * 2 ^ k)
    by (rewrite Z.mul_comm; apply Z.div_exact; lia).
  rewrite E at 1. rewrite rne_exact by assumption. now rewrite <- E.
Qed.

Lemma rnd_fmt n : fmt n -> rnd n = n.
Proof.
  intros F. unfold rnd. rewrite rnd_pos_fmt; [| lia | unfold fmt in *; now rewrite Z.abs_idemp].
  rewrite Z.mul_comm. apply Z.abs_sgn.
Qed.

Lemma rnd_opp n : rnd (- n) = - rnd n.
Proof. unfold rnd. rewrite Z.sgn_opp, Z.abs_opp. lia. Qed.

Lemma rnd_0 : rnd 0 = 0.
Proof. reflexivity. Qed.

Lemma rnd_pos_nonneg n : 0 <= n -> 0 <= rnd_pos n.
Proof.
  intros Hn. unfold rnd_pos.
  assert (P := pow2_pos _ (rexp_nonneg n)).
  destruct (rne_cases n (rexp n) (rexp_nonneg n)) as [_ Hq].
  assert (0 <= n / 2 ^ rexp n) by (apply Z.div_pos; lia). nia.
Qed.

Lemma abs_rnd n : Z.abs (rnd n) = rnd_pos (Z.abs n).
Proof.
  unfold rnd. pose proof (rnd_pos_nonneg (Z.abs n) (Z.abs_nonneg n)).
  destruct (Z.sgn_spec n) as [[? ->]|[[? ->]|[? ->]]]; try lia.
  subst. reflexivity.
Qed.

(** The exact value of a finite number: a binary64 magnitude below the
    overflow threshold. *)
Lemma val_finite_props x :
  Number_isFinite x = true -> fmt (val x) /\ Z.abs (val x) < top.
Proof.
  intros F. unfold val.
  destruct (finite_cases x F) as [[s ->]|(s & m & e & -> & He & Hl & Hc)].
  - split; [apply fmt_0 | cbn [sf_val Z.abs]; rewrite top_eq; apply pow2_pos; lia].
  - cbn [sf_val].
    assert (Hm : Z.pos m < 2 ^ 53) by (apply Z.log2_lt_pow2; lia).
    split.
    + destruct s; cbn [cond_Zopp]; [apply fmt_opp|]; apply fmt_mantissa; lia.
    + assert (P := pow2_pos (e + 1074) ltac:(lia)).
      replace (Z.abs (cond_Zopp s (Z.pos m * 2 ^ (e + 1074)))) with (Z.pos m * 2 ^ (e + 1074))
        by (destruct s; cbn [cond_Zopp]; lia).
      rewrite top_eq.
      assert (2 ^ (e + 1074) <= 2 ^ 2045) by (apply pow2_le; lia).
      assert (2 ^ 2098 = 2 ^ 53 * 2 ^ 2045) by (rewrite <- Z.pow_add_r by lia; reflexivity).
      nia.
Qed.

Lemma val_opp x : val (- x)%float = - val x.
Proof.
  unfold val. rewrite opp_spec.
  destruct (Prim2SF x) as [s|s| |s m e]; cbn [SFopp sf_val]; try lia.
  destruct s; cbn [negb cond_Zopp]; lia.
Qed.

(** ** Addition and subtraction on exact values *)

Lemma SFsub_add_opp x y : SFsub prec emax x y = SFadd prec emax x (SFopp y).
Proof.
  destruct x as [sx|sx| |sx mx ex], y as [sy|sy| |sy my ey]; cbn [SFopp]; trivial;
    destruct sx, sy; reflexivity.
Qed.

Lemma sub_add_opp (x y : float) : (x - y)%float = (x + - y)%float.
Proof.
  apply Prim2SF_inj. rewrite sub_spec, add_spec, opp_spec. apply SFsub_add_opp.
Qed.

Lemma top_pos : 0 < top.
Proof. rewrite top_eq. apply pow2_pos. lia. Qed.

Lemma binary_normalize_val M e :
  -1074 <= e ->
  let n := M * 2 ^ (e + 1074) in
  let R := binary_normalize prec emax M e false in
  (Z.abs (rnd n) < top -> sf_finite R = true /\ sf_val R = rnd n) /\
  (top <= Z.abs (rnd n) -> sf_finite R = false).
Proof.
  intros He n R. subst n R. assert (P := pow2_pos (e + 1074) ltac:(lia)).
  pose proof top_pos as T.
  destruct M as [|p|p]; cbn [binary_normalize].
  - rewrite Z.mul_0_l, rnd_0. split; [intros _; split; reflexivity | cbn [Z.abs]; lia].
  - rewrite abs_rnd. unfold rnd.
    rewrite Z.abs_eq, Z.sgn_pos, Z.mul_1_l by lia.
    destruct (binary_round_val false p e He) as [Hf Hi]. split.
    + intros H. destruct (Hf H) as (m' & e' & -> & _ & Hv). split; trivial.
    + intros H. now rewrite (Hi H).
  - rewrite abs_rnd. unfold rnd.
    replace (Z.abs (Z.neg p * 2 ^ (e + 1074))) with (Z.pos p * 2 ^ (e + 1074)) by lia.
    rewrite Z.sgn_neg by lia.
    destruct (binary_round_val true p e He) as [Hf Hi]. split.
    + intros H. destruct (Hf H) as (m' & e' & -> & _ & Hv). split; trivial.
      cbn [sf_val cond_Zopp]. lia.
    + intros H. now rewrite (Hi H).
Qed.

(** The sum of two finite numbers is the rounding of the exact sum, and an
    infinity when that rounding reaches [2^1024]. *)
Lemma add_val (x y : float) :
  Number_isFinite x = true -> Number_isFinite y = true ->
  (Z.abs (rnd (val x + val y)) < top ->
     Number_isFinite (x + y)%float = true /\ val (x + y)%float = rnd (val x + val y)) /\
  (top <= Z.abs (rnd (val x + val y)) -> Number_isFinite (x + y)%float = false).
Proof.
  intros Fx Fy.
  destruct (val_finite_props x Fx) as [Mx Bx], (val_finite_props y Fy) as [My By].
  rewrite !is_finite_spec. unfold val in *. rewrite add_spec. unfold SF64add.
  destruct (finite_cases x Fx) as [[sx Ex]|(sx & mx & ex & Ex & Hex & _)];
    destruct (finite_cases y Fy) as [[sy Ey]|(sy & my & ey & Ey & Hey & _)];
    rewrite Ex, Ey in *.
  - cbn [sf_val]. rewrite Z.add_0_r, rnd_0. split.
    + intros _. destruct sx, sy; split; reflexivity.
    + pose proof top_pos. cbn [Z.abs]. lia.
  - cbn [SFadd]. cbn [sf_val] in *. rewrite Z.add_0_l, (rnd_fmt _ My).
    split; [intros _; split; reflexivity | lia].
  - cbn [SFadd]. cbn [sf_val] in *. rewrite Z.add_0_r, (rnd_fmt _ Mx).
    split; [intros _; split; reflexivity | lia].
  - cbn [SFadd].
    pose proof (shl_align_spec mx ex (Z.min ex ey)) as Ax.
    pose proof (shl_align_spec my ey (Z.min ex ey)) as Ay.
    destruct (shl_align mx ex (Z.min ex ey)) as [mx' ex'].
    destruct (shl_align my ey (Z.min ex ey)) as [my' ey'].
    destruct Ax as [Ax1 Ax2], Ay as [Ay1 Ay2]. cbn [fst].
    pose proof (binary_normalize_val
                  (cond_Zopp sx (Z.pos mx') + cond_Zopp sy (Z.pos my'))
                  (Z.min ex ey) ltac:(lia)) as H.
    cbv zeta in H.
    replace ((cond_Zopp sx (Z.pos mx') + cond_Zopp sy (Z.pos my')) * 2 ^ (Z.min ex ey + 1074))
      with (sf_val (S754_finite sx mx ex) + sf_val (S754_finite sy my ey)) in H.
    + exact H.
    + cbn [sf_val]. rewrite Ax2, Ay2.
      rewrite (pow2_split (Z.min ex ey + 1074) (ex + 1074)) by lia.
      rewrite (pow2_split (Z.min ex ey + 1074) (ey + 1074)) by lia.
      replace (ex + 1074 - (Z.min ex ey + 1074)) with (ex - ex') by lia.
      replace (ey + 1074 - (Z.min ex ey + 1074)) with (ey - ey') by lia.
      destruct sx, sy; cbn [cond_Zopp]; ring.
Qed.

Lemma sub_val (x y : float) :
  Number_isFinite x = true -> Number_isFinite y = true ->
  (Z.abs (rnd (val x - val y)) < top ->
     Number_isFinite (x - y)%float = true /\ val (x - y)%float = rnd (val x - val y)) /\
  (top <= Z.abs (rnd (val x - val y)) -> Number_isFinite (x - y)%float = false).
Proof.
  intros Fx Fy. rewrite sub_add_opp.
  replace (val x - val y) with (val x + val (- y)%float) by (rewrite val_opp; lia).
  apply add_val; trivial. now rewrite opp_finite.
Qed.

(** ** Comparisons on exact values *)

Lemma compare_val (x y : float) :
  Number_isFinite x = true -> Number_isFinite y = true ->
  SFcompare (Prim2SF x) (Prim2SF y) = Some (val x ?= val y).
Proof.
  intros Fx Fy. unfold val.
  destruct (finite_cases x Fx) as [[sx ->]|(sx & mx & ex & -> & Hex & Lx & Cx)];
    destruct (finite_cases y Fy) as [[sy ->]|(sy & my & ey & -> & Hey & Ly & Cy)];
    cbn [SFcompare sf_val].
  - reflexivity.
  - assert (P := pow2_pos (ey + 1074) ltac:(lia)).
    f_equal. symmetry. destruct sy; cbn [cond_Zopp].
    + apply Z.compare_gt_iff. nia.
    + apply Z.compare_lt_iff. nia.
  - assert (P := pow2_pos (ex + 1074) ltac:(lia)).
    f_equal. symmetry. destruct sx; cbn [cond_Zopp].
    + apply Z.compare_lt_iff. nia.
    + apply Z.compare_gt_iff. nia.
  - assert (Px := pow2_pos (ex + 1074) ltac:(lia)).
    assert (Py := pow2_pos (ey + 1074) ltac:(lia)).
    assert (Mx : Z.pos mx < 2 ^ 53) by (apply Z.log2_lt_pow2; lia).
    assert (My : Z.pos my < 2 ^ 53) by (apply Z.log2_lt_pow2; lia).
    assert (Nx : ex <> -1074 -> 2 ^ 52 <= Z.pos mx)
      by (intros; apply Z.log2_le_pow2; lia).
    assert (Ny : ey <> -1074 -> 2 ^ 52 <= Z.pos my)
      by (intros; apply Z.log2_le_pow2; lia).
    (* magnitudes are ordered by exponent first *)
    assert (Lt_e : forall m1 e1 m2 e2,
               m1 < 2 ^ 53 -> 2 ^ 52 <= m2 -> -1074 <= e1 < e2 -> 0 < m1 ->
               m1 * 2 ^ (e1 + 1074) < m2 * 2 ^ (e2 + 1074)).
    { intros m1 e1 m2 e2 H1 H2 H3 H4.
      assert (Q1 := pow2_pos (e1 + 1074) ltac:(lia)).
      assert (Q2 : 2 ^ (e1 + 1075) <= 2 ^ (e2 + 1074)) by (apply pow2_le; lia).
      replace (2 ^ (e1 + 1075)) with (2 * 2 ^ (e1 + 1074)) in Q2
        by (rewrite <- Z.pow_succ_r by lia; f_equal; lia).
      change (2 ^ 53) with (2 * 2 ^ 52) in H1.
      assert (0 < 2 ^ 52) by (apply pow2_pos; lia). nia. }
    change (Pos.compare_cont Eq mx my) with (Z.pos mx ?= Z.pos my).
    f_equal. symmetry.
    destruct sx, sy; cbn [cond_Zopp].
    + destruct (Z.compare_spec ex ey) as [->|Hl|Hg].
      * destruct (Z.compare_spec (Z.pos mx) (Z.pos my)) as [E|E|E]; cbn [CompOpp];
          [apply Z.compare_eq_iff | apply Z.compare_gt_iff | apply Z.compare_lt_iff]; nia.
      * apply Z.compare_gt_iff.
        specialize (Lt_e (Z.pos mx) ex (Z.pos my) ey). lia.
      * apply Z.compare_lt_iff.
        specialize (Lt_e (Z.pos my) ey (Z.pos mx) ex). lia.
    + apply Z.compare_lt_iff. nia.
    + apply Z.compare_gt_iff. nia.
    + destruct (Z.compare_spec ex ey) as [->|Hl|Hg].
      * destruct (Z.compare_spec (Z.pos mx) (Z.pos my)) as [E|E|E];
          [apply Z.compare_eq_iff | apply Z.compare_lt_iff | apply Z.compare_gt_iff]; nia.
      * apply Z.compare_lt_iff.
        specialize (Lt_e (Z.pos mx) ex (Z.pos my) ey). lia.
      * apply Z.compare_gt_iff.
        specialize (Lt_e (Z.pos my) ey (Z.pos mx) ex). lia.
Qed.

Lemma ltb_val (x y : float) :
  Number_isFinite x = true -> Number_isFinite y = true ->
  (x <? y)%float = (val x <? val y).
Proof.
  intros Fx Fy. rewrite ltb_spec. unfold SFltb. rewrite compare_val by assumption.
  unfold Z.ltb. now destruct (val x ?= val y).
Qed.

Lemma leb_val (x y : float) :
  Number_isFinite x = true -> Number_isFinite y = true ->
  (x <=? y)%float = (val x <=? val y).
Proof.
  intros Fx Fy. rewrite leb_spec. unfold SFleb. rewrite compare_val by assumption.
  unfold Z.leb. now destruct (val x ?= val y).
Qed.

Lemma eqb_val (x y : float) :
  Number_isFinite x = true -> Number_isFinite y = true ->
  (x =? y)%float = (val x =? val y).
Proof.
  intros Fx Fy. rewrite eqb_spec. unfold SFeqb. rewrite compare_val by assumption.
  destruct (Z.compare_spec (val x) (val y)) as [E|E|E]; symmetry;
    [apply Z.eqb_eq | apply Z.eqb_neq | apply Z.eqb_neq]; lia.
Qed.

(** ** Order properties of the rounding *)

Lemma rne_le n k a : 0 <= k -> n <= a * 2 ^ k -> rne n k <= a.
Proof.
  intros Hk H. assert (P := pow2_pos k Hk).
  pose proof (Z.div_mod n (2 ^ k) ltac:(lia)) as D.
  pose proof (Z.mod_pos_bound n (2 ^ k) P) as B.
  destruct (rne_cases n k Hk) as [[->|[-> R]] _]; nia.
Qed.

Lemma rne_ge n k a : 0 <= k -> a * 2 ^ k <= n -> a <= rne n k.
Proof.
  intros Hk H. assert (P := pow2_pos k Hk).
  destruct (rne_cases n k Hk) as [_ Q].
  assert (a <= n / 2 ^ k) by (apply Z.div_le_lower_bound; lia). lia.
Qed.

Lemma rexp_mono a b : a <= b -> rexp a <= rexp b.
Proof. intros H. unfold rexp. pose proof (Z.log2_le_mono a b H). lia. Qed.

Lemma pow2_divide a b : 0 <= a <= b -> (2 ^ a | 2 ^ b).
Proof. intros H. exists (2 ^ (b - a)). now apply pow2_split. Qed.

Lemma fmt_divide n : 0 <= n -> (fmt n <-> (2 ^ rexp n | n)).
Proof.
  intros Hn. unfold fmt. rewrite Z.abs_eq by assumption.
  apply Z.mod_divide. apply Z.pow_nonzero; [lia | apply rexp_nonneg].
Qed.

Lemma rnd_pos_divide n : (2 ^ rexp n | rnd_pos n).
Proof. unfold rnd_pos. apply Z.divide_factor_r. Qed.

(** A multiple of [2^j] that needs at most 53 bits above [j]. *)
Lemma divide_fmt w j :
  0 <= j -> 0 <= w <= 2 ^ 53 * 2 ^ j -> (2 ^ j | w) -> fmt w.
Proof.
  intros Hj Hw [c ->]. assert (P := pow2_pos j Hj).
  apply fmt_mantissa; trivial. nia.
Qed.

(** The mantissa of a binary64 magnitude has at most 53 bits. *)
Lemma below_grid n : 0 <= n -> n < 2 ^ 53 * 2 ^ rexp n.
Proof.
  intros Hn. destruct (Z.eq_dec n 0) as [->|Hn0].
  - assert (0 < 2 ^ 53) by (apply pow2_pos; lia).
    assert (0 < 2 ^ rexp 0) by (apply pow2_pos, rexp_nonneg). nia.
  - pose proof (Z.log2_spec n ltac:(lia)) as [_ Hhi].
    rewrite <- Z.pow_add_r by (try apply rexp_nonneg; lia).
    eapply Z.lt_le_trans; [exact Hhi|]. apply pow2_le.
    pose proof (Z.log2_nonneg n). unfold rexp. lia.
Qed.

(** Rounding never crosses a binary64 magnitude. *)
Lemma rnd_pos_le_fmt n r : 0 <= n <= r -> fmt r -> rnd_pos n <= r.
Proof.
  intros Hn F. apply fmt_divide in F; [|lia].
  pose proof (rexp_nonneg n) as Kn. pose proof (rexp_mono n r ltac:(lia)) as Km.
  assert (D : (2 ^ rexp n | r))
    by (apply Z.divide_trans with (2 ^ rexp r); [apply pow2_divide; lia | exact F]).
  destruct D as [a Ha]. unfold rnd_pos.
  assert (P := pow2_pos _ Kn).
  assert (rne n (rexp n) <= a) by (apply rne_le; lia). nia.
Qed.

Lemma rnd_pos_ge_pow2 n : 0 < n -> 2 ^ Z.log2 n <= rnd_pos n.
Proof.
  intros Hn. pose proof (Z.log2_spec n Hn) as [Hlo _].
  pose proof (Z.log2_nonneg n) as L0. pose proof (rexp_nonneg n) as Kn.
  assert (Kl : rexp n <= Z.log2 n) by (unfold rexp; lia).
  unfold rnd_pos. assert (P := pow2_pos _ Kn).
  assert (2 ^ (Z.log2 n - rexp n) <= rne n (rexp n)).
  { apply rne_ge; trivial. rewrite <- pow2_split by lia. assumption. }
  rewrite (pow2_split (rexp n) (Z.log2 n)) by lia. nia.
Qed.

Lemma rnd_pos_ge_fmt n r : 0 <= r <= n -> fmt r -> r <= rnd_pos n.
Proof.
  intros Hr F. destruct (Z.eq_dec r 0) as [->|Hr0].
  { apply rnd_pos_nonneg. lia. }
  apply fmt_divide in F; [|lia].
  pose proof (rexp_nonneg n) as Kn. pose proof (rexp_nonneg r) as Kr.
  pose proof (rexp_mono r n ltac:(lia)) as Km.
  destruct (Z.eq_dec (rexp r) (rexp n)) as [E|E].
  - rewrite E in F. destruct F as [a Ha]. unfold rnd_pos.
    assert (P := pow2_pos _ Kn).
    assert (a <= rne n (rexp n)) by (apply rne_ge; lia). nia.
  - assert (Z.log2 r < Z.log2 n) by (unfold rexp in *; lia).
    pose proof (Z.log2_spec r ltac:(lia)) as [_ Hhi].
    assert (2 ^ Z.succ (Z.log2 r) <= 2 ^ Z.log2 n)
      by (apply pow2_le; pose proof (Z.log2_nonneg r); lia).
    pose proof (rnd_pos_ge_pow2 n ltac:(lia)). lia.
Qed.

Lemma rnd_pos_is_fmt n : 0 <= n -> fmt (rnd_pos n).
Proof.
  intros Hn. pose proof (rexp_nonneg n) as Kn.
  unfold rnd_pos. apply fmt_mantissa; trivial. split.
  - destruct (rne_cases n (rexp n) Kn) as [_ Q].
    assert (0 <= n / 2 ^ rexp n) by (apply Z.div_pos; [lia | apply pow2_pos; lia]). lia.
  - apply rne_le; trivial. pose proof (below_grid n Hn). lia.
Qed.

Lemma rne_mono a b k : 0 <= k -> a <= b -> rne a k <= rne b k.
Proof.
  intros Hk H. assert (P := pow2_pos k Hk).
  pose proof (Z.div_le_mono a b (2 ^ k) P H) as Q.
  destruct (Z.eq_dec (a / 2 ^ k) (b / 2 ^ k)) as [E|E].
  - pose proof (Z.div_mod a (2 ^ k) ltac:(lia)) as Da.
    pose proof (Z.div_mod b (2 ^ k) ltac:(lia)) as Db.
    unfold rne. rewrite E in *.
    destruct (Z.compare_spec (2 * (a mod 2 ^ k)) (2 ^ k));
      destruct (Z.compare_spec (2 * (b mod 2 ^ k)) (2 ^ k));
      destruct (Z.even (b / 2 ^ k)); lia.
  - destruct (rne_cases a k Hk) as [[Ha|[Ha _]] _];
      destruct (rne_cases b k Hk) as [_ Hb]; lia.
Qed.

Lemma pow2_fmt j : 0 <= j -> fmt (2 ^ j).
Proof.
  intros Hj. rewrite <- (Z.mul_1_l (2 ^ j)). apply fmt_mantissa; trivial.
  assert (0 < 2 ^ 53) by (apply pow2_pos; lia). lia.
Qed.

Lemma rnd_pos_mono a b : 0 <= a <= b -> rnd_pos a <= rnd_pos b.
Proof.
  intros H. pose proof (rexp_mono a b ltac:(lia)) as Km.
  pose proof (rexp_nonneg a) as Ka.
  destruct (Z.eq_dec (rexp a) (rexp b)) as [E|E].
  - unfold rnd_pos. rewrite E. assert (P := pow2_pos (rexp b) ltac:(lia)).
    pose proof (rne_mono a b (rexp b) ltac:(lia) ltac:(lia)). nia.
  - destruct (Z.eq_dec a 0) as [->|Ha0].
    { change (rnd_pos 0) with 0. apply rnd_pos_nonneg. lia. }
    assert (Z.log2 a < Z.log2 b) by (unfold rexp in *; lia).
    pose proof (Z.log2_spec a ltac:(lia)) as [_ Hhi].
    pose proof (Z.log2_nonneg a) as La.
    assert (rnd_pos a <= 2 ^ Z.succ (Z.log2 a))
      by (apply rnd_pos_le_fmt; [lia | apply pow2_fmt; lia]).
    assert (2 ^ Z.succ (Z.log2 a) <= 2 ^ Z.log2 b) by (apply pow2_le; lia).
    pose proof (rnd_pos_ge_pow2 b ltac:(lia)). lia.
Qed.

Lemma rnd_mono a b : a <= b -> rnd a <= rnd b.
Proof.
  intros H. unfold rnd.
  pose proof (rnd_pos_nonneg (Z.abs a) (Z.abs_nonneg a)).
  pose proof (rnd_pos_nonneg (Z.abs b) (Z.abs_nonneg b)).
  destruct (Z.sgn_spec a) as [[? ->]|[[? ->]|[? ->]]];
    destruct (Z.sgn_spec b) as [[? ->]|[[? ->]|[? ->]]]; try lia.
  - pose proof (rnd_pos_mono (Z.abs a) (Z.abs b)). lia.
  - pose proof (rnd_pos_mono (Z.abs b) (Z.abs a)). lia.
Qed.

Lemma rnd_is_fmt n : fmt (rnd n).
Proof.
  unfold fmt. rewrite abs_rnd. pose proof (rnd_pos_is_fmt (Z.abs n) (Z.abs_nonneg n)) as F.
  unfold fmt in F. now rewrite Z.abs_eq in F by (apply rnd_pos_nonneg, Z.abs_nonneg).
Qed.

(** Rounding stays on the same side of every binary64 number. *)
Lemma rnd_le_fmt n r : n <= r -> fmt r -> rnd n <= r.
Proof. intros H F. rewrite <- (rnd_fmt r F). now apply rnd_mono. Qed.

Lemma rnd_ge_fmt n r : r <= n -> fmt r -> r <= rnd n.
Proof. intros H F. rewrite <- (rnd_fmt r F). now apply rnd_mono. Qed.

Lemma rnd_nonneg n : 0 <= n -> rnd n = rnd_pos n.
Proof.
  intros H. unfold rnd. rewrite Z.abs_eq by assumption.
  destruct (Z.eq_dec n 0) as [->|]; [reflexivity|].
  rewrite Z.sgn_pos by lia. lia.
Qed.

(** ** The rounding error of a sum is a binary64 number

    For binary64 magnitudes [a <= o], what rounding takes from [o] when it
    computes [o - a] is again a binary64 magnitude (Dekker's exactness of the
    correction term).  It makes a second normalisation pass exact. *)

Lemma rnd_pos_gt n : 0 <= n -> n - 2 ^ rexp n < rnd_pos n.
Proof.
  intros Hn. pose proof (rexp_nonneg n) as Kn. assert (P := pow2_pos _ Kn).
  unfold rnd_pos. destruct (rne_cases n (rexp n) Kn) as [_ Q].
  pose proof (Z.div_mod n (2 ^ rexp n) ltac:(lia)) as D.
  pose proof (Z.mod_pos_bound n (2 ^ rexp n) P) as B. nia.
Qed.

Lemma fast_two_sum a o :
  fmt a -> fmt o -> 0 <= a <= o -> fmt (o - rnd (o - a)).
Proof.
  intros Fa Fo H. rewrite rnd_nonneg by lia.
  pose proof (rnd_pos_le_fmt (o - a) o ltac:(lia) Fo) as Yo.
  pose proof (rnd_pos_nonneg (o - a) ltac:(lia)) as Y0.
  pose proof (rexp_nonneg a) as Ka. pose proof (rexp_nonneg (o - a)) as Kn.
  pose proof (rexp_mono a o ltac:(lia)) as Kao.
  pose proof (rexp_mono (o - a) o ltac:(lia)) as Kno.
  pose proof (proj1 (fmt_divide a ltac:(lia)) Fa) as Da.
  pose proof (proj1 (fmt_divide o ltac:(lia)) Fo) as Do.
  assert (Doa : (2 ^ rexp a | o))
    by (apply Z.divide_trans with (2 ^ rexp o); [apply pow2_divide; lia | exact Do]).
  assert (Dn : (2 ^ rexp a | o - a)) by (now apply Z.divide_sub_r).
  destruct (Z.le_gt_cases (rexp (o - a)) (rexp a)) as [Hk|Hk].
  - (* the difference is computed exactly *)
    assert (Fn : fmt (o - a)).
    { apply fmt_divide; [lia|].
      apply Z.divide_trans with (2 ^ rexp a); [apply pow2_divide; lia | exact Dn]. }
    rewrite (rnd_pos_fmt (o - a) ltac:(lia) Fn). now replace (o - (o - a)) with a by lia.
  - assert (Dy : (2 ^ rexp a | rnd_pos (o - a))).
    { apply Z.divide_trans with (2 ^ rexp (o - a));
        [apply pow2_divide; lia | apply rnd_pos_divide]. }
    pose proof (below_grid a ltac:(lia)) as Ba.
    assert (P53 : 0 < 2 ^ 53) by (apply pow2_pos; lia).
    assert (Pa := pow2_pos _ Ka).
    destruct (Z.le_gt_cases (rexp o) (rexp a + 53)) as [Hs|Hs].
    + apply divide_fmt with (j := rexp a); trivial; [|now apply Z.divide_sub_r].
      split; [lia|].
      destruct (Z.le_gt_cases o (2 ^ 53 * 2 ^ rexp a)) as [Hsmall|Hbig]; [lia|].
      assert (Fr : fmt (o - 2 ^ 53 * 2 ^ rexp a)).
      { apply divide_fmt with (j := rexp o).
        - lia.
        - pose proof (below_grid o ltac:(lia)). lia.
        - apply Z.divide_sub_r; trivial.
          rewrite <- Z.pow_add_r by lia. apply pow2_divide. lia. }
      pose proof (rnd_pos_ge_fmt (o - a) (o - 2 ^ 53 * 2 ^ rexp a) ltac:(lia) Fr). lia.
    + (* [a] is below half a unit in the last place of [o] *)
      assert (Ko : rexp o = Z.log2 o - 52) by (unfold rexp in *; lia).
      assert (Opos : 0 < o).
      { destruct (Z.eq_dec o 0) as [->|]; [|lia]. unfold rexp in Hs. simpl in Hs. lia. }
      pose proof (Z.log2_spec o Opos) as [Olo _].
      replace (Z.log2 o) with (52 + rexp o) in Olo by lia.
      assert (Ah : 2 ^ 53 * 2 ^ rexp a <= 2 ^ (rexp o - 1))
        by (rewrite <- Z.pow_add_r by lia; apply pow2_le; lia).
      assert (Ph := pow2_pos (rexp o - 1) ltac:(lia)).
      assert (E1 : 2 ^ rexp o = 2 * 2 ^ (rexp o - 1))
        by (rewrite <- Z.pow_succ_r by lia; f_equal; lia).
      assert (E2 : 2 ^ (52 + rexp o) = 2 ^ 53 * 2 ^ (rexp o - 1))
        by (rewrite <- Z.pow_add_r by lia; f_equal; lia).
      assert (E3 : 2 ^ (51 + rexp o) = 2 ^ 52 * 2 ^ (rexp o - 1))
        by (rewrite <- Z.pow_add_r by lia; f_equal; lia).
      assert (P52 : 2 ^ 53 = 2 * 2 ^ 52) by reflexivity.
      assert (P52' : 0 < 2 ^ 52) by (apply pow2_pos; lia).
      assert (Ln : 51 + rexp o <= Z.log2 (o - a)) by (apply Z.log2_le_pow2; nia).
      assert (Knlo : rexp o - 1 <= rexp (o - a)) by (unfold rexp; lia).
      pose proof (rnd_pos_gt (o - a) ltac:(lia)) as Ygt.
      assert (2 ^ rexp (o - a) <= 2 ^ rexp o) by (apply pow2_le; lia).
      apply divide_fmt with (j := rexp o - 1); [lia | nia |].
      apply Z.divide_sub_r.
      * apply Z.divide_trans with (2 ^ rexp o); [apply pow2_divide; lia | exact Do].
      * apply Z.divide_trans with (2 ^ rexp (o - a));
          [apply pow2_divide; lia | apply rnd_pos_divide].
Qed.

(** ** A finite number is determined by its value, the sign of zero apart *)

Lemma val_inj (x y : float) :
  Number_isFinite x = true -> Number_isFinite y = true ->
  val x = val y -> val x <> 0 -> x = y.
Proof.
  intros Fx Fy E N. pose proof (compare_val x y Fx Fy) as C.
  rewrite E, Z.compare_refl in C. rewrite E in N. unfold val in *.
  destruct (finite_cases x Fx) as [[sx Ex]|(sx & mx & ex & Ex & _)];
    destruct (finite_cases y Fy) as [[sy Ey]|(sy & my & ey & Ey & _)];
    rewrite ?Ex, ?Ey in *; cbn [sf_val] in *; try lia.
  apply Prim2SF_inj. rewrite Ex, Ey. cbn [SFcompare] in C.
  change (Pos.compare_cont Eq mx my) with (Pos.compare mx my) in C.
  destruct sx, sy; try discriminate;
    destruct (Z.compare_spec ex ey); try discriminate;
    destruct (Pos.compare_spec mx my); try discriminate; congruence.
Qed.

Lemma val_zero_cases (x : float) :
  Number_isFinite x = true -> val x = 0 -> x = zero \/ x = neg_zero.
Proof.
  intros Fx E. unfold val in E.
  destruct (finite_cases x Fx) as [[sx Ex]|(sx & mx & ex & Ex & He & _)].
  - destruct sx; [right | left]; apply Prim2SF_inj; rewrite Ex; reflexivity.
  - rewrite Ex in E. cbn [sf_val] in E.
    assert (P := pow2_pos (ex + 1074) ltac:(lia)). destruct sx; cbn [cond_Zopp] in E; nia.
Qed.

(** ** Finite results of one operation *)

Lemma add_val_finite (x y : float) :
  Number_isFinite x = true -> Number_isFinite y = true ->
  Number_isFinite (x + y)%float = true ->
  val (x + y)%float = rnd (val x + val y).
Proof.
  intros Fx Fy F. destruct (add_val x y Fx Fy) as [Hf Hi].
  destruct (Z.lt_ge_cases (Z.abs (rnd (val x + val y))) top) as [L|G].
  - now apply Hf.
  - rewrite (Hi G) in F. discriminate.
Qed.

Lemma sub_val_finite (x y : float) :
  Number_isFinite x = true -> Number_isFinite y = true ->
  Number_isFinite (x - y)%float = true ->
  val (x - y)%float = rnd (val x - val y).
Proof.
  intros Fx Fy F. destruct (sub_val x y Fx Fy) as [Hf Hi].
  destruct (Z.lt_ge_cases (Z.abs (rnd (val x - val y))) top) as [L|G].
  - now apply Hf.
  - rewrite (Hi G) in F. discriminate.
Qed.

(** A sum that rounds between two finite numbers is finite. *)
Lemma add_val_between (x y lo hi : float) :
  Number_isFinite x = true -> Number_isFinite y = true ->
  Number_isFinite lo = true -> Number_isFinite hi = true ->
  val lo <= val x + val y <= val hi ->
  Number_isFinite (x + y)%float = true /\
  val (x + y)%float = rnd (val x + val y) /\
  val lo <= val (x + y)%float <= val hi.
Proof.
  intros Fx Fy Fl Fh B.
  destruct (val_finite_props lo Fl) as [Ml Bl], (val_finite_props hi Fh) as [Mh Bh].
  pose proof (rnd_ge_fmt _ _ (proj1 B) Ml) as R1.
  pose proof (rnd_le_fmt _ _ (proj2 B) Mh) as R2.
  destruct (add_val x y Fx Fy) as [Hf _].
  destruct Hf as [F V]; [lia|]. rewrite V. auto.
Qed.

Lemma sub_val_between (x y lo hi : float) :
  Number_isFinite x = true -> Number_isFinite y = true ->
  Number_isFinite lo = true -> Number_isFinite hi = true ->
  val lo <= val x - val y <= val hi ->
  Number_isFinite (x - y)%float = true /\
  val (x - y)%float = rnd (val x - val y) /\
  val lo <= val (x - y)%float <= val hi.
Proof.
  intros Fx Fy Fl Fh B. rewrite sub_add_opp.
  replace (val x - val y) with (val x + val (- y)%float) in * by (rewrite val_opp; lia).
  apply add_val_between; trivial. now rewrite opp_finite.
Qed.

Lemma val_zero : val zero = 0.
Proof. reflexivity. Qed.

Lemma is_finite_zero : Number_isFinite zero = true.
Proof. reflexivity. Qed.

(** Finiteness facts used to discharge side conditions. *)
Create HintDb finite.
#[local] Hint Resolve peak_of_finite is_finite_zero : finite.

(** ** The scans find the extrema *)

Lemma peak_step_finite p v :
  Number_isFinite p = true ->
  Number_isFinite (peak_step p v) = true /\
  val p <= val (peak_step p v) /\
  (Number_isFinite v = true -> val v <= val (peak_step p v)).
Proof.
  intros Fp. unfold peak_step. destruct (Number_isFinite v) eqn:Fv; cbn [negb].
  - rewrite ltb_val by assumption. destruct (Z.ltb_spec (val p) (val v)); repeat split; auto; try lia.
  - repeat split; auto; try lia; try discriminate.
Qed.

Lemma fold_peak_finite l p :
  Number_isFinite p = true ->
  Number_isFinite (fold_left peak_step l p) = true /\
  val p <= val (fold_left peak_step l p) /\
  forall v, In v l -> Number_isFinite v = true -> val v <= val (fold_left peak_step l p).
Proof.
  revert p. induction l as [|x tl IH]; intros p Fp; cbn [fold_left].
  - repeat split; auto; try lia; try contradiction.
  - destruct (peak_step_finite p x Fp) as (F1 & L1 & V1).
    destruct (IH _ F1) as (F2 & L2 & V2). repeat split; auto; try lia.
    intros v [->|Hv] Fv; [specialize (V1 Fv); lia | auto].
Qed.

Lemma fold_peak_max l v :
  In v l -> Number_isFinite v = true ->
  val v <= val (fold_left peak_step l neg_infinity).
Proof.
  induction l as [|x tl IH]; intros Hv Fv; [contradiction|]. cbn [fold_left].
  destruct (Number_isFinite x) eqn:Fx.
  - rewrite peak_step_first by assumption.
    destruct (fold_peak_finite tl x Fx) as (_ & L & V).
    destruct Hv as [->|Hv]; auto.
  - rewrite peak_step_keeps by assumption.
    destruct Hv as [->|Hv]; [congruence | auto].
Qed.

Lemma min_step_finite p v :
  Number_isFinite p = true ->
  Number_isFinite (min_step p v) = true /\
  val (min_step p v) <= val p /\
  (Number_isFinite v = true -> val (min_step p v) <= val v).
Proof.
  intros Fp. unfold min_step. destruct (Number_isFinite v) eqn:Fv; cbn [andb].
  - rewrite ltb_val by assumption. destruct (Z.ltb_spec (val v) (val p)); repeat split; auto; try lia.
  - repeat split; auto; try lia; try discriminate.
Qed.

Lemma fold_min_finite l p :
  Number_isFinite p = true ->
  Number_isFinite (fold_left min_step l p) = true /\
  val (fold_left min_step l p) <= val p /\
  forall v, In v l -> Number_isFinite v = true -> val (fold_left min_step l p) <= val v.
Proof.
  revert p. induction l as [|x tl IH]; intros p Fp; cbn [fold_left].
  - repeat split; auto; try lia; try contradiction.
  - destruct (min_step_finite p x Fp) as (F1 & L1 & V1).
    destruct (IH _ F1) as (F2 & L2 & V2). repeat split; auto; try lia.
    intros v [->|Hv] Fv; [specialize (V1 Fv); lia | auto].
Qed.

Lemma fold_min_min l v :
  In v l -> Number_isFinite v = true ->
  val (fold_left min_step l infinity) <= val v.
Proof.
  induction l as [|x tl IH]; intros Hv Fv; [contradiction|]. cbn [fold_left].
  destruct (Number_isFinite x) eqn:Fx.
  - rewrite min_step_first by assumption.
    destruct (fold_min_finite tl x Fx) as (_ & L & V).
    destruct Hv as [->|Hv]; auto.
  - rewrite min_step_keeps by assumption.
    destruct Hv as [->|Hv]; [congruence | auto].
Qed.

(** ** The quantities of one call, for a batch with a finite sample *)

Lemma peak_of_max series v :
  In v (samples series) -> Number_isFinite v = true ->
  val v <= val (peak_of series).
Proof.
  intros Hv Fv.
  assert (H : has_finite series = true) by (apply has_finite_spec; eauto).
  destruct (peak_of_hits series H) as (-> & _). rewrite scan_peak_fold.
  now apply fold_peak_max.
Qed.

(** A centred value that is finite is the rounded difference, and is not
    positive. *)
Lemma centred_val series v :
  In v (samples series) -> Number_isFinite v = true ->
  Number_isFinite (v - peak_of series)%float = true ->
  val (v - peak_of series)%float = rnd (val v - val (peak_of series)) /\
  val (v - peak_of series)%float <= 0.
Proof.
  intros Hv Fv Fc. pose proof (peak_of_max series v Hv Fv) as M.
  rewrite sub_val_finite by auto with finite. split; trivial.
  change 0 with (rnd 0). apply rnd_mono. lia.
Qed.

Lemma min_of_min series v :
  In v (samples series) -> Number_isFinite v = true ->
  Number_isFinite (v - peak_of series)%float = true ->
  val (min_of series) <= val (v - peak_of series)%float.
Proof.
  intros Hv Fv Fc. rewrite min_of_fold.
  apply fold_min_min; trivial.
  apply in_map_iff. exists v. split; trivial. unfold normalizedValue. now rewrite Fv.
Qed.

Lemma min_of_nonpos series : has_finite series = true -> val (min_of series) <= 0.
Proof.
  intros H. destruct (min_of_hits series H) as (Fm & v & Iv & Fv & Em).
  rewrite Em in *. now apply centred_val.
Qed.

Lemma offset_of_opp series :
  has_finite series = true -> offset_of series = (- min_of series)%float.
Proof.
  intros H. destruct (min_of_hits series H) as (Fm & _).
  unfold offset_of. now rewrite Fm.
Qed.

Lemma offset_of_finite series : Number_isFinite (offset_of series) = true.
Proof.
  unfold offset_of. destruct (Number_isFinite (min_of series)) eqn:F; trivial.
  now rewrite opp_finite.
Qed.

#[local] Hint Resolve offset_of_finite : finite.

Lemma val_offset_of series :
  has_finite series = true -> val (offset_of series) = - val (min_of series).
Proof. intros H. now rewrite offset_of_opp, val_opp. Qed.

(** ** The second stage never leaves the finite range *)

Lemma neg_zero_neq_zero : neg_zero <> zero.
Proof.
  intros H. apply (f_equal Prim2SF) in H. discriminate.
Qed.

Lemma val_neg_zero : val neg_zero = 0.
Proof. reflexivity. Qed.

(** On a finite [x >= 0] the clamp [Math.max(0, x)] keeps the value; it only
    turns [-0] into [+0]. *)
Lemma Math_max_zero_val x :
  Number_isFinite x = true -> 0 <= val x ->
  Number_isFinite (Math_max zero x) = true /\
  val (Math_max zero x) = val x /\
  Math_max zero x <> neg_zero /\
  (Math_max zero x =? x)%float = true.
Proof.
  intros F N. rewrite (Math_max_zero _ (is_finite_not_nan _ F)).
  rewrite ltb_val by (trivial; reflexivity). rewrite val_zero.
  destruct (Z.ltb_spec 0 (val x)) as [L|L].
  - repeat split; trivial.
    + intros ->. rewrite val_neg_zero in L. lia.
    + rewrite eqb_val by assumption. apply Z.eqb_refl.
  - repeat split; trivial.
    + rewrite val_zero. lia.
    + intros H. symmetry in H. now apply neg_zero_neq_zero.
    + rewrite eqb_val by (trivial; reflexivity). rewrite val_zero. apply Z.eqb_eq. lia.
Qed.

(** The shift of a finite centred value [c], [min <= c <= 0]. *)
Lemma shifted_val series c :
  has_finite series = true -> Number_isFinite c = true ->
  val (min_of series) <= val c <= 0 ->
  let y := shifted_value (offset_of series) c in
  Number_isFinite y = true /\
  val y = rnd (val c - val (min_of series)) /\
  0 <= val y <= val (offset_of series) /\
  y <> neg_zero /\
  (y =? c + offset_of series)%float = true.
Proof.
  intros H Fc B y. subst y. unfold shifted_value. rewrite Fc.
  pose proof (val_offset_of series H) as Vo.
  destruct (add_val_between c (offset_of series) zero (offset_of series))
    as (Fs & Vs & Bs); auto with finite.
  { rewrite val_zero. lia. }
  rewrite val_zero in Bs.
  destruct (Math_max_zero_val _ Fs (proj1 Bs)) as (Fm & Vm & Nm & Em).
  repeat split; trivial; rewrite Vm; try lia.
  rewrite Vs. f_equal. lia.
Qed.

(** What one call does to a finite sample whose centred value is finite. *)
Lemma pipeline_val series v :
  In v (samples series) -> Number_isFinite v = true ->
  Number_isFinite (v - peak_of series)%float = true ->
  let y := pipeline (peak_of series) (offset_of series) v in
  Number_isFinite y = true /\
  val y = rnd (rnd (val v - val (peak_of series)) - val (min_of series)) /\
  0 <= val y <= val (offset_of series) /\
  y <> neg_zero /\
  (y =? (v - peak_of series) + offset_of series)%float = true.
Proof.
  intros Hv Fv Fc y. subst y.
  assert (H : has_finite series = true) by (apply has_finite_spec; eauto).
  destruct (centred_val series v Hv Fv Fc) as [Vc Nc].
  pose proof (min_of_min series v Hv Fv Fc) as Mc.
  unfold pipeline, normalizedValue. rewrite Fv.
  destruct (shifted_val series _ H Fc (conj Mc Nc)) as (F & V & B & N & E).
  repeat split; trivial; try lia. now rewrite V, Vc.
Qed.

Lemma pipeline_overflow peak offset v :
  Number_isFinite v = true -> Number_isFinite (v - peak)%float = false ->
  pipeline peak offset v = nan.
Proof.
  intros Fv Fc. unfold pipeline, normalizedValue, shifted_value. now rewrite Fv, Fc.
Qed.

(** A result is finite or NaN. *)
Lemma pipeline_finite_or_nan series v :
  In v (samples series) ->
  let y := pipeline (peak_of series) (offset_of series) v in
  Number_isFinite y = Number_isFinite v && Number_isFinite (v - peak_of series)%float /\
  (Number_isFinite y = false -> y = nan).
Proof.
  intros Hv y. subst y. destruct (Number_isFinite v) eqn:Fv; cbn [andb].
  - destruct (Number_isFinite (v - peak_of series)%float) eqn:Fc.
    + destruct (pipeline_val series v Hv Fv Fc) as (F & _). split; [assumption | congruence].
    + rewrite pipeline_overflow by assumption. split; reflexivity.
  - rewrite pipeline_not_finite by assumption. split; reflexivity.
Qed.

(** The centring of a finite sample overflows exactly when the rounded
    distance to the peak reaches [2^1024]. *)
Lemma centring_overflow_iff series v :
  In v (samples series) -> Number_isFinite v = true ->
  Number_isFinite (v - peak_of series)%float = true <->
  rnd (val (peak_of series) - val v) < top.
Proof.
  intros Hv Fv. pose proof (peak_of_max series v Hv Fv) as M.
  destruct (sub_val v (peak_of series) Fv (peak_of_finite series)) as [Hf Hi].
  assert (A : Z.abs (rnd (val v - val (peak_of series))) = rnd (val (peak_of series) - val v)).
  { replace (val v - val (peak_of series)) with (- (val (peak_of series) - val v)) by lia.
    rewrite rnd_opp, Z.abs_opp, Z.abs_eq; trivial.
    change 0 with (rnd 0). apply rnd_mono. lia. }
  rewrite A in *. split.
  - intros F. destruct (Z.lt_ge_cases (rnd (val (peak_of series) - val v)) top); trivial.
    rewrite Hi in F by assumption. discriminate.
  - intros L. now apply Hf.
Qed.

(** ** Extrema of a batch and of its result *)

Lemma sub_val_cases (x y : float) :
  Number_isFinite x = true -> Number_isFinite y = true ->
  (Number_isFinite (x - y)%float = true /\ val (x - y)%float = rnd (val x - val y) /\
   Z.abs (rnd (val x - val y)) < top) \/
  (Number_isFinite (x - y)%float = false /\ top <= Z.abs (rnd (val x - val y))).
Proof.
  intros Fx Fy. destruct (sub_val x y Fx Fy) as [Hf Hi].
  destruct (Z.lt_ge_cases (Z.abs (rnd (val x - val y))) top) as [L|G].
  - left. destruct (Hf L). auto.
  - right. auto.
Qed.

(** Subtracting numbers of equal value gives results of equal value. *)
Lemma sub_val_congr (x y y' : float) :
  Number_isFinite x = true -> Number_isFinite y = true -> Number_isFinite y' = true ->
  val y = val y' ->
  Number_isFinite (x - y)%float = Number_isFinite (x - y')%float /\
  val (x - y)%float = val (x - y')%float.
Proof.
  intros Fx Fy Fy' E.
  destruct (sub_val_cases x y Fx Fy) as [(F & V & B)|(F & B)];
    destruct (sub_val_cases x y' Fx Fy') as [(F' & V' & B')|(F' & B')];
    rewrite E in *; try lia.
  - rewrite F, F', V, V'. auto.
  - rewrite F, F', !val_not_finite by assumption. auto.
Qed.

Lemma is_max_finite_val M M' l :
  is_max_finite M l -> is_max_finite M' l -> val M = val M'.
Proof.
  intros (I & F & U) (I' & F' & U').
  pose proof (U M' I' F') as A. pose proof (U' M I F) as B.
  rewrite leb_val in A, B by assumption.
  apply Z.leb_le in A, B. lia.
Qed.

Lemma is_min_finite_val m m' l :
  is_min_finite m l -> is_min_finite m' l -> val m = val m'.
Proof.
  intros (I & F & U) (I' & F' & U').
  pose proof (U m' I' F') as A. pose proof (U' m I F) as B.
  rewrite leb_val in A, B by assumption.
  apply Z.leb_le in A, B. lia.
Qed.

(** The scanned peak is the greatest finite sample. *)
Lemma peak_of_is_max series :
  has_finite series = true -> is_max_finite (peak_of series) (samples series).
Proof.
  intros H. destruct (peak_of_hits series H) as (_ & I & F).
  repeat split; trivial. intros y Hy Fy.
  rewrite leb_val by assumption. apply Z.leb_le. now apply peak_of_max.
Qed.

(** The tracked [min] is the least finite centred value. *)
Lemma min_of_is_min series :
  has_finite series = true ->
  is_min_finite (min_of series) (centred_by (peak_of series) series).
Proof.
  intros H. destruct (min_of_hits series H) as (Fm & v & Iv & Fv & Em).
  repeat split; trivial.
  - rewrite Em. unfold centred_by.
    apply (in_map (fun v => (v - peak_of series)%float)). apply filter_In. auto.
  - intros c Hc Fc. unfold centred_by in Hc.
    apply in_map_iff in Hc as (u & <- & Hu). apply filter_In in Hu as [Iu Fu].
    rewrite leb_val by assumption. apply Z.leb_le. now apply min_of_min.
Qed.

(** The result at the peak is the offset, and nothing finite is above it. *)
Lemma result_at_peak_is_max series :
  has_finite series = true ->
  is_max_finite (pipeline (peak_of series) (offset_of series) (peak_of series))
                (samples (normalize series)) /\
  val (pipeline (peak_of series) (offset_of series) (peak_of series))
  = - val (min_of series).
Proof.
  intros H. destruct (peak_of_hits series H) as (_ & I & F).
  assert (Fc : Number_isFinite (peak_of series - peak_of series)%float = true)
    by (now rewrite sub_diag_finite).
  destruct (pipeline_val series _ I F Fc) as (Fy & Vy & By & _).
  destruct (min_of_hits series H) as (Fm & _).
  assert (V : val (pipeline (peak_of series) (offset_of series) (peak_of series))
              = - val (min_of series)).
  { rewrite Vy, Z.sub_diag, rnd_0, Z.sub_0_l. apply rnd_fmt, fmt_opp.
    now apply val_finite_props. }
  split; trivial. repeat split; trivial.
  - rewrite samples_normalize. now apply in_map.
  - intros y Hy Fyy. rewrite samples_normalize in Hy.
    apply in_map_iff in Hy as (u & <- & Hu).
    destruct (pipeline_finite_or_nan series u Hu) as [E _].
    rewrite Fyy in E. symmetry in E. apply andb_prop in E as [Fu Fcu].
    destruct (pipeline_val series u Hu Fu Fcu) as (_ & _ & Bu & _).
    rewrite leb_val by assumption. apply Z.leb_le.
    rewrite V, <- val_offset_of by assumption. lia.
Qed.

(** The least centred value is the centred least sample, when that one is
    finite. *)
Lemma min_of_centred_min series m :
  is_min_finite m (samples series) ->
  Number_isFinite (m - peak_of series)%float = true ->
  val (min_of series) = val (m - peak_of series)%float.
Proof.
  intros (Im & Fm & Um) Fc.
  assert (H : has_finite series = true) by (apply has_finite_spec; eauto).
  pose proof (min_of_min series m Im Fm Fc) as L1.
  destruct (min_of_hits series H) as (Fmn & v0 & I0 & F0 & E0).
  pose proof (Um v0 I0 F0) as L. rewrite leb_val in L by assumption.
  apply Z.leb_le in L.
  assert (Fc0 : Number_isFinite (v0 - peak_of series)%float = true) by now rewrite <- E0.
  rewrite E0 in *.
  rewrite (sub_val_finite m), (sub_val_finite v0) in * by auto with finite.
  assert (rnd (val m - val (peak_of series)) <= rnd (val v0 - val (peak_of series)))
    by (apply rnd_mono; lia).
  lia.
Qed.

(** ** A second pass changes nothing *)

(** [+0] is the least finite result of a batch with a finite sample. *)
Lemma zero_is_min_result series :
  has_finite series = true -> is_min_finite zero (samples (normalize series)).
Proof.
  intros H. split; [|split; [reflexivity|]].
  - destruct (min_of_hits _ H) as (Fm & v & Iv & Fv & Em).
    rewrite samples_normalize. apply in_map_iff. exists v. split; trivial.
    unfold pipeline, shifted_value, normalizedValue, offset_of.
    rewrite Fv, Fm, <- Em, Fm, add_opp_diag_finite by assumption. reflexivity.
  - intros y Hy Fy. rewrite samples_normalize in Hy.
    apply in_map_iff in Hy as (v & <- & _). now apply pipeline_nonneg.
Qed.

(** What the results of a first pass look like. *)
Lemma result_shape series y :
  has_finite series = true -> In y (samples (normalize series)) ->
  y = nan \/
  (Number_isFinite y = true /\ y <> neg_zero /\
   0 <= val y <= val (offset_of series) /\
   fmt (val (offset_of series) - val y)).
Proof.
  intros H Hy. rewrite samples_normalize in Hy.
  apply in_map_iff in Hy as (v & <- & Hv).
  destruct (pipeline_finite_or_nan series v Hv) as [E N].
  destruct (Number_isFinite (pipeline (peak_of series) (offset_of series) v)) eqn:Fy;
    [right | left; auto].
  symmetry in E. apply andb_prop in E as [Fv Fc].
  destruct (pipeline_val series v Hv Fv Fc) as (_ & Vy & By & Ny & _).
  repeat split; trivial; try lia.
  destruct (centred_val series v Hv Fv Fc) as [Vc Nc].
  pose proof (min_of_min series v Hv Fv Fc) as Mc.
  rewrite Vy, <- Vc, (val_offset_of series H).
  destruct (min_of_hits series H) as (Fm & _).
  replace (val (v - peak_of series)%float - val (min_of series))
    with (- val (min_of series) - - val (v - peak_of series)%float) by lia.
  apply fast_two_sum.
  - apply fmt_opp. now apply val_finite_props.
  - apply fmt_opp. now apply val_finite_props.
  - lia.
Qed.

Lemma finite_eq_of_val (x y : float) :
  Number_isFinite x = true -> Number_isFinite y = true ->
  x <> neg_zero -> y <> neg_zero -> val x = val y -> x = y.
Proof.
  intros Fx Fy Nx Ny E. destruct (Z.eq_dec (val x) 0) as [Z0|NZ].
  - destruct (val_zero_cases x Fx Z0) as [-> | ->]; [|contradiction].
    rewrite Z0 in E. symmetry in E.
    destruct (val_zero_cases y Fy E) as [-> | ->]; [reflexivity | contradiction].
  - now apply val_inj.
Qed.

(** The second pass maps every result of the first pass to itself. *)
Lemma second_pass_fixes series y :
  has_finite series = true -> In y (samples (normalize series)) ->
  pipeline (peak_of (normalize series)) (offset_of (normalize series)) y = y.
Proof.
  intros H Hy. set (out := normalize series) in *.
  destruct (result_shape series y H Hy) as [-> | (Fy & Ny & By & My)].
  { now apply pipeline_not_finite. }
  pose proof (zero_is_min_result series H) as Hz. fold out in Hz.
  assert (Ho : has_finite out = true).
  { apply has_finite_spec. exists zero. destruct Hz as (Iz & Fz & _). auto. }
  (* the peak of the results is the offset *)
  destruct (result_at_peak_is_max series H) as [HM VM]. fold out in HM.
  pose proof (is_max_finite_val _ _ _ (peak_of_is_max out Ho) HM) as VP.
  rewrite VM, <- (val_offset_of series H) in VP.
  destruct (val_finite_props _ (offset_of_finite series)) as [Mo Bo].
  (* centring a result is exact *)
  assert (Cen : forall u, Number_isFinite u = true ->
                  0 <= val u <= val (offset_of series) ->
                  fmt (val (offset_of series) - val u) ->
                  Number_isFinite (u - peak_of out)%float = true /\
                  val (u - peak_of out)%float = val u - val (offset_of series)).
  { intros u Fu Bu Mu.
    destruct (sub_val u (peak_of out) Fu (peak_of_finite out)) as [Hf _].
    rewrite VP in Hf.
    assert (R : rnd (val u - val (offset_of series)) = val u - val (offset_of series)).
    { apply rnd_fmt. apply fmt_opp.
      now replace (- (val u - val (offset_of series)))
        with (val (offset_of series) - val u) by lia. }
    rewrite R in Hf. apply Hf. lia. }
  destruct (Cen y Fy By My) as [Fc Vc].
  (* the least centred result is minus the offset *)
  assert (Vmn : val (min_of out) = - val (offset_of series)).
  { destruct (Cen zero eq_refl) as [Fz Vz].
    - rewrite val_zero. lia.
    - rewrite val_zero, Z.sub_0_r. exact Mo.
    - rewrite (min_of_centred_min out zero Hz Fz), Vz, val_zero. lia. }
  destruct (pipeline_val out y Hy Fy Fc) as (Fr & Vr & _ & Nr & _).
  apply finite_eq_of_val; trivial.
  rewrite Vr, <- (sub_val_finite y) by auto with finite.
  rewrite Vc, Vmn.
  replace (val y - val (offset_of series) - - val (offset_of series)) with (val y) by lia.
  apply rnd_fmt. now apply val_finite_props.
Qed.

(** The same on every batch: without a finite sample every result is NaN,
    and NaN is mapped to NaN. *)
Lemma second_pass_pointwise series y :
  In y (samples (normalize series)) ->
  pipeline (peak_of (normalize series)) (offset_of (normalize series)) y = y.
Proof.
  intros Hy. destruct (has_finite series) eqn:H.
  - now apply second_pass_fixes.
  - assert (y = nan).
    { rewrite samples_normalize in Hy. apply in_map_iff in Hy as (v & <- & Hv).
      apply pipeline_not_finite. now apply (has_finite_false _ H). }
    subst y. now apply pipeline_not_finite.
Qed.

Lemma map_map_fixed (f : float -> float) (batch : list (list float)) :
  (forall y, In y (samples batch) -> f y = y) -> map (map f) batch = batch.
Proof.
  intros H. transitivity (map (fun arr : list float => arr) batch); [|apply map_id].
  apply map_ext_in. intros arr Ha.
  transitivity (map (fun y : float => y) arr); [|apply map_id].
  apply map_ext_in. intros y Hy. apply H.
  unfold samples. apply in_concat. eauto.
Qed.

(** ** How far the two roundings can move a sample *)

Lemma rnd_pos_error n : 0 <= n -> 2 * Z.abs (rnd_pos n - n) <= 2 ^ rexp n.
Proof.
  intros Hn. pose proof (rexp_nonneg n) as Kn. assert (P := pow2_pos _ Kn).
  unfold rnd_pos, rne.
  pose proof (Z.div_mod n (2 ^ rexp n) ltac:(lia)) as D.
  pose proof (Z.mod_pos_bound n (2 ^ rexp n) P) as B.
  destruct (Z.compare_spec (2 * (n mod 2 ^ rexp n)) (2 ^ rexp n));
    try destruct (Z.even (n / 2 ^ rexp n)); nia.
Qed.

(** Half a unit in the last place. *)
Lemma rnd_error n : 2 * Z.abs (rnd n - n) <= 2 ^ rexp (Z.abs n).
Proof.
  pose proof (rnd_pos_error (Z.abs n) (Z.abs_nonneg n)) as E. unfold rnd.
  destruct (Z.sgn_spec n) as [[? ->]|[[? ->]|[? ->]]]; lia.
Qed.

Lemma rexp_le_of_rnd n r : 0 <= n -> rnd_pos n <= r -> rexp n <= rexp r.
Proof.
  intros Hn H. destruct (Z.eq_dec n 0) as [->|N0].
  - unfold rexp at 1. simpl. apply rexp_nonneg.
  - pose proof (rnd_pos_ge_pow2 n ltac:(lia)) as L.
    assert (Z.log2 n <= Z.log2 r).
    { apply Z.log2_le_pow2; [|lia].
      assert (0 < 2 ^ Z.log2 n) by (apply pow2_pos, Z.log2_nonneg). lia. }
    unfold rexp. lia.
Qed.

(** The centring and the shift each move a value by at most half a unit in
    the last place of the offset. *)
Lemma centring_error series v :
  has_finite series = true ->
  In v (samples series) -> Number_isFinite v = true ->
  Number_isFinite (v - peak_of series)%float = true ->
  2 * Z.abs (val (v - peak_of series)%float - (val v - val (peak_of series)))
  <= ulp (offset_of series).
Proof.
  intros H Hv Fv Fc. destruct (centred_val series v Hv Fv Fc) as [Vc Nc].
  pose proof (min_of_min series v Hv Fv Fc) as Mc.
  pose proof (peak_of_max series v Hv Fv) as Mp.
  pose proof (val_offset_of series H) as Vo.
  rewrite Vc in *. eapply Z.le_trans; [apply rnd_error|].
  unfold ulp. apply pow2_le. split; [apply rexp_nonneg|].
  apply rexp_le_of_rnd; [lia|].
  rewrite <- abs_rnd. lia.
Qed.

Lemma shift_error series v :
  has_finite series = true ->
  In v (samples series) -> Number_isFinite v = true ->
  Number_isFinite (v - peak_of series)%float = true ->
  2 * Z.abs (val (pipeline (peak_of series) (offset_of series) v)
             - (val (v - peak_of series)%float - val (min_of series)))
  <= ulp (offset_of series).
Proof.
  intros H Hv Fv Fc. destruct (centred_val series v Hv Fv Fc) as [Vc Nc].
  pose proof (min_of_min series v Hv Fv Fc) as Mc.
  pose proof (val_offset_of series H) as Vo.
  destruct (pipeline_val series v Hv Fv Fc) as (_ & Vy & _).
  rewrite Vy, <- Vc. eapply Z.le_trans; [apply rnd_error|].
  unfold ulp. apply pow2_le. split; [apply rexp_nonneg|].
  apply rexp_mono. lia.
Qed.

(** One call moves a sample to within one unit in the last place of the
    offset of [sample - peak - min]. *)
Lemma pipeline_error series v :
  has_finite series = true ->
  In v (samples series) -> Number_isFinite v = true ->
  Number_isFinite (v - peak_of series)%float = true ->
  Z.abs (val (pipeline (peak_of series) (offset_of series) v)
         - (val v - val (peak_of series) - val (min_of series)))
  <= ulp (offset_of series).
Proof.
  intros H Hv Fv Fc.
  pose proof (centring_error series v H Hv Fv Fc).
  pose proof (shift_error series v H Hv Fv Fc). lia.
Qed.

(** ** The heap run against the functional embedding *)

Local Open Scope nat_scope.

Lemma bind_some {A B} (m : js A) (k : A -> js B) h x h' :
  m h = Some (x, h') -> bind m k h = k x h'.
Proof. unfold bind. now intros ->. Qed.

Lemma bind_bind_some {A B C} (m : js A) (k1 : A -> js B) (k2 : B -> js C) h x h' :
  m h = Some (x, h') -> bind (bind m k1) k2 h = bind (k1 x) k2 h'.
Proof. unfold bind. now intros ->. Qed.

Lemma bind_ret {A B} (x : A) (k : A -> js B) h : bind (ret x) k h = k x h.
Proof. reflexivity. Qed.

(** Run the first statement of a computation whose outcome is known. *)
Ltac js_step H :=
  first [ rewrite (bind_bind_some _ _ _ _ _ _ H)
        | rewrite (bind_some _ _ _ _ _ H) ];
  try rewrite bind_ret.

Lemma nth_error_old {A} (h e : list A) p o :
  nth_error h p = Some o -> nth_error (h ++ e) p = Some o.
Proof.
  intros H. rewrite nth_error_app1; trivial.
  apply nth_error_Some. congruence.
Qed.

Lemma nth_error_new {A} (h e : list A) o :
  nth_error (h ++ o :: e) (length h) = Some o.
Proof. rewrite nth_error_app2, Nat.sub_diag; trivial. Qed.

Lemma update_new {A} (h : list A) o o' : update (h ++ [o]) (length h) o' = h ++ [o'].
Proof. induction h as [|x tl IH]; simpl; [reflexivity | now rewrite IH]. Qed.

Lemma store_slot_hole (done : list (option float)) rest x :
  store_slot (done ++ None :: rest) (length done) x = done ++ Some x :: rest.
Proof.
  unfold store_slot. rewrite length_app. cbn [length].
  destruct (Nat.ltb_spec (length done) (length done + S (length rest))) as [_|]; [|lia].
  rewrite firstn_app, firstn_all, Nat.sub_diag, firstn_0, app_nil_r.
  f_equal. f_equal.
  replace (S (length done)) with (length done + 1) by lia.
  rewrite skipn_app, skipn_all2 by lia.
  replace (length done + 1 - length done) with 1 by lia. reflexivity.
Qed.

Lemma dense_map l : dense (map Some l) = Some l.
Proof. induction l as [|x tl IH]; simpl; [reflexivity | now rewrite IH]. Qed.

Lemma dense_inv s l : dense s = Some l -> s = map Some l.
Proof.
  revert l. induction s as [|[x|] tl IH]; intros l H; simpl in H.
  - now inversion H.
  - destruct (dense tl) as [r|]; [|discriminate]. inversion H. simpl. f_equal. now apply IH.
  - discriminate.
Qed.

(** [holds h ps batch]: the references [ps] point to arrays of numbers whose
    contents are the series of [batch]. *)
Lemma all_numbers_inv h ps batch :
  all_numbers h ps = Some batch ->
  Forall2 (fun p arr => nth_error h p = Some (Numbers (map Some arr))) ps batch.
Proof.
  revert batch. induction ps as [|p tl IH]; intros batch H; simpl in H.
  - inversion H. constructor.
  - unfold numbers_at in H. destruct (nth_error h p) as [[s|r]|] eqn:E; try discriminate.
    destruct (dense s) as [a|] eqn:D; [|discriminate].
    destruct (all_numbers h tl) as [r|]; [|discriminate].
    inversion H. constructor; [|now apply IH].
    now rewrite (dense_inv _ _ D) in E.
Qed.

Lemma all_numbers_intro h ps batch :
  Forall2 (fun p arr => nth_error h p = Some (Numbers (map Some arr))) ps batch ->
  all_numbers h ps = Some batch.
Proof.
  induction 1 as [|p arr ps batch Hp _ IH]; simpl; trivial.
  unfold numbers_at. now rewrite Hp, dense_map, IH.
Qed.

Lemma holds_ext h e ps batch :
  Forall2 (fun p arr => nth_error h p = Some (Numbers (map Some arr))) ps batch ->
  Forall2 (fun p arr => nth_error (h ++ e) p = Some (Numbers (map Some arr))) ps batch.
Proof.
  induction 1; constructor; auto using nth_error_old.
Qed.

Lemma holds_fresh h (batch : list (list float)) e :
  Forall2 (fun p arr => nth_error (h ++ map (fun arr => Numbers (map Some arr)) batch ++ e) p
                        = Some (Numbers (map Some arr)))
          (seq (length h) (length batch)) batch.
Proof.
  revert h. induction batch as [|arr tl IH]; intros h; simpl; constructor.
  - apply nth_error_new.
  - specialize (IH (h ++ [Numbers (map Some arr)])).
    rewrite length_app, Nat.add_1_r, <- app_assoc in IH. exact IH.
Qed.

(** The reading loop of the peak scan over one array. *)
Lemma scan_array_loop h arr_ref pre post peak :
  nth_error h arr_ref = Some (Numbers (map Some (pre ++ post))) ->
  for_each (seq (length pre) (length post))
    (fun peak i =>
       bind (get arr_ref i) (fun value =>
         ret (match value with Some x => peak_step peak x | None => peak end)))
    peak h
  = Some (fold_left peak_step post peak, h).
Proof.
  intros H. revert pre peak H. induction post as [|x post IH]; intros pre peak H.
  - reflexivity.
  - cbn [length seq for_each fold_left].
    assert (G : get arr_ref (length pre) h = Some (Some x, h)).
    { unfold get. rewrite H. do 2 f_equal.
      rewrite map_app, app_nth2, length_map, Nat.sub_diag by (rewrite length_map; lia).
      reflexivity. }
    js_step G.
    specialize (IH (pre ++ [x]) (peak_step peak x)).
    rewrite length_app, Nat.add_1_r, <- app_assoc in IH. apply IH. exact H.
Qed.

Lemma scan_peak_js_spec h p ps batch :
  nth_error h p = Some (Arrays ps) ->
  Forall2 (fun p arr => nth_error h p = Some (Numbers (map Some arr))) ps batch ->
  scan_peak_js p h = Some (scan_peak batch, h).
Proof.
  intros Hp Hb. unfold scan_peak_js, scan_peak.
  assert (R : refs_of p h = Some (ps, h)) by (unfold refs_of; now rewrite Hp).
  js_step R. clear R Hp.
  generalize neg_infinity. induction Hb as [|a arr ps batch Ha _ IH]; intros peak.
  - reflexivity.
  - cbn [for_each fold_left].
    assert (L : array_length a h = Some (length arr, h))
      by (unfold array_length; now rewrite Ha, length_map).
    js_step L. js_step (scan_array_loop h a [] arr peak Ha). apply IH.
Qed.

Section MapCallback.
Context {S : Type}.
Variable f : float -> float.
Variable g : S -> float -> S.

Lemma fill_loop h src pre post (st : S) :
  nth_error h src = Some (Numbers (map Some (pre ++ post))) ->
  for_each (seq (length pre) (length post))
    (fun st i =>
       bind (get src i) (fun value =>
         let nv := match value with Some x => f x | None => nan end in
         bind (put (length h) i nv) (fun _ => ret (g st nv))))
    st (h ++ [Numbers (map Some (map f pre) ++ repeat None (length post))])
  = Some (fold_left g (map f post) st,
          h ++ [Numbers (map Some (map f (pre ++ post)))]).
Proof.
  intros H. revert pre st H. induction post as [|x post IH]; intros pre st H.
  - cbn [length seq for_each repeat map fold_left]. unfold ret.
    now rewrite !app_nil_r.
  - cbn [length seq for_each repeat map fold_left].
    assert (G : get src (length pre)
                  (h ++ [Numbers (map Some (map f pre) ++ None :: repeat None (length post))])
                = Some (Some x, h ++ [Numbers (map Some (map f pre) ++ None :: repeat None (length post))])).
    { unfold get. rewrite (nth_error_old _ _ _ _ H). do 2 f_equal.
      rewrite map_app, app_nth2, length_map, Nat.sub_diag by (rewrite length_map; lia).
      reflexivity. }
    js_step G. cbv beta iota zeta.
    assert (P : put (length h) (length pre) (f x)
                  (h ++ [Numbers (map Some (map f pre) ++ None :: repeat None (length post))])
                = Some (tt, h ++ [Numbers (map Some (map f (pre ++ [x])) ++ repeat None (length post))])).
    { unfold put. rewrite nth_error_new, update_new. do 4 f_equal.
      replace (length pre) with (length (map Some (map f pre))) by now rewrite !length_map.
      rewrite store_slot_hole, !map_app, <- app_assoc. reflexivity. }
    js_step P.
    specialize (IH (pre ++ [x]) (g st (f x))).
    rewrite length_app, Nat.add_1_r, <- app_assoc in IH. apply IH. exact H.
Qed.

(** One callback run: a fresh array with the mapped contents, and the
    captured state folded over them; nothing else on the heap changes. *)
Lemma map_callback_spec h src arr (st : S) :
  nth_error h src = Some (Numbers (map Some arr)) ->
  map_callback f g st src h
  = Some ((length h, fold_left g (map f arr) st),
          h ++ [Numbers (map Some (map f arr))]).
Proof.
  intros H. unfold map_callback.
  assert (L : array_length src h = Some (length arr, h))
    by (unfold array_length; now rewrite H, length_map).
  js_step L.
  assert (N : new_Array (length arr) h
              = Some (length h, h ++ [Numbers (repeat None (length arr))])) by reflexivity.
  js_step N.
  pose proof (fill_loop h src [] arr st H) as F. cbn [length map app] in F.
  js_step F. reflexivity.
Qed.

Lemma map_loop h ps batch :
  Forall2 (fun p arr => nth_error h p = Some (Numbers (map Some arr))) ps batch ->
  forall ext acc (st : S),
  for_each ps
    (fun acc source =>
       bind (map_callback f g (snd acc) source) (fun r =>
         ret (fst acc ++ [fst r], snd r)))
    (acc, st) (h ++ ext)
  = Some ((acc ++ seq (length h + length ext) (length ps),
           fold_left g (map f (concat batch)) st),
          h ++ ext ++ map (fun arr => Numbers (map Some (map f arr))) batch).
Proof.
  induction 1 as [|p arr ps batch Hp _ IH]; intros ext acc st.
  - cbn [for_each length seq concat map fold_left]. unfold ret. now rewrite !app_nil_r.
  - cbn [for_each length seq concat map].
    pose proof (map_callback_spec (h ++ ext) p arr st (nth_error_old _ _ _ _ Hp)) as C.
    cbn [snd]. js_step C. cbn [fst snd].
    rewrite <- app_assoc. rewrite (IH (ext ++ [Numbers (map Some (map f arr))])).
    rewrite !length_app, map_app, fold_left_app. cbn [length].
    rewrite <- !app_assoc. cbn [app].
    replace (length h + (length ext + 1)) with (Datatypes.S (length h + length ext)) by lia.
    reflexivity.
Qed.

(** [arr.map(callback)] on an array of references to arrays of numbers. *)
Lemma map_js_spec h p ps batch (st : S) :
  nth_error h p = Some (Arrays ps) ->
  Forall2 (fun p arr => nth_error h p = Some (Numbers (map Some arr))) ps batch ->
  exists ext q,
    map_js (map_callback f g) p st h
    = Some ((q, fold_left g (map f (concat batch)) st), h ++ ext) /\
    length h <= q /\
    batch_at (h ++ ext) q = Some (map (map f) batch).
Proof.
  intros Hp Hb. unfold map_js.
  assert (R : refs_of p h = Some (ps, h)) by (unfold refs_of; now rewrite Hp).
  js_step R.
  pose proof (map_loop h ps batch Hb [] [] st) as L.
  rewrite app_nil_r in L. cbn [app length] in L. rewrite Nat.add_0_r in L.
  js_step L. cbn [fst snd].
  set (M := map (fun arr => Numbers (map Some (map f arr))) batch).
  exists (M ++ [Arrays (seq (length h) (length ps))]), (length h + length M).
  unfold alloc, bind, ret. rewrite length_app. split; [now rewrite app_assoc|].
  split; [lia|].
  unfold batch_at.
  rewrite app_assoc, <- length_app, nth_error_new.
  apply all_numbers_intro.
  assert (E : length ps = length (map (map f) batch))
    by (rewrite length_map; eapply Forall2_length; eassumption).
  rewrite E. unfold M. rewrite <- app_assoc.
  replace (map (fun arr => Numbers (map Some (map f arr))) batch)
    with (map (fun arr => Numbers (map Some arr)) (map (map f) batch))
    by (now rewrite map_map).
  apply holds_fresh.
Qed.
End MapCallback.

Lemma batch_at_inv h p batch :
  batch_at h p = Some batch ->
  exists ps, nth_error h p = Some (Arrays ps) /\
    Forall2 (fun p arr => nth_error h p = Some (Numbers (map Some arr))) ps batch.
Proof.
  unfold batch_at. destruct (nth_error h p) as [[s|ps]|] eqn:E; try discriminate.
  intros H. exists ps. split; trivial. now apply all_numbers_inv.
Qed.

Lemma batch_at_ext h e p batch :
  batch_at h p = Some batch -> batch_at (h ++ e) p = Some batch.
Proof.
  intros H. apply batch_at_inv in H as (ps & Hp & Hb).
  unfold batch_at. rewrite (nth_error_old _ _ _ _ Hp).
  apply all_numbers_intro. now apply holds_ext.
Qed.

(** The two maps of the functional embedding, composed. *)
Lemma normalize_two_maps batch :
  batch <> [] ->
  normalize batch
  = map (map (shifted_value (offset_of batch)))
        (map (map (normalizedValue (peak_of batch))) batch).
Proof.
  intros _. rewrite normalize_pointwise, map_map. apply map_ext. intros arr.
  now rewrite map_map.
Qed.

(** The heap run allocates, never overwrites, and computes [normalize]. *)
Lemma run_spec h p batch :
  batch_at h p = Some batch ->
  exists ext q,
    normalizePlaybackSeries_js p h = Some (q, h ++ ext) /\
    length h <= q /\
    batch_at (h ++ ext) q = Some (normalize batch).
Proof.
  intros H. destruct (batch_at_inv _ _ _ H) as (ps & Hp & Hb).
  unfold normalizePlaybackSeries_js.
  assert (L : array_length p h = Some (length ps, h))
    by (unfold array_length; now rewrite Hp).
  js_step L.
  destruct (Nat.eqb_spec (length ps) 0) as [E|E].
  - exists [Arrays []], (length h). unfold alloc. split; [reflexivity|]. split; [lia|].
    destruct ps; [|discriminate]. inversion Hb. subst.
    unfold batch_at. now rewrite nth_error_new.
  - js_step (scan_peak_js_spec h p ps batch Hp Hb).
    fold (peak_of batch).
    destruct (map_js_spec (normalizedValue (peak_of batch)) min_step h p ps batch infinity Hp Hb)
      as (ext1 & c & R1 & Lc & B1).
    js_step R1. cbn [fst snd].
    rewrite <- min_of_fold. fold (offset_of batch).
    destruct (batch_at_inv _ _ _ B1) as (ps1 & Hp1 & Hb1).
    destruct (map_js_spec (shifted_value (offset_of batch)) (fun (_ : unit) _ => tt)
                (h ++ ext1) c ps1 _ tt Hp1 Hb1) as (ext2 & q & R2 & Lq & B2).
    js_step R2. cbn [fst]. unfold ret.
    exists (ext1 ++ ext2), q. rewrite app_assoc. split; [reflexivity|].
    split; [rewrite length_app in Lq; lia|].
    rewrite B2. f_equal. symmetry. apply normalize_two_maps.
    intros ->. inversion Hb. subst. now apply E.
Qed.

Local Close Scope nat_scope.

(** * The claims *)

(** ** The floor of the result (C1) *)

(** C1. When the batch holds a finite sample, [+0] is the least finite value
    of the result: it occurs there and no finite value of the result is below
    it.  For every batch, no finite value of the result is negative. *)
Theorem normalize_min_is_zero (series : list (list float)) :
  (has_finite series = true -> is_min_finite zero (samples (normalize series))) /\
  (forall y, In y (samples (normalize series)) -> Number_isFinite y = true ->
     (zero <=? y)%float = true /\ (y <? zero)%float = false).
Proof.
  split; [apply zero_is_min_result|].
  intros y Hy Fy. rewrite samples_normalize in Hy.
  apply in_map_iff in Hy as (v & <- & _).
  pose proof (pipeline_nonneg _ _ _ Fy) as N. split; [exact N|].
  now apply leb_not_ltb.
Qed.

Lemma normalize_min_is_zero_witness :
  is_min_finite zero (samples (normalize [[nan; 10; -5]; [2]]%float)).
Proof.
  exact (proj1 (normalize_min_is_zero [[nan; 10; -5]; [2]]%float) eq_refl).
Defined.

(** ** The greatest result (C2) *)

(** C2, as stated, fails already on [[5]]: the greatest finite sample is 5,
    the least centred value is 0, the greatest result is 0, and
    [0 <> 5 - 0]. *)
Lemma max_formula_counterexample :
  is_max_finite 5%float (samples [[5%float]]) /\
  is_min_finite 0%float (centred_by 5%float [[5%float]]) /\
  is_max_finite 0%float (samples (normalize [[5%float]])) /\
  (0 =? 5 - 0)%float = false.
Proof.
  repeat split; try reflexivity; try (now left);
    intros y [<-|[]] _; reflexivity.
Qed.

(** C2, amended.  For a batch with a finite sample, with [peakOriginal] the
    greatest finite sample and [minAfterCentering] the least finite value
    after subtracting [peakOriginal] from every finite sample, the greatest
    finite result exists and equals [0 - minAfterCentering], that is the
    offset, and it is [>= 0]. *)
Theorem normalize_max (series : list (list float)) :
  has_finite series = true ->
  (exists peakOriginal minAfterCentering M,
     is_max_finite peakOriginal (samples series) /\
     is_min_finite minAfterCentering (centred_by peakOriginal series) /\
     is_max_finite M (samples (normalize series))) /\
  (forall peakOriginal minAfterCentering M,
     is_max_finite peakOriginal (samples series) ->
     is_min_finite minAfterCentering (centred_by peakOriginal series) ->
     is_max_finite M (samples (normalize series)) ->
     (M =? zero - minAfterCentering)%float = true /\ (zero <=? M)%float = true).
Proof.
  intros H. destruct (result_at_peak_is_max series H) as [HM VM]. split.
  - eauto 10 using peak_of_is_max, min_of_is_min.
  - intros P mn M HP Hmn HM'.
    pose proof (is_max_finite_val _ _ _ HM' HM) as EM. rewrite VM in EM.
    pose proof (is_max_finite_val _ _ _ HP (peak_of_is_max series H)) as EP.
    pose proof (min_of_nonpos series H) as Nm.
    destruct HP as (_ & FP & _). destruct HM' as (_ & FM & _).
    (* the least centred value does not depend on the sign of a zero peak *)
    assert (Emn : val mn = val (min_of series)).
    { destruct Hmn as (I & F & U).
      destruct (min_of_is_min series H) as (I0 & F0 & U0).
      unfold centred_by in I, I0.
      apply in_map_iff in I as (u & Eu & Hu). apply filter_In in Hu as [Iu Fu].
      apply in_map_iff in I0 as (u0 & Eu0 & Hu0). apply filter_In in Hu0 as [Iu0 Fu0].
      destruct (sub_val_congr u P (peak_of series) Fu FP (peak_of_finite series) EP) as [A1 A2].
      destruct (sub_val_congr u0 P (peak_of series) Fu0 FP (peak_of_finite series) EP) as [B1 B2].
      rewrite Eu in A1, A2. rewrite Eu0 in B1, B2.
      assert (L1 : val (min_of series) <= val mn).
      { rewrite A2. apply min_of_min; trivial. now rewrite <- A1. }
      assert (L2 : val mn <= val (min_of series)).
      { rewrite <- B2. rewrite <- B1 in F0.
        specialize (U (u0 - P)%float).
        rewrite leb_val in U by assumption. apply Z.leb_le, U; trivial.
        unfold centred_by. apply (in_map (fun v => (v - P)%float)).
        apply filter_In. auto. }
      lia. }
    destruct Hmn as (_ & Fmn & _).
    destruct (sub_val_between zero mn zero (- mn)%float) as (Fz & Vz & _);
      rewrite ?opp_finite, ?val_opp, ?val_zero; trivial; try lia.
    rewrite val_zero, Z.sub_0_l in Vz.
    rewrite rnd_fmt in Vz by (apply fmt_opp; now apply val_finite_props).
    split.
    + rewrite eqb_val by assumption. apply Z.eqb_eq. lia.
    + rewrite leb_val by (trivial; reflexivity). apply Z.leb_le. rewrite val_zero. lia.
Qed.

Lemma normalize_max_witness :
  exists M, is_max_finite M (samples (normalize [[0; 10]; [5; 5]]%float)) /\
            (zero <=? M)%float = true.
Proof.
  destruct (normalize_max [[0; 10]; [5; 5]]%float eq_refl)
    as [(P & mn & M & HP & Hmn & HM) U].
  exists M. split; [exact HM | exact (proj2 (U P mn M HP Hmn HM))].
Defined.

(** ** Applying the call twice (C3) *)

(** C3, as stated, fails: no batch tells one pass from two. *)
Lemma not_idempotent_refuted :
  ~ exists series, normalize (normalize series) <> normalize series.
Proof.
  intros [series H]. apply H.
  rewrite (normalize_pointwise (normalize series)).
  apply map_map_fixed. intros y Hy. now apply second_pass_pointwise.
Qed.

(** C3, amended.  [normalizePlaybackSeries] is idempotent: on every batch a
    second pass returns the result of the first, NaN at the same positions
    and every number bit for bit.  (The first pass leaves the least value
    [+0] and the greatest value [offset]; the second pass subtracts [offset]
    and adds it back, and both operations are exact on results of the first
    pass.) *)
Theorem normalize_idempotent (series : list (list float)) :
  normalize (normalize series) = normalize series.
Proof.
  rewrite (normalize_pointwise (normalize series)).
  apply map_map_fixed. exact (second_pass_pointwise series).
Qed.

(** ** Which results are finite (C4) *)

(** C4, as stated, fails: in the batch [[MAX_VALUE, -MAX_VALUE]] the second
    sample is finite, its centred value [-MAX_VALUE - MAX_VALUE] overflows to
    [-Infinity], and the result holds NaN at that position. *)
Lemma finiteness_counterexample :
  at_pos [[MAX_VALUE; (- MAX_VALUE)%float]] 0 1 = Some (- MAX_VALUE)%float /\
  Number_isFinite (- MAX_VALUE)%float = true /\
  at_pos (normalize [[MAX_VALUE; (- MAX_VALUE)%float]]) 0 1 = Some nan /\
  Number_isFinite nan = false.
Proof. repeat split; vm_compute; reflexivity. Qed.

(** C4, amended.  The result at a position is finite exactly when the sample
    there is finite and its centred value [sample - peak] is finite; a result
    that is not finite is NaN.  So a non-finite sample never becomes finite,
    and a finite sample stays finite unless the centring overflows, which
    happens exactly when the rounded distance to the peak reaches [2^1024]. *)
Theorem normalize_finite_iff (series : list (list float)) (i j : nat) (v : float) :
  at_pos series i j = Some v ->
  exists y, at_pos (normalize series) i j = Some y /\
    Number_isFinite y
    = Number_isFinite v && Number_isFinite (v - peak_of series)%float /\
    (Number_isFinite y = false -> y = nan) /\
    (Number_isFinite v = true ->
       (Number_isFinite (v - peak_of series)%float = true <->
        rnd (val (peak_of series) - val v) < top)).
Proof.
  intros H. pose proof (at_pos_samples _ _ _ _ H) as Hv.
  rewrite at_pos_normalize, H. cbn [option_map]. eexists. split; [reflexivity|].
  destruct (pipeline_finite_or_nan series v Hv) as [E N].
  repeat split; trivial; now apply centring_overflow_iff.
Qed.

Lemma normalize_finite_iff_witness :
  exists y, at_pos (normalize [[nan; 10; -5]%float]) 0 2 = Some y /\
            Number_isFinite y = true.
Proof.
  destruct (normalize_finite_iff [[nan; 10; -5]%float] 0 2 (-5)%float eq_refl)
    as (y & Hy & F & _).
  exists y. split; [exact Hy | exact F].
Defined.

(** ** Differences between samples (C5) *)

(** C5, as stated, fails: in [[2^54, 1, 0]] the samples 1 and 0 differ by 1,
    and both come out as 0. *)
Lemma differences_counterexample :
  at_pos [[0x1p54; 1; 0]%float] 0 1 = Some 1%float /\
  at_pos [[0x1p54; 1; 0]%float] 0 2 = Some 0%float /\
  at_pos (normalize [[0x1p54; 1; 0]%float]) 0 1 = Some 0%float /\
  at_pos (normalize [[0x1p54; 1; 0]%float]) 0 2 = Some 0%float /\
  (0 - 0 =? 1 - 0)%float = false.
Proof. repeat split; reflexivity. Qed.

(** C5, amended.  Every series is shifted by the same two batch-wide numbers,
    so for two finite samples with finite results the order is preserved and
    the difference of the results is the difference of the samples up to
    rounding: the two differences are within two units in the last place of
    the offset of each other, and they are equal whenever the four operations
    involved (the two centrings and the two shifts) are exact. *)
Theorem normalize_differences (series : list (list float)) (i j k l : nat) (v1 v2 : float) :
  at_pos series i j = Some v1 -> at_pos series k l = Some v2 ->
  Number_isFinite v1 = true -> Number_isFinite v2 = true ->
  exists y1 y2,
    at_pos (normalize series) i j = Some y1 /\
    at_pos (normalize series) k l = Some y2 /\
    (Number_isFinite y1 = true -> Number_isFinite y2 = true ->
     ((v1 <=? v2)%float = true -> (y1 <=? y2)%float = true) /\
     Z.abs ((val y1 - val y2) - (val v1 - val v2)) <= 2 * ulp (offset_of series)) /\
    (exact_sub v1 (peak_of series) -> exact_sub v2 (peak_of series) ->
     exact_add (v1 - peak_of series)%float (offset_of series) ->
     exact_add (v2 - peak_of series)%float (offset_of series) ->
     (y1 - y2 =? v1 - v2)%float = true /\ val y1 - val y2 = val v1 - val v2).
Proof.
  intros H1 H2 F1 F2.
  pose proof (at_pos_samples _ _ _ _ H1) as I1.
  pose proof (at_pos_samples _ _ _ _ H2) as I2.
  assert (Hs : has_finite series = true) by (apply has_finite_spec; eauto).
  rewrite !at_pos_normalize, H1, H2. cbn [option_map].
  eexists _, _. split; [reflexivity|]. split; [reflexivity|].
  destruct (pipeline_finite_or_nan series v1 I1) as [E1 _].
  destruct (pipeline_finite_or_nan series v2 I2) as [E2 _].
  rewrite F1 in E1. rewrite F2 in E2. cbn [andb] in E1, E2.
  split.
  - intros Fy1 Fy2. rewrite Fy1 in E1. rewrite Fy2 in E2. split.
    + intros L.
      destruct (pipeline_val series v1 I1 F1 (eq_sym E1)) as (_ & V1 & _).
      destruct (pipeline_val series v2 I2 F2 (eq_sym E2)) as (_ & V2 & _).
      rewrite leb_val in L |- * by assumption. apply Z.leb_le in L. apply Z.leb_le.
      rewrite V1, V2. apply rnd_mono.
      assert (rnd (val v1 - val (peak_of series)) <= rnd (val v2 - val (peak_of series)))
        by (apply rnd_mono; lia).
      lia.
    + pose proof (pipeline_error series v1 Hs I1 F1 (eq_sym E1)).
      pose proof (pipeline_error series v2 Hs I2 F2 (eq_sym E2)). lia.
  - intros [Fc1 X1] [Fc2 X2] [Fs1 A1] [Fs2 A2].
    destruct (pipeline_val series v1 I1 F1 Fc1) as (Fy1 & _ & B1 & _ & Q1).
    destruct (pipeline_val series v2 I2 F2 Fc2) as (Fy2 & _ & B2 & _ & Q2).
    rewrite eqb_val in Q1, Q2 by assumption. apply Z.eqb_eq in Q1, Q2.
    set (P := peak_of series) in *. set (off := offset_of series) in *.
    assert (D : val (pipeline P off v1) - val (pipeline P off v2) = val v1 - val v2) by lia.
    split; trivial.
    destruct (val_finite_props off (offset_of_finite series)) as [Mo Bo].
    assert (Fno : Number_isFinite (- off)%float = true) by (rewrite opp_finite; apply offset_of_finite).
    destruct (sub_val_between (pipeline P off v1) (pipeline P off v2) (- off)%float off)
      as (Fd & Vd & Bd); trivial; try apply offset_of_finite.
    { rewrite val_opp. lia. }
    destruct (sub_val v1 v2 F1 F2) as [Hf _].
    rewrite val_opp in Bd. rewrite Vd, D in Bd.
    destruct Hf as [Fv Vv]; [lia|].
    rewrite eqb_val by assumption. apply Z.eqb_eq. now rewrite Vd, Vv, D.
Qed.

Lemma normalize_differences_witness :
  exists y1 y2,
    at_pos (normalize [[0; 10]; [5; 5]]%float) 0 1 = Some y1 /\
    at_pos (normalize [[0; 10]; [5; 5]]%float) 1 0 = Some y2 /\
    (y1 - y2 =? 10 - 5)%float = true.
Proof.
  destruct (normalize_differences [[0; 10]; [5; 5]]%float 0 1 1 0 10%float 5%float
              eq_refl eq_refl eq_refl eq_refl) as (y1 & y2 & E1 & E2 & _ & X).
  exists y1, y2. split; [exact E1|]. split; [exact E2|].
  refine (proj1 (X _ _ _ _)); split; reflexivity.
Defined.

(** ** Shape of the result (C6) *)

(** C6. The result has as many series as the batch, in the batch's order:
    the series at index [i] of the result is computed from the series at index
    [i] of the batch, sample by sample, and so has its length. *)
Theorem normalize_shape (series : list (list float)) :
  length (normalize series) = length series /\
  forall i src, nth_error series i = Some src ->
    exists out, nth_error (normalize series) i = Some out /\
                length out = length src /\
                out = map (pipeline (peak_of series) (offset_of series)) src.
Proof.
  rewrite normalize_pointwise. split.
  - apply length_map.
  - intros i src H. eexists. rewrite nth_error_map, H. simpl.
    split; [reflexivity|]. split; [apply length_map | reflexivity].
Qed.

(** ** No failure path (C7) *)

(** C7. Every batch has a result.  The empty batch gives the empty result; a
    batch without finite samples runs on the two fallbacks ([peak = 0],
    [offset = 0]) and gives NaN everywhere; a one-sample series gives [+0]
    for a finite sample and NaN otherwise; series of different lengths keep
    their own lengths; and the run on the heap never ends in a TypeError. *)
Theorem normalize_total :
  normalize [] = [] /\
  (forall series, exists out, normalizePlaybackSeries series = {| arrays := out |}) /\
  (forall series, has_finite series = false ->
     peak_of series = zero /\ offset_of series = zero /\
     normalize series = map (map (fun _ => nan)) series) /\
  (forall x, normalize [[x]] = [[if Number_isFinite x then zero else nan]]) /\
  (forall series, map (@length float) (normalize series) = map (@length float) series) /\
  (forall h p batch, batch_at h p = Some batch ->
     exists q h', normalizePlaybackSeries_js p h = Some (q, h')).
Proof.
  split; [reflexivity|]. split.
  { intros series. exists (normalize series). unfold normalize.
    now destruct (normalizePlaybackSeries series). }
  split.
  { intros series H. split; [now apply peak_of_none|]. split.
    - unfold offset_of. now rewrite min_of_none.
    - now apply non_finite_batch_result. }
  split.
  { intros x. destruct (Number_isFinite x) eqn:F.
    - rewrite normalize_pointwise. cbn [map]. do 2 f_equal.
      assert (H : has_finite [[x]] = true) by (unfold has_finite; simpl; now rewrite F).
      destruct (peak_of_hits _ H) as (_ & I & _).
      destruct (min_of_hits _ H) as (Fm & v & Iv & _ & Em).
      simpl in I, Iv. destruct I as [I|[]]. destruct Iv as [Iv|[]]. subst v.
      unfold pipeline, shifted_value, normalizedValue, offset_of.
      rewrite F, Fm, Em, <- I, sub_diag_finite by assumption.
      change (zero + - zero)%float with zero. reflexivity.
    - rewrite normalize_pointwise. cbn [map]. now rewrite pipeline_not_finite. }
  split.
  { intros series. rewrite normalize_pointwise, map_map. apply map_ext.
    intros arr. apply length_map. }
  intros h p batch H. destruct (run_spec h p batch H) as (ext & q & R & _).
  eauto.
Qed.

Lemma normalize_total_witness :
  normalize [[nan]; []; [infinity; neg_infinity]] = [[nan]; []; [nan; nan]].
Proof.
  exact (proj2 (proj2 (proj1 (proj2 (proj2 normalize_total))
                         [[nan]; []; [infinity; neg_infinity]] eq_refl))).
Defined.

(** ** Batches without a finite sample (C8) *)

(** C8. A sample that is not finite (NaN or an infinity) never changes the
    running peak.  In a batch with no finite sample the scan therefore ends
    on [Number.NEGATIVE_INFINITY], [peak] falls back to [0], and every sample
    comes out as NaN, not clamped: [normalize([[NaN, Infinity]])] is
    [[NaN, NaN]]. *)
Theorem normalize_all_non_finite :
  (forall peak v, Number_isFinite v = false -> peak_step peak v = peak) /\
  (forall series, has_finite series = false ->
     scan_peak series = neg_infinity /\ peak_of series = zero /\
     normalize series = map (map (fun _ => nan)) series) /\
  normalize [[nan; infinity]] = [[nan; nan]].
Proof.
  split; [exact peak_step_keeps|]. split; [|reflexivity].
  intros series H. split; [now apply scan_peak_none|]. split; [now apply peak_of_none|].
  now apply non_finite_batch_result.
Qed.

Lemma normalize_all_non_finite_witness :
  scan_peak [[nan; infinity]; [neg_infinity]] = neg_infinity /\
  normalize [[nan; infinity]; [neg_infinity]] = [[nan; nan]; [nan]].
Proof.
  destruct (proj1 (proj2 normalize_all_non_finite) [[nan; infinity]; [neg_infinity]] eq_refl)
    as (Hscan & _ & Hnan).
  split; [exact Hscan | exact Hnan].
Defined.

(** ** One stage instead of two (C9) *)

(** C9, as stated, fails: in [[2^54, 1, 0]] the least finite sample is 0 and
    the one-stage function maps the sample 1 to [1 - 0 = 1], but the centring
    [1 - 2^54] rounds to [-2^54] and the call returns 0 there. *)
Lemma one_stage_counterexample :
  is_min_finite 0%float (samples [[0x1p54; 1; 0]%float]) /\
  at_pos [[0x1p54; 1; 0]%float] 0 1 = Some 1%float /\
  at_pos (normalize [[0x1p54; 1; 0]%float]) 0 1 = Some 0%float /\
  (0 =? 1 - 0)%float = false.
Proof.
  repeat split; try reflexivity.
  - right. right. now left.
  - intros y [<-|[<-|[<-|[]]]] _; reflexivity.
Qed.

(** C9, amended.  With a finite sample in the batch: a non-finite sample
    gives NaN; for a finite sample whose centred value is finite, the clamp
    [Math.max(0, .)] leaves the number it receives numerically unchanged (it
    can only turn [-0] into [+0]); and with [m] the least finite sample, the
    result is [sample - m] up to rounding: it is within one and a half units
    in the last place of the offset of the exact difference, and it equals
    the floating-point [sample - m] whenever the two centring subtractions
    [sample - peak] and [m - peak] are exact. *)
Theorem normalize_one_stage (series : list (list float)) (i j : nat) (v : float) :
  at_pos series i j = Some v ->
  exists y, at_pos (normalize series) i j = Some y /\
    (Number_isFinite v = false -> y = nan) /\
    (Number_isFinite v = true ->
     Number_isFinite (v - peak_of series)%float = true ->
       y = Math_max zero ((v - peak_of series) + offset_of series)%float /\
       (y =? (v - peak_of series) + offset_of series)%float = true /\
       forall m, is_min_finite m (samples series) ->
         Number_isFinite (m - peak_of series)%float = true ->
         2 * Z.abs (val y - (val v - val m)) <= 3 * ulp (offset_of series) /\
         (exact_sub v (peak_of series) -> exact_sub m (peak_of series) ->
          (y =? v - m)%float = true)).
Proof.
  intros H. pose proof (at_pos_samples _ _ _ _ H) as Hv.
  rewrite at_pos_normalize, H. cbn [option_map]. eexists. split; [reflexivity|].
  split; [apply pipeline_not_finite|].
  intros Fv Fc. destruct (pipeline_val series v Hv Fv Fc) as (Fy & Vy & By & _ & Ey).
  split; [|split; trivial].
  { unfold pipeline, normalizedValue, shifted_value. now rewrite Fv, Fc. }
  intros m Hm Fcm.
  assert (Hs : has_finite series = true) by (apply has_finite_spec; eauto).
  pose proof (min_of_centred_min series m Hm Fcm) as Em.
  destruct Hm as (Im & Fm & Um). split.
  - pose proof (centring_error series v Hs Hv Fv Fc).
    pose proof (shift_error series v Hs Hv Fv Fc).
    pose proof (centring_error series m Hs Im Fm Fcm). lia.
  - intros [_ Xv] [_ Xm].
    pose proof (val_offset_of series Hs) as Vo.
    rewrite <- (sub_val_finite v) in Vy by auto with finite.
    rewrite Xv, Em, Xm in Vy.
    replace (val v - val (peak_of series) - (val m - val (peak_of series)))
      with (val v - val m) in Vy by lia.
    destruct (val_finite_props _ (offset_of_finite series)) as [_ Bo].
    destruct (sub_val v m Fv Fm) as [Hf _].
    destruct Hf as [F V]; [rewrite <- Vy; lia|].
    rewrite eqb_val by assumption. apply Z.eqb_eq. lia.
Qed.

Lemma normalize_one_stage_witness :
  exists y, at_pos (normalize [[0; 10]; [5; 5]]%float) 1 0 = Some y /\
            (y =? 5 - 0)%float = true.
Proof.
  destruct (normalize_one_stage [[0; 10]; [5; 5]]%float 1 0 5%float eq_refl)
    as (y & Hy & _ & Hf).
  exists y. split; [exact Hy|].
  refine (proj2 (proj2 (proj2 (Hf eq_refl eq_refl)) 0%float _ eq_refl) _ _).
  - repeat split; try reflexivity; [now left|].
    intros z [<-|[<-|[<-|[<-|[]]]]] _; reflexivity.
  - split; reflexivity.
  - split; reflexivity.
Defined.

(** ** Determinism and purity (C10) *)

(** C10.  Run on a heap where [series] is an array of references to arrays
    of numbers holding [batch], the call succeeds, leaves every object that
    existed before the call as it was (so the input arrays still hold
    [batch]), returns a reference to new arrays holding [normalize batch],
    a function of [batch] alone, and a second call on the same reference
    returns the same batch again. *)
Theorem normalizePlaybackSeries_pure (h : heap) (series : addr) (batch : list (list float)) :
  batch_at h series = Some batch ->
  exists q h',
    normalizePlaybackSeries_js series h = Some (q, h') /\
    (forall a o, nth_error h a = Some o -> nth_error h' a = Some o) /\
    batch_at h' series = Some batch /\
    batch_at h' q = Some (normalize batch) /\
    exists q2 h2,
      normalizePlaybackSeries_js series h' = Some (q2, h2) /\
      batch_at h2 q2 = Some (normalize batch).
Proof.
  intros H. destruct (run_spec h series batch H) as (ext & q & R & _ & B).
  exists q, (h ++ ext). split; [exact R|].
  split; [intros a o Ha; now apply nth_error_old|].
  pose proof (batch_at_ext h ext series batch H) as H'.
  split; [exact H'|]. split; [exact B|].
  destruct (run_spec (h ++ ext) series batch H') as (ext2 & q2 & R2 & _ & B2).
  eauto.
Qed.

Lemma normalizePlaybackSeries_pure_witness :
  exists q h',
    normalizePlaybackSeries_js 2%nat
      [Numbers [Some 0; Some 10]; Numbers [Some 5; Some 5]; Arrays [0; 1; 0]%nat]%float
    = Some (q, h') /\
    batch_at h' 2%nat = Some [[0; 10]; [5; 5]; [0; 10]]%float.
Proof.
  destruct (normalizePlaybackSeries_pure
              [Numbers [Some 0; Some 10]; Numbers [Some 5; Some 5]; Arrays [0; 1; 0]%nat]%float
              2%nat [[0; 10]; [5; 5]; [0; 10]]%float eq_refl)
    as (q & h' & R & _ & B & _).
  exists q, h'. split; [exact R | exact B].
Defined.

(** * Further properties of the code *)

(** ** The [traces] memo *)

Lemma series_of_cases spectra :
  (wet_shown spectra = false /\ series_of spectra = [dryDb spectra]) \/
  (exists wet, wet_shown spectra = true /\ hasIR spectra = true /\
               wetDb spectra = Some wet /\ series_of spectra = [dryDb spectra; wet]).
Proof.
  unfold wet_shown, series_of.
  destruct (hasIR spectra), (wetDb spectra) as [wet|]; cbn; auto.
  right. exists wet. auto.
Qed.

(** The [y] arrays of the traces are the helper's result on the batch. *)
Lemma traces_y spectra :
  map PlotDatum.y (traces (Some spectra)) = normalize (series_of spectra).
Proof.
  unfold traces. fold (normalize (series_of spectra)).
  rewrite normalize_pointwise.
  destruct (series_of_cases spectra) as [(_ & E) | (wet & _ & H & _ & E)]; rewrite E.
  - cbn [map nth_error]. now destruct (hasIR spectra).
  - cbn [map nth_error]. rewrite H. reflexivity.
Qed.

Lemma traces_In_y spectra t v :
  In t (traces (Some spectra)) -> In v (PlotDatum.y t) ->
  In v (samples (normalize (series_of spectra))).
Proof.
  intros Ht Hv. unfold samples. apply in_concat. exists (PlotDatum.y t).
  split; trivial. rewrite <- traces_y. now apply in_map.
Qed.

(** X1. The memo returns no trace for a null [spectra]; otherwise the trace
    "Original (music)" comes first, and the trace "Convolved" follows exactly
    when [hasIR] is set and [wetDb] is present.  The first element of the
    helper's result always exists, so the fallback [arrays[0] ?? []] is never
    taken. *)
Theorem traces_names :
  traces None = [] /\
  forall spectra,
    map PlotDatum.name (traces (Some spectra))
    = (if wet_shown spectra then ["Original (music)"; "Convolved"]
       else ["Original (music)"])%string /\
    nth_error (arrays (normalizePlaybackSeries (series_of spectra))) 0
    = Some (map (pipeline (peak_of (series_of spectra)) (offset_of (series_of spectra)))
                (dryDb spectra)).
Proof.
  split; [reflexivity|]. intros spectra.
  unfold traces. fold (normalize (series_of spectra)).
  rewrite normalize_pointwise.
  generalize (pipeline (peak_of (series_of spectra)) (offset_of (series_of spectra))).
  intros f.
  destruct (series_of_cases spectra) as [(W & E) | (wet & W & H & _ & E)];
    rewrite W, E; cbn [map nth_error].
  - split; [|reflexivity]. now destruct (hasIR spectra).
  - rewrite H. split; reflexivity.
Qed.

(** X2. Every trace has the frequencies as its [x], and its [y] has as many
    points as the dB array it draws: the dry one for the first trace, the wet
    one for the second. *)
Theorem traces_aligned spectra :
  Forall (fun t => PlotDatum.x t = freqs spectra) (traces (Some spectra)) /\
  map (fun t => length (PlotDatum.y t)) (traces (Some spectra))
  = map (@length float) (series_of spectra).
Proof.
  split.
  - unfold traces.
    destruct (hasIR spectra);
      [destruct (nth_error _ 1)|]; repeat constructor.
  - rewrite <- (map_map PlotDatum.y (@length float)), traces_y, normalize_pointwise, map_map.
    apply map_ext. intros arr. apply length_map.
Qed.

(** X3. No plotted value is negative, and when one of the plotted dB values
    is finite some trace touches [+0]: the curves stand on the floor of the
    axis range that starts at 0. *)
Theorem traces_floor spectra :
  (forall t v, In t (traces (Some spectra)) -> In v (PlotDatum.y t) ->
     Number_isFinite v = true -> (zero <=? v)%float = true) /\
  (has_finite (series_of spectra) = true ->
     exists t, In t (traces (Some spectra)) /\ In zero (PlotDatum.y t)).
Proof.
  split.
  - intros t v Ht Hv Fv.
    pose proof (traces_In_y _ _ _ Ht Hv) as Hs.
    rewrite samples_normalize in Hs. apply in_map_iff in Hs as (u & <- & _).
    now apply pipeline_nonneg.
  - intros H. destruct (zero_is_min_result _ H) as (Hz & _).
    unfold samples in Hz. apply in_concat in Hz as (arr & Ha & Hz).
    rewrite <- traces_y in Ha. apply in_map_iff in Ha as (t & <- & Ht).
    now exists t.
Qed.

Lemma pipeline_order series u v :
  In u (samples series) -> In v (samples series) ->
  Number_isFinite (pipeline (peak_of series) (offset_of series) u) = true ->
  Number_isFinite (pipeline (peak_of series) (offset_of series) v) = true ->
  (u <=? v)%float = true ->
  (pipeline (peak_of series) (offset_of series) u
   <=? pipeline (peak_of series) (offset_of series) v)%float = true.
Proof.
  intros Hu Hv Fu Fv L.
  destruct (pipeline_finite_or_nan series u Hu) as (Eu & _).
  destruct (pipeline_finite_or_nan series v Hv) as (Ev & _).
  cbv zeta in Eu, Ev. rewrite Fu in Eu. rewrite Fv in Ev.
  symmetry in Eu, Ev. apply andb_true_iff in Eu as (Iu & Cu), Ev as (Iv & Cv).
  destruct (pipeline_val series u Hu Iu Cu) as (_ & Vu & _).
  destruct (pipeline_val series v Hv Iv Cv) as (_ & Vv & _).
  rewrite leb_val by assumption. rewrite leb_val in L by assumption.
  apply Z.leb_le. apply Z.leb_le in L. rewrite Vu, Vv.
  apply rnd_mono. apply Z.sub_le_mono_r. apply rnd_mono. lia.
Qed.

Lemma pipeline_gap series u v :
  In u (samples series) -> In v (samples series) ->
  Number_isFinite (pipeline (peak_of series) (offset_of series) u) = true ->
  Number_isFinite (pipeline (peak_of series) (offset_of series) v) = true ->
  Z.abs ((val (pipeline (peak_of series) (offset_of series) v)
          - val (pipeline (peak_of series) (offset_of series) u))
         - (val v - val u)) <= 2 * ulp (offset_of series).
Proof.
  intros Hu Hv Fu Fv.
  destruct (pipeline_finite_or_nan series u Hu) as (Eu & _).
  destruct (pipeline_finite_or_nan series v Hv) as (Ev & _).
  cbv zeta in Eu, Ev. rewrite Fu in Eu. rewrite Fv in Ev.
  symmetry in Eu, Ev. apply andb_true_iff in Eu as (Iu & Cu), Ev as (Iv & Cv).
  assert (H : has_finite series = true) by (apply has_finite_spec; eauto).
  pose proof (pipeline_error series u H Hu Iu Cu).
  pose proof (pipeline_error series v H Hv Iv Cv). lia.
Qed.

(** X4. The two curves share one scale.  With the wet spectrum shown, the
    values plotted at a bin are the helper's one mapping applied to the dry
    and to the wet dB value; when both are finite their order is the order of
    the dB values, and their gap is the dB gap to within two units in the last
    place of the offset. *)
Theorem traces_joint_scale spectra wet i d w :
  hasIR spectra = true -> wetDb spectra = Some wet ->
  nth_error (dryDb spectra) i = Some d -> nth_error wet i = Some w ->
  exists td tw yd yw,
    traces (Some spectra) = [td; tw] /\
    nth_error (PlotDatum.y td) i = Some yd /\
    nth_error (PlotDatum.y tw) i = Some yw /\
    (Number_isFinite yd = true -> Number_isFinite yw = true ->
       ((d <=? w)%float = true -> (yd <=? yw)%float = true) /\
       ((w <=? d)%float = true -> (yw <=? yd)%float = true) /\
       Z.abs ((val yw - val yd) - (val w - val d))
       <= 2 * ulp (offset_of [dryDb spectra; wet])).
Proof.
  intros H W Hd Hw.
  assert (E : series_of spectra = [dryDb spectra; wet])
    by (unfold series_of; now rewrite H, W).
  pose proof (traces_y spectra) as Y. rewrite E, normalize_pointwise in Y.
  cbn [map] in Y.
  set (f := pipeline (peak_of [dryDb spectra; wet]) (offset_of [dryDb spectra; wet])) in *.
  destruct (traces (Some spectra)) as [|td [|tw [|]]]; try discriminate.
  cbn [map] in Y. injection Y as Yd Yw.
  exists td, tw, (f d), (f w). split; [reflexivity|].
  rewrite Yd, Yw. split; [now apply map_nth_error|]. split; [now apply map_nth_error|].
  assert (Id : In d (samples [dryDb spectra; wet])).
  { unfold samples. cbn [concat]. apply in_or_app. left. eapply nth_error_In; eassumption. }
  assert (Iw : In w (samples [dryDb spectra; wet])).
  { unfold samples. cbn [concat]. apply in_or_app. right. apply in_or_app. left.
    eapply nth_error_In; eassumption. }
  intros Fd Fw. repeat split.
  - now apply pipeline_order.
  - now apply pipeline_order.
  - now apply pipeline_gap.
Qed.

Lemma traces_joint_scale_witness :
  exists td tw yd yw,
    traces (Some {| freqs := [100; 200]%float; dryDb := [-3; -10]%float;
                    wetDb := Some [-5; 2]%float; hasIR := true |}) = [td; tw] /\
    nth_error (PlotDatum.y td) 1 = Some yd /\
    nth_error (PlotDatum.y tw) 1 = Some yw /\
    (Number_isFinite yd = true -> Number_isFinite yw = true ->
       ((-10 <=? 2)%float = true -> (yd <=? yw)%float = true) /\
       ((2 <=? -10)%float = true -> (yw <=? yd)%float = true) /\
       Z.abs ((val yw - val yd) - (val 2%float - val (-10)%float))
       <= 2 * ulp (offset_of [[-3; -10]%float; [-5; 2]%float])).
Proof.
  apply (traces_joint_scale
           {| freqs := [100; 200]%float; dryDb := [-3; -10]%float;
              wetDb := Some [-5; 2]%float; hasIR := true |}
           [-5; 2]%float 1%nat (-10)%float 2%float); reflexivity.
Defined.

(** ** The arrangement of the samples does not matter *)

Lemma samples_permutation (b b' : list (list float)) :
  Permutation b b' -> Permutation (samples b) (samples b').
Proof.
  unfold samples. induction 1 as [|arr l l' _ IH|a1 a2 l|l l' l'' _ IH1 _ IH2]; cbn [concat].
  - constructor.
  - now apply Permutation_app_head.
  - rewrite !app_assoc. apply Permutation_app_tail, Permutation_app_comm.
  - now transitivity (concat l').
Qed.

Lemma has_finite_permutation b b' :
  Permutation (samples b) (samples b') -> has_finite b = has_finite b'.
Proof.
  intros P. unfold has_finite.
  destruct (existsb Number_isFinite (samples b')) eqn:E.
  - apply existsb_exists in E as (v & Hv & Fv). apply existsb_exists. exists v.
    split; trivial. apply Permutation_in with (samples b'); [now symmetry | trivial].
  - destruct (existsb Number_isFinite (samples b)) eqn:E'; trivial.
    apply existsb_exists in E' as (v & Hv & Fv).
    assert (X : existsb Number_isFinite (samples b') = true)
      by (apply existsb_exists; exists v; split; [eapply Permutation_in; eassumption | trivial]).
    congruence.
Qed.

(** The least centred value of two batches with the same finite samples,
    centred on peaks of equal value. *)
Lemma min_centred_congr b b' p p' m m' :
  (forall v, In v (samples b) -> In v (samples b')) ->
  Number_isFinite p = true -> Number_isFinite p' = true -> val p = val p' ->
  is_min_finite m (centred_by p b) -> is_min_finite m' (centred_by p' b') ->
  val m' <= val m.
Proof.
  intros Sub Fp Fp' Vp (Im & Fm & _) (_ & Fm' & Lm').
  unfold centred_by in Im. apply in_map_iff in Im as (v & <- & Hv).
  apply filter_In in Hv as (Hv & Fv).
  destruct (sub_val_congr v p p' Fv Fp Fp' Vp) as (EF & EV).
  rewrite Fm in EF. symmetry in EF.
  assert (I' : In (v - p')%float (centred_by p' b')).
  { unfold centred_by. apply in_map_iff. exists v. split; trivial.
    apply filter_In. split; auto. }
  specialize (Lm' _ I' EF). rewrite leb_val in Lm' by assumption.
  apply Z.leb_le in Lm'. lia.
Qed.

(** Two calls that agree on the value of the peak and of the minimum give a
    sample the same result. *)
Lemma pipeline_congr b b' v :
  In v (samples b) -> In v (samples b') ->
  val (peak_of b) = val (peak_of b') ->
  (has_finite b = true -> val (min_of b) = val (min_of b')) ->
  pipeline (peak_of b') (offset_of b') v = pipeline (peak_of b) (offset_of b) v.
Proof.
  intros Hv Hv' Vp Vm.
  destruct (Number_isFinite v) eqn:Fv; [|now rewrite !pipeline_not_finite].
  assert (H : has_finite b = true) by (apply has_finite_spec; eauto).
  specialize (Vm H).
  pose proof (peak_of_finite b) as Fp. pose proof (peak_of_finite b') as Fp'.
  destruct (sub_val_congr v _ _ Fv Fp Fp' Vp) as (EF & EV).
  destruct (Number_isFinite (v - peak_of b)%float) eqn:Fc.
  - symmetry in EF.
    destruct (pipeline_val b v Hv Fv Fc) as (Fy & Vy & _ & Ny & _).
    destruct (pipeline_val b' v Hv' Fv EF) as (Fy' & Vy' & _ & Ny' & _).
    apply finite_eq_of_val; trivial.
    now rewrite Vy, Vy', <- Vp, Vm.
  - symmetry in EF. now rewrite !pipeline_overflow.
Qed.

Lemma pipeline_rearranged b b' v :
  Permutation (samples b) (samples b') -> In v (samples b) ->
  pipeline (peak_of b') (offset_of b') v = pipeline (peak_of b) (offset_of b) v.
Proof.
  intros P Hv.
  assert (Hv' : In v (samples b')) by (eapply Permutation_in; eassumption).
  assert (Sub : forall u, In u (samples b) -> In u (samples b'))
    by (intros u Hu; eapply Permutation_in; eassumption).
  assert (Sub' : forall u, In u (samples b') -> In u (samples b))
    by (intros u Hu; apply Permutation_in with (samples b'); [now symmetry | trivial]).
  assert (HH : has_finite b = true -> has_finite b' = true)
    by (intros H; now rewrite <- (has_finite_permutation b b' P)).
  assert (Vp : has_finite b = true -> val (peak_of b) = val (peak_of b')).
  { intros H. pose proof (peak_of_is_max b H) as M.
    pose proof (peak_of_is_max b' (HH H)) as (I' & F' & L').
    apply is_max_finite_val with (samples b); trivial.
    repeat split; auto. }
  destruct (has_finite b) eqn:H.
  - apply pipeline_congr; auto. intros _.
    pose proof (min_of_is_min b H) as Mn. pose proof (min_of_is_min b' (HH eq_refl)) as Mn'.
    pose proof (peak_of_finite b) as Fp. pose proof (peak_of_finite b') as Fp'.
    specialize (Vp eq_refl).
    pose proof (min_centred_congr b b' _ _ _ _ Sub Fp Fp' Vp Mn Mn').
    pose proof (min_centred_congr b' b _ _ _ _ Sub' Fp' Fp (eq_sym Vp) Mn' Mn).
    lia.
  - rewrite !pipeline_not_finite; trivial; now apply (has_finite_false b).
Qed.

(** X5. The result of a sample depends on the samples of the batch, not on
    how they are arranged: when two batches hold the same samples, in any
    order and split into series in any way, a call on the second gives each
    of its samples the value that the call on the first gives it.  So every
    series gets the same result wherever it stands in the batch. *)
Theorem normalize_rearranged b b' :
  Permutation (samples b) (samples b') ->
  normalize b' = map (map (pipeline (peak_of b) (offset_of b))) b'.
Proof.
  intros P. rewrite normalize_pointwise.
  apply map_ext_in. intros arr Ha. apply map_ext_in. intros v Hv.
  apply pipeline_rearranged; trivial.
  apply Permutation_in with (samples b'); [now symmetry|].
  unfold samples. apply in_concat. eauto.
Qed.

Lemma normalize_rearranged_witness :
  normalize [[5; 5]; [0; 10]]%float
  = map (map (pipeline (peak_of [[0; 10]; [5; 5]]%float) (offset_of [[0; 10]; [5; 5]]%float)))
        [[5; 5]; [0; 10]]%float.
Proof.
  apply (normalize_rearranged [[0; 10]; [5; 5]]%float [[5; 5]; [0; 10]]%float).
  apply (samples_permutation [[0; 10]; [5; 5]]%float [[5; 5]; [0; 10]]%float).
  apply perm_swap.
Defined.

(** X6. Reversing the order of the series reverses the order of the results:
    each series keeps its own result. *)
Theorem normalize_rev (b : list (list float)) :
  normalize (rev b) = rev (normalize b).
Proof.
  rewrite !normalize_pointwise, <- map_rev.
  apply map_ext_in. intros arr Ha. apply map_ext_in. intros v Hv.
  apply pipeline_rearranged.
  - apply samples_permutation, Permutation_rev.
  - apply in_rev in Ha. unfold samples. apply in_concat. eauto.
Qed.

(** ** A series within the range of the batch *)

Lemma samples_app b b' : samples (b ++ b') = samples b ++ samples b'.
Proof. unfold samples. apply concat_app. Qed.

(** X7. A series that stays within the range of the batch does not move the
    others.  When every finite sample of the added series lies between the
    peak of the batch and some sample of the batch whose centred value is
    finite, the call on the larger batch gives the series of the batch the
    results of the call on the batch alone. *)
Theorem normalize_extend b extra :
  has_finite b = true ->
  (forall w, In w (samples extra) -> Number_isFinite w = true ->
     (w <=? peak_of b)%float = true /\
     exists lo, In lo (samples b) /\ Number_isFinite lo = true /\
                Number_isFinite (lo - peak_of b)%float = true /\
                (lo <=? w)%float = true) ->
  firstn (length b) (normalize (b ++ extra)) = normalize b.
Proof.
  intros H R.
  assert (Sub : forall u, In u (samples b) -> In u (samples (b ++ extra)))
    by (intros u Hu; rewrite samples_app; apply in_or_app; now left).
  assert (H' : has_finite (b ++ extra) = true).
  { apply has_finite_spec. apply has_finite_spec in H as (v & Hv & Fv). eauto. }
  pose proof (peak_of_finite b) as Fp. pose proof (peak_of_finite (b ++ extra)) as Fp'.
  assert (Vp : val (peak_of b) = val (peak_of (b ++ extra))).
  { apply is_max_finite_val with (samples (b ++ extra)); [|now apply peak_of_is_max].
    destruct (peak_of_is_max b H) as (I & F & L). repeat split; auto.
    intros y Hy Fy. rewrite samples_app in Hy. apply in_app_or in Hy as [Hy|Hy]; auto.
    now apply R. }
  assert (Vm : val (min_of b) = val (min_of (b ++ extra))).
  { pose proof (min_of_is_min b H) as Mn. pose proof (min_of_is_min _ H') as Mn'.
    pose proof (min_centred_congr b (b ++ extra) _ _ _ _ Sub Fp Fp' Vp Mn Mn').
    destruct Mn' as (Im & Fm & _). unfold centred_by in Im.
    apply in_map_iff in Im as (v & Ev & Hv). apply filter_In in Hv as (Hv & Fv).
    destruct (sub_val_congr v _ _ Fv Fp' Fp (eq_sym Vp)) as (EF & EV).
    rewrite Ev, Fm in EF. symmetry in EF. rewrite Ev in EV.
    rewrite samples_app in Hv. apply in_app_or in Hv as [Hv|Hv].
    - pose proof (min_of_min b v Hv Fv EF). lia.
    - destruct (R v Hv Fv) as (_ & lo & Hlo & Flo & Clo & Llo).
      pose proof (min_of_min b lo Hlo Flo Clo).
      rewrite leb_val in Llo by assumption. apply Z.leb_le in Llo.
      destruct (sub_val_cases v (peak_of b) Fv Fp) as [(_ & Vv & _) | (X & _)]; [|congruence].
      destruct (sub_val_cases lo (peak_of b) Flo Fp) as [(_ & Vl & _) | (X & _)]; [|congruence].
      assert (rnd (val lo - val (peak_of b)) <= rnd (val v - val (peak_of b)))
        by (apply rnd_mono; lia).
      lia. }
  rewrite !normalize_pointwise, map_app, firstn_app, length_map, Nat.sub_diag, firstn_0, app_nil_r.
  rewrite firstn_all2 by (rewrite length_map; lia).
  apply map_ext_in. intros arr Ha. apply map_ext_in. intros v Hv.
  assert (Iv : In v (samples b)) by (unfold samples; apply in_concat; eauto).
  apply pipeline_congr; auto.
Qed.

Lemma normalize_extend_witness :
  firstn 1 (normalize ([[0; 10]] ++ [[5; 5]]))%float = normalize [[0; 10]]%float.
Proof.
  apply (normalize_extend [[0; 10]]%float [[5; 5]]%float); [reflexivity|].
  intros w Hw _. cbn in Hw.
  assert (E : w = 5%float) by (destruct Hw as [<- | [<- | []]]; reflexivity).
  subst w. split; [reflexivity|].
  exists 0%float. repeat split; try reflexivity. now left.
Defined.

(** ** The arrays of the result are new objects *)

Local Open Scope nat_scope.

(** [arr.map(callback)] returns a new array whose elements are the arrays
    made by the callback, one allocation after the other. *)
Lemma map_js_refs {St : Type} (f : float -> float) (g : St -> float -> St)
  h p ps batch (st : St) :
  nth_error h p = Some (Arrays ps) ->
  Forall2 (fun p arr => nth_error h p = Some (Numbers (map Some arr))) ps batch ->
  exists ext,
    map_js (map_callback f g) p st h
    = Some ((length h + length ps, fold_left g (map f (concat batch)) st), h ++ ext) /\
    length ext = Datatypes.S (length ps) /\
    nth_error (h ++ ext) (length h + length ps)
    = Some (Arrays (seq (length h) (length ps))) /\
    Forall2 (fun p arr => nth_error (h ++ ext) p = Some (Numbers (map Some arr)))
            (seq (length h) (length ps)) (map (map f) batch).
Proof.
  intros Hp Hb. unfold map_js.
  assert (R : refs_of p h = Some (ps, h)) by (unfold refs_of; now rewrite Hp).
  js_step R.
  pose proof (map_loop f g h ps batch Hb [] [] st) as L.
  rewrite app_nil_r in L. cbn [app length] in L. rewrite Nat.add_0_r in L.
  js_step L. cbn [fst snd].
  set (M := map (fun arr => Numbers (map Some (map f arr))) batch).
  assert (LM : length M = length ps).
  { unfold M. rewrite length_map. symmetry. eapply Forall2_length; eassumption. }
  exists (M ++ [Arrays (seq (length h) (length ps))]).
  unfold alloc, bind, ret. rewrite !length_app, LM. cbn [length].
  split; [now rewrite app_assoc|]. split; [lia|]. split.
  - rewrite app_assoc. rewrite <- LM, <- length_app. apply nth_error_new.
  - assert (E : length ps = length (map (map f) batch))
      by (rewrite length_map; eapply Forall2_length; eassumption).
    rewrite E. unfold M.
    replace (map (fun arr => Numbers (map Some (map f arr))) batch)
      with (map (fun arr => Numbers (map Some arr)) (map (map f) batch))
      by (now rewrite map_map).
    apply holds_fresh.
Qed.

(** X8. The call returns new objects only.  The array it returns and every
    array inside it were allocated by the call, the inner arrays are pairwise
    distinct objects, none of them the returned array; this also holds when
    the batch holds the same input array more than once. *)
Theorem result_arrays_fresh h p batch :
  batch_at h p = Some batch ->
  exists q h' refs,
    normalizePlaybackSeries_js p h = Some (q, h') /\
    nth_error h' q = Some (Arrays refs) /\
    length refs = length batch /\
    length h <= q /\
    Forall (fun r => length h <= r) refs /\
    NoDup (q :: refs).
Proof.
  intros H. destruct (batch_at_inv _ _ _ H) as (ps & Hp & Hb).
  pose proof (Forall2_length Hb) as Len. unfold addr in *.
  unfold normalizePlaybackSeries_js.
  assert (L : array_length p h = Some (length ps, h))
    by (unfold array_length; now rewrite Hp).
  js_step L.
  destruct (Nat.eqb_spec (length ps) 0) as [E|E].
  - exists (length h), (h ++ [Arrays []]), []. unfold alloc.
    split; [reflexivity|]. split; [apply nth_error_new|].
    split; [cbn; lia|]. split; [lia|]. split; [constructor|].
    constructor; [intros []|constructor].
  - js_step (scan_peak_js_spec h p ps batch Hp Hb).
    fold (peak_of batch).
    destruct (map_js_refs (normalizedValue (peak_of batch)) min_step h p ps batch infinity Hp Hb)
      as (ext1 & R1 & L1 & N1 & B1).
    js_step R1. cbn [fst snd].
    destruct (map_js_refs (shifted_value (if Number_isFinite
                                               (fold_left min_step
                                                  (map (normalizedValue (peak_of batch)) (concat batch))
                                                  infinity)
                                          then (- fold_left min_step
                                                    (map (normalizedValue (peak_of batch)) (concat batch))
                                                    infinity)%float
                                          else zero))
                (fun (_ : unit) _ => tt)
                (h ++ ext1) _ _ _ tt N1 B1) as (ext2 & R2 & L2 & N2 & B2).
    js_step R2. cbn [fst]. unfold ret.
    rewrite length_seq, length_app, L1 in *.
    eexists _, _, _. split; [reflexivity|]. split; [exact N2|].
    rewrite length_seq. split; [exact Len|]. split; [lia|]. split.
    + apply Forall_forall. intros r Hr. apply in_seq in Hr. lia.
    + constructor.
      * intros Hr. apply in_seq in Hr. lia.
      * apply seq_NoDup.
Qed.

Lemma result_arrays_fresh_witness :
  exists q h' refs,
    normalizePlaybackSeries_js 2
      [Numbers [Some 0; Some 10]; Numbers [Some 5; Some 5]; Arrays [0; 1; 0]%nat]%float
    = Some (q, h') /\
    nth_error h' q = Some (Arrays refs) /\
    3 <= q /\ NoDup (q :: refs).
Proof.
  destruct (result_arrays_fresh
              [Numbers [Some 0; Some 10]; Numbers [Some 5; Some 5]; Arrays [0; 1; 0]%nat]%float
              2 [[0; 10]; [5; 5]; [0; 10]]%float eq_refl)
    as (q & h' & refs & R & N & _ & L & _ & D).
  exists q, h', refs. repeat split; assumption.
Defined.

Local Close Scope nat_scope.

(** ** The heap run on arrays with holes *)

Local Open Scope nat_scope.

Lemma peak_step_nan peak : peak_step peak nan = peak.
Proof. reflexivity. Qed.

Lemma all_filled_inv h ps batch :
  all_filled h ps = Some batch ->
  exists slots,
    batch = map filled slots /\
    Forall2 (fun p s => nth_error h p = Some (Numbers s)) ps slots.
Proof.
  revert batch. induction ps as [|p tl IH]; intros batch H; cbn [all_filled] in H.
  - injection H as <-. exists []. split; [reflexivity | constructor].
  - destruct (nth_error h p) as [[s|r]|] eqn:E; try discriminate.
    destruct (all_filled h tl) as [r|]; [|discriminate].
    injection H as <-. destruct (IH r eq_refl) as (slots & -> & F).
    exists (s :: slots). split; [reflexivity | now constructor].
Qed.

Lemma nth_middle_slot (pre post : list (option float)) c :
  nth (length pre) (pre ++ c :: post) None = c.
Proof. rewrite app_nth2, Nat.sub_diag by lia. reflexivity. Qed.

Lemma scan_sparse_loop h arr_ref pre post peak :
  nth_error h arr_ref = Some (Numbers (pre ++ post)) ->
  for_each (seq (length pre) (length post))
    (fun peak i =>
       bind (get arr_ref i) (fun value =>
         ret (match value with Some x => peak_step peak x | None => peak end)))
    peak h
  = Some (fold_left peak_step (filled post) peak, h).
Proof.
  intros H. revert pre peak H. induction post as [|c post IH]; intros pre peak H.
  - reflexivity.
  - cbn [length seq for_each filled map fold_left].
    assert (G : get arr_ref (length pre) h = Some (c, h)).
    { unfold get. rewrite H. now rewrite nth_middle_slot. }
    js_step G.
    specialize (IH (pre ++ [c])).
    rewrite length_app, Nat.add_1_r, <- app_assoc in IH.
    destruct c as [x|]; [|rewrite peak_step_nan]; now apply IH.
Qed.

Lemma scan_peak_sparse h p ps slots :
  nth_error h p = Some (Arrays ps) ->
  Forall2 (fun p s => nth_error h p = Some (Numbers s)) ps slots ->
  scan_peak_js p h = Some (scan_peak (map filled slots), h).
Proof.
  intros Hp Hb. unfold scan_peak_js, scan_peak.
  assert (R : refs_of p h = Some (ps, h)) by (unfold refs_of; now rewrite Hp).
  js_step R. clear R Hp.
  generalize neg_infinity. induction Hb as [|a s ps slots Ha _ IH]; intros peak.
  - reflexivity.
  - cbn [for_each map fold_left].
    assert (L : array_length a h = Some (length s, h))
      by (unfold array_length; now rewrite Ha).
    js_step L. js_step (scan_sparse_loop h a [] s peak Ha). apply IH.
Qed.

Section SparseMap.
Context {St : Type}.
Variable f : float -> float.
Variable g : St -> float -> St.
Hypothesis f_nan : f nan = nan.

Lemma fill_sparse_loop h src pre post (st : St) :
  nth_error h src = Some (Numbers (pre ++ post)) ->
  for_each (seq (length pre) (length post))
    (fun st i =>
       bind (get src i) (fun value =>
         let nv := match value with Some x => f x | None => nan end in
         bind (put (length h) i nv) (fun _ => ret (g st nv))))
    st (h ++ [Numbers (map Some (map f (filled pre)) ++ repeat None (length post))])
  = Some (fold_left g (map f (filled post)) st,
          h ++ [Numbers (map Some (map f (filled (pre ++ post))))]).
Proof.
  intros H. revert pre st H. induction post as [|c post IH]; intros pre st H.
  - cbn [length seq for_each repeat filled map fold_left]. unfold ret.
    now rewrite !app_nil_r.
  - cbn [length seq for_each repeat filled map fold_left].
    set (x := match c with Some x => x | None => nan end).
    assert (G : get src (length pre)
                  (h ++ [Numbers (map Some (map f (filled pre)) ++ None :: repeat None (length post))])
                = Some (c, h ++ [Numbers (map Some (map f (filled pre)) ++ None :: repeat None (length post))])).
    { unfold get. rewrite (nth_error_old _ _ _ _ H). now rewrite nth_middle_slot. }
    js_step G. cbv beta iota zeta.
    assert (E : match c with Some x => f x | None => nan end = f x)
      by (unfold x; destruct c; [reflexivity | now rewrite f_nan]).
    rewrite E.
    assert (P : put (length h) (length pre) (f x)
                  (h ++ [Numbers (map Some (map f (filled pre)) ++ None :: repeat None (length post))])
                = Some (tt, h ++ [Numbers (map Some (map f (filled (pre ++ [c]))) ++ repeat None (length post))])).
    { unfold put. rewrite nth_error_new, update_new. do 4 f_equal.
      replace (length pre) with (length (map Some (map f (filled pre))))
        by (unfold filled; now rewrite !length_map).
      unfold filled. rewrite store_slot_hole, !map_app, <- app_assoc. reflexivity. }
    js_step P.
    specialize (IH (pre ++ [c]) (g st (f x))).
    rewrite length_app, Nat.add_1_r, <- app_assoc in IH. apply IH. exact H.
Qed.

Lemma map_callback_sparse h src s (st : St) :
  nth_error h src = Some (Numbers s) ->
  map_callback f g st src h
  = Some ((length h, fold_left g (map f (filled s)) st),
          h ++ [Numbers (map Some (map f (filled s)))]).
Proof.
  intros H. unfold map_callback.
  assert (L : array_length src h = Some (length s, h))
    by (unfold array_length; now rewrite H).
  js_step L.
  assert (N : new_Array (length s) h
              = Some (length h, h ++ [Numbers (repeat None (length s))])) by reflexivity.
  js_step N.
  pose proof (fill_sparse_loop h src [] s st H) as F. cbn [length filled map app] in F.
  js_step F. reflexivity.
Qed.

Lemma map_sparse_loop h ps slots :
  Forall2 (fun p s => nth_error h p = Some (Numbers s)) ps slots ->
  forall ext acc (st : St),
  for_each ps
    (fun acc source =>
       bind (map_callback f g (snd acc) source) (fun r =>
         ret (fst acc ++ [fst r], snd r)))
    (acc, st) (h ++ ext)
  = Some ((acc ++ seq (length h + length ext) (length ps),
           fold_left g (map f (concat (map filled slots))) st),
          h ++ ext ++ map (fun arr => Numbers (map Some (map f arr))) (map filled slots)).
Proof.
  induction 1 as [|p s ps slots Hp _ IH]; intros ext acc st.
  - cbn [for_each length seq concat map fold_left]. unfold ret. now rewrite !app_nil_r.
  - cbn [for_each length seq concat map].
    pose proof (map_callback_sparse (h ++ ext) p s st (nth_error_old _ _ _ _ Hp)) as C.
    cbn [snd]. js_step C. cbn [fst snd].
    rewrite <- app_assoc. rewrite (IH (ext ++ [Numbers (map Some (map f (filled s)))])).
    rewrite !length_app, map_app, fold_left_app. cbn [length].
    rewrite <- !app_assoc. cbn [app].
    replace (length h + (length ext + 1)) with (Datatypes.S (length h + length ext)) by lia.
    reflexivity.
Qed.

(** [arr.map(callback)] on arrays with holes: the arrays it makes are
    dense. *)
Lemma map_js_sparse h p ps slots (st : St) :
  nth_error h p = Some (Arrays ps) ->
  Forall2 (fun p s => nth_error h p = Some (Numbers s)) ps slots ->
  exists ext q,
    map_js (map_callback f g) p st h
    = Some ((q, fold_left g (map f (concat (map filled slots))) st), h ++ ext) /\
    length h <= q /\
    batch_at (h ++ ext) q = Some (map (map f) (map filled slots)).
Proof.
  intros Hp Hb. unfold map_js.
  assert (R : refs_of p h = Some (ps, h)) by (unfold refs_of; now rewrite Hp).
  js_step R.
  pose proof (map_sparse_loop h ps slots Hb [] [] st) as L.
  rewrite app_nil_r in L. cbn [app length] in L. rewrite Nat.add_0_r in L.
  js_step L. cbn [fst snd].
  set (M := map (fun arr => Numbers (map Some (map f arr))) (map filled slots)).
  exists (M ++ [Arrays (seq (length h) (length ps))]), (length h + length M).
  unfold alloc, bind, ret. rewrite length_app. split; [now rewrite app_assoc|].
  split; [lia|].
  unfold batch_at.
  rewrite app_assoc, <- length_app, nth_error_new.
  apply all_numbers_intro.
  assert (E : length ps = length (map (map f) (map filled slots)))
    by (rewrite !length_map; eapply Forall2_length; eassumption).
  rewrite E. unfold M. rewrite <- app_assoc.
  replace (map (fun arr => Numbers (map Some (map f arr))) (map filled slots))
    with (map (fun arr => Numbers (map Some arr)) (map (map f) (map filled slots)))
    by (now rewrite map_map).
  apply holds_fresh.
Qed.

End SparseMap.

(** X9. Holes are read as NaN.  On a batch whose arrays may have missing
    elements the call returns, leaves every object of the heap as it was, and
    its result is dense: it is the result for the batch with NaN in the place
    of every hole, so a hole gives NaN at its index and changes no other
    value. *)
Theorem run_with_holes h p batch :
  sparse_batch_at h p = Some batch ->
  exists ext q,
    normalizePlaybackSeries_js p h = Some (q, h ++ ext) /\
    length h <= q /\
    batch_at (h ++ ext) q = Some (normalize batch).
Proof.
  unfold sparse_batch_at. destruct (nth_error h p) as [[s|ps]|] eqn:Hp; try discriminate.
  intros H. apply all_filled_inv in H as (slots & -> & Hb).
  unfold normalizePlaybackSeries_js.
  assert (L : array_length p h = Some (length ps, h))
    by (unfold array_length; now rewrite Hp).
  js_step L.
  destruct (Nat.eqb_spec (length ps) 0) as [E|E].
  - exists [Arrays []], (length h). unfold alloc. split; [reflexivity|]. split; [lia|].
    destruct ps; [|discriminate]. inversion Hb. subst.
    unfold batch_at. now rewrite nth_error_new.
  - js_step (scan_peak_sparse h p ps slots Hp Hb).
    set (batch := map filled slots). fold (peak_of batch).
    destruct (map_js_sparse (normalizedValue (peak_of batch)) min_step eq_refl
                h p ps slots infinity Hp Hb) as (ext1 & c & R1 & Lc & B1).
    fold batch in R1, B1.
    js_step R1. cbn [fst snd].
    rewrite <- min_of_fold. fold (offset_of batch).
    destruct (batch_at_inv _ _ _ B1) as (ps1 & Hp1 & Hb1).
    destruct (map_js_spec (shifted_value (offset_of batch)) (fun (_ : unit) _ => tt)
                (h ++ ext1) c ps1 _ tt Hp1 Hb1) as (ext2 & q & R2 & Lq & B2).
    js_step R2. cbn [fst]. unfold ret.
    exists (ext1 ++ ext2), q. rewrite app_assoc. split; [reflexivity|].
    split; [rewrite length_app in Lq; lia|].
    rewrite B2. f_equal. symmetry. apply normalize_two_maps.
    intros X. unfold batch in X. apply map_eq_nil in X. subst slots.
    inversion Hb. subst. now apply E.
Qed.

Lemma run_with_holes_witness :
  exists ext q,
    normalizePlaybackSeries_js 1 [Numbers [Some 10; None; Some (-5)]; Arrays [0]%nat]%float
    = Some (q, [Numbers [Some 10; None; Some (-5)]; Arrays [0]%nat]%float ++ ext) /\
    batch_at ([Numbers [Some 10; None; Some (-5)]; Arrays [0]%nat]%float ++ ext) q
    = Some [[15; nan; 0]]%float.
Proof.
  destruct (run_with_holes [Numbers [Some 10; None; Some (-5)]; Arrays [0]%nat]%float 1
              [[10; nan; -5]]%float eq_refl) as (ext & q & R & _ & B).
  exists ext, q. split; [exact R | exact B].
Defined.

Local Close Scope nat_scope.

(** ** Texts: prefixes and occurrences *)

Local Open Scope nat_scope.

Lemma startswith_iff t p : Py.startswith t p = true <-> exists r, t = p ++ r.
Proof.
  revert t. induction p as [|c p IH]; intros t; cbn [Py.startswith].
  - split; [intros _; now exists t | reflexivity].
  - destruct t as [|d t].
    + split; [discriminate | intros (r & E); discriminate].
    + rewrite andb_true_iff, N.eqb_eq, IH. split.
      * intros (-> & r & ->). now exists r.
      * intros (r & E). injection E as -> ->. split; [reflexivity | now exists r].
Qed.

Lemma startswith_app p r : Py.startswith (p ++ r) p = true.
Proof. apply startswith_iff. now exists r. Qed.

Lemma compat_app a x b y : a ++ x = b ++ y -> compat a b = true.
Proof.
  intros E. apply app_eq_app in E as (l & [(-> & _) | (-> & _)]); unfold compat.
  - now rewrite startswith_app.
  - now rewrite startswith_app, orb_true_r.
Qed.

Lemma compat_sym a b : compat a b = compat b a.
Proof. apply orb_comm. Qed.

Lemma nonempty_true s : nonempty s = true <-> s <> [].
Proof. destruct s; cbn; split; congruence. Qed.

Lemma In_suffixes s l : In s (suffixes l) <-> exists p, l = p ++ s.
Proof.
  induction l as [|c l IH].
  - cbn. split.
    + intros [<- | []]. now exists [].
    + intros (p & E). left. symmetry in E. apply app_eq_nil in E. now destruct E.
  - cbn [suffixes In]. rewrite IH. split.
    + intros [<- | (p & ->)]; [now exists [] | now exists (c :: p)].
    + intros ([|d p] & E); cbn in E; [now left|].
      injection E as -> ->. right. now exists p.
Qed.

Lemma In_proper_suffixes s l :
  In s (tl (suffixes l)) <-> exists p, p <> [] /\ l = p ++ s.
Proof.
  destruct l as [|c l]; cbn [suffixes tl].
  - split; [intros [] | intros (p & Hp & E)].
    symmetry in E. apply app_eq_nil in E. now destruct E.
  - rewrite In_suffixes. split.
    + intros (p & ->). exists (c :: p). split; [discriminate | reflexivity].
    + intros ([|d p] & Hp & E); [congruence|].
      injection E as -> ->. now exists p.
Qed.

Lemma border_false m y l l' :
  border m y = false -> m = l ++ l' -> l <> [] -> l' <> [] -> compat l' y = false.
Proof.
  intros B E Hl Hl'. unfold border in B.
  destruct (compat l' y) eqn:C; trivial.
  assert (X : existsb (fun s => nonempty s && compat s y) (tl (suffixes m)) = true).
  { apply existsb_exists. exists l'. split.
    - apply In_proper_suffixes. now exists l.
    - rewrite C, andb_true_r. now apply nonempty_true. }
  congruence.
Qed.

Lemma inside_false m y l l' :
  inside m y = false -> y = l ++ l' -> l' <> [] -> compat l' m = false.
Proof.
  intros B E Hl'. unfold inside in B.
  destruct (compat l' m) eqn:C; trivial.
  assert (X : existsb (fun s => nonempty s && compat s m) (suffixes y) = true).
  { apply existsb_exists. exists l'. split.
    - apply In_suffixes. now exists l.
    - rewrite C, andb_true_r. now apply nonempty_true. }
  congruence.
Qed.

Lemma apart_inv m y : apart m y = true -> border m y = false /\ inside m y = false.
Proof.
  unfold apart. rewrite andb_true_iff, !negb_true_iff. trivial.
Qed.

Lemma occurs_app_l m u w : occurs m u -> occurs m (u ++ w).
Proof. intros (p & q & ->). exists p, (q ++ w). now rewrite <- !app_assoc. Qed.

Lemma occurs_app_r m u w : occurs m w -> occurs m (u ++ w).
Proof. intros (p & q & ->). exists (u ++ p), q. now rewrite <- !app_assoc. Qed.



(** An occurrence of [m] in [u ++ y ++ w], when [m] and [y] stay apart, lies
    in [u] or in [w]. *)
Lemma occurs_split m y u w :
  apart m y = true -> occurs m (u ++ y ++ w) -> occurs m u \/ occurs m w.
Proof.
  intros A (p & q & E). apply apart_inv in A as (B & I).
  apply app_eq_app in E as (l & [(-> & E) | (-> & E)]).
  - apply app_eq_app in E as (l' & [(Em & E) | (-> & _)]).
    + destruct l' as [|c l'].
      * rewrite app_nil_r in Em. subst l. left. exists p, []. now rewrite app_nil_r.
      * destruct l as [|d l].
        -- cbn [app] in Em. subst m.
           destruct y as [|e y].
           ++ right. cbn [app] in E. rewrite E. exists [], q. reflexivity.
           ++ pose proof (inside_false _ _ [] (e :: y) I eq_refl ltac:(discriminate)) as C.
              rewrite (compat_app _ _ _ _ E) in C. discriminate.
        -- pose proof (border_false _ _ _ _ B Em ltac:(discriminate) ltac:(discriminate)) as C.
           rewrite compat_sym, (compat_app _ _ _ _ E) in C. discriminate.
    + left. exists p, l'. reflexivity.
  - apply app_eq_app in E as (l' & [(Ey & E) | (-> & ->)]).
    + destruct l' as [|c l'].
      * right. cbn [app] in E. rewrite <- E. exists [], q. reflexivity.
      * pose proof (inside_false _ _ _ _ I Ey ltac:(discriminate)) as C.
        rewrite compat_sym, (compat_app _ _ _ _ E) in C. discriminate.
    + right. exists l', q. reflexivity.
Qed.

(** ** What [replace] does *)

Lemma scan_skip old new x v k :
  Py.replace_scan old new (x ++ v) (length x + k) = Py.replace_scan old new v k.
Proof.
  induction x as [|c x IH]; [reflexivity|]. cbn [app length Nat.add Py.replace_scan].
  exact IH.
Qed.

Section Replace.
Variables old new : str.
Hypothesis old_nonempty : old <> [].

Local Abbreviation R t := (Py.replace_scan old new t 0).

Lemma free_tl c u w : free old (c :: u) w -> free old u w.
Proof. intros F u1 u2 E N. apply (F (c :: u1) u2); [now rewrite E | trivial]. Qed.

Lemma scan_copy u w : free old u w -> R (u ++ w) = u ++ R w.
Proof.
  induction u as [|c u IH]; intros F; [reflexivity|].
  cbn [app Py.replace_scan].
  change (c :: u ++ w) with ((c :: u) ++ w).
  rewrite (F [] (c :: u) eq_refl ltac:(discriminate)).
  f_equal. apply IH. eapply free_tl; eassumption.
Qed.

Lemma scan_hit v : R (old ++ v) = new ++ R v.
Proof.
  destruct old as [|c o] eqn:E; [congruence|].
  cbn [app Py.replace_scan].
  change (c :: o ++ v) with ((c :: o) ++ v). rewrite startswith_app.
  f_equal. cbn [length]. rewrite Nat.sub_succ, Nat.sub_0_r.
  rewrite <- (Nat.add_0_r (length o)). apply scan_skip.
Qed.

Lemma replace_first u v :
  free old u (old ++ v) -> R (u ++ old ++ v) = u ++ new ++ R v.
Proof. intros F. now rewrite scan_copy, scan_hit. Qed.

Lemma occurs_not_free t u1 u2 w :
  t = u1 ++ u2 -> Py.startswith (u2 ++ w) old = true -> w = [] -> occurs old t.
Proof.
  intros -> S ->. rewrite app_nil_r in S. apply startswith_iff in S as (r & ->).
  now exists u1, r.
Qed.

Lemma absent_free t : ~ occurs old t -> free old t [].
Proof.
  intros H u1 u2 E _. destruct (Py.startswith (u2 ++ []) old) eqn:S; trivial.
  destruct H. eapply occurs_not_free; eauto.
Qed.

Lemma replace_absent t : ~ occurs old t -> R t = t.
Proof.
  intros H. rewrite <- (app_nil_r t) at 1. rewrite scan_copy by now apply absent_free.
  cbn. apply app_nil_r.
Qed.

(** A text holds a first occurrence of [old], or none. *)
Lemma first_occurrence t :
  (exists u v, t = u ++ old ++ v /\ free old u (old ++ v)) \/ ~ occurs old t.
Proof.
  induction t as [|c t IH].
  - destruct (Py.startswith [] old) eqn:S.
    + apply startswith_iff in S as (r & E). symmetry in E.
      apply app_eq_nil in E as (E & _). congruence.
    + right. intros (p & q & E). symmetry in E.
      apply app_eq_nil in E as (_ & E). apply app_eq_nil in E as (E & _). congruence.
  - destruct (Py.startswith (c :: t) old) eqn:S.
    + apply startswith_iff in S as (r & E). left. exists [], r. split; trivial.
      intros u1 u2 E'. symmetry in E'. apply app_eq_nil in E' as (_ & ->). congruence.
    + destruct IH as [(u & v & -> & F) | H].
      * left. exists (c :: u), v. split; [reflexivity|].
        intros [|d u1] u2 E N.
        -- cbn [app] in E. subst u2. exact S.
        -- injection E as -> ->. now apply (F u1 u2).
      * right. intros ([|d p] & q & E).
        -- cbn [app] in E. rewrite E, startswith_app in S. discriminate.
        -- injection E as -> ->. apply H. now exists p, q.
Qed.

(** Induction along the occurrences that [replace] finds. *)
Lemma replace_ind (P : str -> str -> Prop) :
  (forall t, ~ occurs old t -> P t t) ->
  (forall u v, free old u (old ++ v) -> P v (R v) -> P (u ++ old ++ v) (u ++ new ++ R v)) ->
  forall t, P t (R t).
Proof.
  intros H0 H1 t.
  remember (length t) as n eqn:En. revert t En.
  induction n as [n IH] using lt_wf_ind. intros t ->.
  destruct (first_occurrence t) as [(u & v & -> & F) | H].
  - rewrite replace_first by assumption. apply H1; trivial.
    apply (IH (length v)); trivial. rewrite !length_app.
    destruct old; [congruence | cbn [length]; lia].
  - rewrite replace_absent by assumption. now apply H0.
Qed.

Lemma free_not_occurs u w : free old u w -> ~ occurs old u.
Proof.
  intros F (p & q & E).
  assert (N : old ++ q <> []) by (destruct old; [congruence | discriminate]).
  specialize (F p (old ++ q) E N). rewrite <- app_assoc, startswith_app in F. discriminate.
Qed.

(** The occurrences of [old] are gone when [new] cannot bring one back. *)
Lemma old_removed t : apart old new = true -> ~ occurs old (R t).
Proof.
  intros A. apply (replace_ind (fun _ r => ~ occurs old r)).
  - intros t' H. exact H.
  - intros u v F IH H. destruct (occurs_split _ _ _ _ A H) as [H'|H'].
    + now apply (free_not_occurs u (old ++ v)).
    + now apply IH.
Qed.

(** A text [m] that [new] cannot touch is not brought in. *)
Lemma absent_preserved m t :
  apart m new = true -> ~ occurs m t -> ~ occurs m (R t).
Proof.
  intros A. apply (replace_ind (fun t r => ~ occurs m t -> ~ occurs m r)).
  - intros t' _ H. exact H.
  - intros u v F IH H H'. destruct (occurs_split _ _ _ _ A H') as [X|X].
    + apply H. now apply occurs_app_l.
    + apply IH; trivial. intros Y. apply H. now apply occurs_app_r, occurs_app_r.
Qed.

Lemma replace_occurs t : occurs old t -> occurs new (R t).
Proof.
  intros H. destruct (first_occurrence t) as [(u & v & -> & F) | N]; [|contradiction].
  rewrite replace_first by assumption. now exists u, (R v).
Qed.


Lemma startswith_short a b p :
  Py.startswith (a ++ b) p = true -> length p <= length a -> Py.startswith a p = true.
Proof.
  intros S L. apply startswith_iff in S as (r & E).
  apply app_eq_app in E as (l & [(-> & _) | (-> & _)]).
  - apply startswith_app.
  - rewrite length_app in L. destruct l; [|cbn in L; lia].
    apply startswith_iff. exists []. now rewrite !app_nil_r.
Qed.

Lemma startswith_app_l a b p :
  Py.startswith a p = true -> Py.startswith (a ++ b) p = true.
Proof.
  intros S. apply startswith_iff in S as (r & ->). rewrite <- app_assoc.
  apply startswith_app.
Qed.

Lemma scan_app a b k :
  clean old a b -> k <= length a ->
  Py.replace_scan old new (a ++ b) k = Py.replace_scan old new a k ++ R b.
Proof.
  revert k. induction a as [|c a IH]; intros k C L.
  - cbn in L. assert (k = 0) by lia. subst k. reflexivity.
  - assert (C' : clean old a b).
    { intros a1 a2 E. apply (C (c :: a1) a2). now rewrite E. }
    cbn [app Py.replace_scan]. destruct k as [|k].
    + change (c :: a ++ b) with ((c :: a) ++ b).
      destruct (Py.startswith ((c :: a) ++ b) old) eqn:S.
      * pose proof (C [] (c :: a) eq_refl ltac:(discriminate) S) as Lo.
        rewrite (startswith_short _ _ _ S Lo).
        rewrite IH; trivial; [now rewrite app_assoc|].
        cbn [length] in Lo. lia.
      * destruct (Py.startswith (c :: a) old) eqn:S'.
        -- apply startswith_app_l with (b := b) in S'. congruence.
        -- rewrite IH; trivial. lia.
    + apply IH; trivial. cbn [length] in L. lia.
Qed.

Lemma replace_apart y pre post :
  apart old y = true -> R (pre ++ y ++ post) = R pre ++ y ++ R post.
Proof.
  intros A. apply apart_inv in A as (B & I).
  rewrite scan_app; [|..|lia].
  - f_equal. apply scan_copy. intros u1 u2 E N.
    destruct (Py.startswith (u2 ++ post) old) eqn:S; trivial.
    apply startswith_iff in S as (r & S).
    pose proof (inside_false _ _ _ _ I E N) as C.
    rewrite (compat_app _ _ _ _ S) in C. discriminate.
  - intros a1 a2 E N S. apply startswith_iff in S as (r & S).
    apply app_eq_app in S as (l & [(-> & _) | (Eo & S)]).
    + rewrite length_app. lia.
    + destruct l as [|d l]; [rewrite app_nil_r in Eo; subst; lia|].
      pose proof (border_false _ _ _ _ B Eo N ltac:(discriminate)) as C.
      rewrite compat_sym, (compat_app _ _ _ _ S) in C. discriminate.
Qed.

End Replace.

(** ** What [find] returns *)

Lemma find_here_some m t i j :
  Py.find_here m t i = Some j ->
  exists u v, t = u ++ m ++ v /\ j = i + length u /\ free m u (m ++ v).
Proof.
  revert i. induction t as [|c t IH]; intros i; cbn [Py.find_here].
  - destruct (Py.startswith [] m) eqn:S; [|discriminate].
    intros [= <-]. apply startswith_iff in S as (r & E). exists [], r.
    split; [exact E|]. split; [cbn; lia|].
    intros u1 u2 E'. symmetry in E'. apply app_eq_nil in E' as (_ & ->). congruence.
  - destruct (Py.startswith (c :: t) m) eqn:S.
    + intros [= <-]. apply startswith_iff in S as (r & E). exists [], r.
      split; [exact E|]. split; [cbn; lia|].
      intros u1 u2 E'. symmetry in E'. apply app_eq_nil in E' as (_ & ->). congruence.
    + intros H. apply IH in H as (u & v & -> & -> & F).
      exists (c :: u), v. split; [reflexivity|]. split; [cbn [length]; lia|].
      intros [|d u1] u2 E N.
      * cbn [app] in E. subst u2. exact S.
      * injection E as -> ->. now apply (F u1 u2).
Qed.

Lemma find_here_none m t i : Py.find_here m t i = None -> ~ occurs m t.
Proof.
  revert i. induction t as [|c t IH]; intros i; cbn [Py.find_here].
  - destruct (Py.startswith [] m) eqn:S; [discriminate|]. intros _ (p & q & E).
    symmetry in E. apply app_eq_nil in E as (-> & E). apply app_eq_nil in E as (-> & _).
    discriminate.
  - destruct (Py.startswith (c :: t) m) eqn:S; [discriminate|].
    intros H ([|d p] & q & E).
    + cbn [app] in E. rewrite E, startswith_app in S. discriminate.
    + injection E as -> ->. apply (IH _ H). now exists p, q.
Qed.

Lemma find_here_first m u v i :
  free m u (m ++ v) -> Py.find_here m (u ++ m ++ v) i = Some (i + length u).
Proof.
  revert i. induction u as [|c u IH]; intros i F.
  - cbn [app length]. rewrite Nat.add_0_r.
    destruct (m ++ v) eqn:E; cbn [Py.find_here]; rewrite <- E, startswith_app; reflexivity.
  - cbn [app Py.find_here].
    change (c :: u ++ m ++ v) with ((c :: u) ++ m ++ v).
    rewrite (F [] (c :: u) eq_refl ltac:(discriminate)).
    rewrite IH by (eapply free_tl; eassumption). f_equal. cbn [length]. lia.
Qed.

Lemma find_at a x m :
  Py.find (a ++ x) m (length a) = Py.find_here m x (length a).
Proof.
  unfold Py.find. rewrite length_app.
  destruct (Nat.leb_spec (length a) (length a + length x)) as [_|]; [|lia].
  now rewrite skipn_app, skipn_all, Nat.sub_diag.
Qed.

Lemma find_0 t m : Py.find t m 0 = Py.find_here m t 0.
Proof. reflexivity. Qed.

Lemma contains_iff t m : Py.contains t m = true <-> occurs m t.
Proof.
  unfold Py.contains. rewrite find_0.
  destruct (Py.find_here m t 0) as [j|] eqn:E.
  - split; trivial. intros _. apply find_here_some in E as (u & v & -> & _). now exists u, v.
  - split; [discriminate|]. intros H. now apply find_here_none in E.
Qed.

Local Close Scope nat_scope.

(** ** The script: facts about its literals *)

Local Open Scope nat_scope.

Lemma start_marker_nonempty : start_marker <> [].
Proof. discriminate. Qed.

Lemma clip_old_nonempty : clip_old <> [].
Proof. discriminate. Qed.


Lemma clip_old_apart_block : apart clip_old new_block = true.
Proof. vm_compute. reflexivity. Qed.

Lemma target_apart_block : apart insert_target new_block = true.
Proof. vm_compute. reflexivity. Qed.

Lemma clip_old_apart_new : apart clip_old clip_new = true.
Proof. vm_compute. reflexivity. Qed.

Lemma clip_old_apart_helper : apart clip_old (insert_target ++ helper_insert) = true.
Proof. vm_compute. reflexivity. Qed.

Lemma clip_old_apart_target : apart clip_old insert_target = true.
Proof. vm_compute. reflexivity. Qed.


Lemma target_apart_clip_new : apart insert_target clip_new = true.
Proof. vm_compute. reflexivity. Qed.

Lemma start_apart_clip_new : apart start_marker clip_new = true.
Proof. vm_compute. reflexivity. Qed.

Lemma start_apart_helper : apart start_marker (insert_target ++ helper_insert) = true.
Proof. vm_compute. reflexivity. Qed.


Lemma end_inside_start : inside end_marker start_marker = false.
Proof. vm_compute. reflexivity. Qed.




(** ** The script: replacing the block *)



(** The block between the first start marker and the first end marker from
    there on is cut out. *)
Lemma replace_block_intro pre u post :
  Py.startswith u start_marker = true ->
  free start_marker pre (u ++ end_marker ++ post) ->
  free end_marker u (end_marker ++ post) ->
  replace_block (pre ++ u ++ end_marker ++ post) = inr (pre ++ new_block ++ post).
Proof.
  intros S Fs Fe. unfold replace_block.
  apply startswith_iff in S as (body & ->).
  rewrite find_0.
  replace (pre ++ (start_marker ++ body) ++ end_marker ++ post)
    with (pre ++ start_marker ++ (body ++ end_marker ++ post)) at 1
    by now rewrite <- !app_assoc.
  rewrite find_here_first by now rewrite <- !app_assoc in Fs.
  cbn [Nat.add]. rewrite find_at, find_here_first by assumption.
  do 2 f_equal.
  - rewrite firstn_app, firstn_all, Nat.sub_diag, firstn_0. apply app_nil_r.
  - f_equal.
    replace (pre ++ (start_marker ++ body) ++ end_marker ++ post)
      with ((pre ++ (start_marker ++ body) ++ end_marker) ++ post)
      by now rewrite <- !app_assoc.
    replace (length pre + length (start_marker ++ body) + length end_marker)
      with (length (pre ++ (start_marker ++ body) ++ end_marker))
      by (rewrite !length_app; lia).
    now rewrite skipn_app, skipn_all, Nat.sub_diag.
Qed.

(** The first end marker found from the start marker on closes the block. *)
Lemma replace_block_found pre rest e :
  free start_marker pre (start_marker ++ rest) ->
  Py.find_here end_marker (start_marker ++ rest) (length pre) = Some e ->
  exists body post,
    rest = body ++ end_marker ++ post /\
    free end_marker (start_marker ++ body) (end_marker ++ post) /\
    replace_block (pre ++ start_marker ++ rest) = inr (pre ++ new_block ++ post).
Proof.
  intros Fs Ee. apply find_here_some in Ee as (u & post & E & _ & Fe).
  assert (exists body, u = start_marker ++ body /\ rest = body ++ end_marker ++ post)
    as (body & -> & ->).
  { apply app_eq_app in E as (l & [(Em & E) | (-> & ->)]); [|now exists l].
    destruct l as [|c l].
    - rewrite app_nil_r in Em. subst u. exists []. rewrite app_nil_r.
      cbn [app] in E. now split.
    - pose proof (inside_false _ _ _ _ end_inside_start Em ltac:(discriminate)) as C.
      symmetry in E. rewrite (compat_app _ _ _ _ E) in C. discriminate. }
  assert (Fs' : free start_marker pre ((start_marker ++ body) ++ end_marker ++ post))
    by now rewrite <- !app_assoc.
  pose proof (replace_block_intro pre (start_marker ++ body) post
                (startswith_app _ _) Fs' Fe) as RB.
  rewrite <- !app_assoc in RB.
  exists body, post. repeat split; trivial.
Qed.

(** The step when the start marker is found. *)
Lemma replace_block_start pre rest :
  free start_marker pre (start_marker ++ rest) ->
  replace_block (pre ++ start_marker ++ rest)
  = match Py.find_here end_marker (start_marker ++ rest) (length pre) with
    | None => inl "traces block end not found"%string
    | Some e =>
        inr (firstn (length pre) (pre ++ start_marker ++ rest) ++ new_block
             ++ skipn (e + length end_marker) (pre ++ start_marker ++ rest))
    end.
Proof.
  intros Fs. unfold replace_block.
  rewrite find_0, find_here_first by assumption.
  cbn [Nat.add]. now rewrite find_at.
Qed.

(** A first step that does not raise. *)
Lemma replace_block_inr text t :
  replace_block text = inr t ->
  exists pre body post,
    text = pre ++ start_marker ++ body ++ end_marker ++ post /\
    free start_marker pre (start_marker ++ body ++ end_marker ++ post) /\
    free end_marker (start_marker ++ body) (end_marker ++ post) /\
    t = pre ++ new_block ++ post.
Proof.
  intros H.
  destruct (Py.find_here start_marker text 0) as [s|] eqn:Es.
  - apply find_here_some in Es as (pre & rest & -> & _ & Fs).
    destruct (Py.find_here end_marker (start_marker ++ rest) (length pre)) as [e|] eqn:Ee.
    + destruct (replace_block_found pre rest e Fs Ee) as (body & post & -> & Fe & RB).
      rewrite RB in H. injection H as <-. now exists pre, body, post.
    + rewrite (replace_block_start pre rest Fs), Ee in H. discriminate.
  - unfold replace_block in H. rewrite find_0, Es in H. discriminate.
Qed.

(** ** The script: the two replacements *)

Lemma retune_eq t : retune t = Py.replace_scan clip_old clip_new t 0.
Proof. reflexivity. Qed.

Lemma with_helper_eq t :
  with_helper t
  = Py.replace_scan insert_target (insert_target ++ helper_insert) t 0.
Proof. reflexivity. Qed.

Lemma retune_block pre post :
  retune (pre ++ new_block ++ post) = retune pre ++ new_block ++ retune post.
Proof.
  rewrite !retune_eq. apply replace_apart; [discriminate|]. exact clip_old_apart_block.
Qed.

Lemma with_helper_block a b :
  with_helper (a ++ new_block ++ b) = with_helper a ++ new_block ++ with_helper b.
Proof.
  rewrite !with_helper_eq. apply replace_apart; [discriminate|]. exact target_apart_block.
Qed.

Lemma occurs_dec m t : {occurs m t} + {~ occurs m t}.
Proof.
  destruct (Py.contains t m) eqn:E.
  - left. now apply contains_iff.
  - right. intros H. apply contains_iff in H. congruence.
Qed.

(** The retuning neither makes nor breaks a place for the helper. *)
Lemma target_retune x : occurs insert_target (retune x) <-> occurs insert_target x.
Proof.
  split.
  - intros H. destruct (occurs_dec insert_target x) as [Y|N]; trivial.
    destruct (absent_preserved clip_old clip_new clip_old_nonempty insert_target x
                target_apart_clip_new N H).
  - intros (p & q & ->). rewrite retune_eq.
    rewrite (replace_apart clip_old clip_new clip_old_nonempty insert_target p q
               clip_old_apart_target).
    now exists (Py.replace_scan clip_old clip_new p 0), (Py.replace_scan clip_old clip_new q 0).
Qed.

Lemma no_clip_after x : ~ occurs clip_old (with_helper (retune x)).
Proof.
  rewrite with_helper_eq.
  apply absent_preserved; [discriminate | exact clip_old_apart_helper |].
  rewrite retune_eq. apply old_removed; [discriminate | exact clip_old_apart_new].
Qed.

Lemma no_start_after x :
  ~ occurs start_marker x -> ~ occurs start_marker (with_helper (retune x)).
Proof.
  intros H. rewrite with_helper_eq.
  apply absent_preserved; [discriminate | exact start_apart_helper |].
  rewrite retune_eq. apply absent_preserved; [discriminate | exact start_apart_clip_new | exact H].
Qed.

Lemma with_helper_occurs x :
  occurs insert_target x -> occurs (insert_target ++ helper_insert) (with_helper x).
Proof. rewrite with_helper_eq. apply replace_occurs. discriminate. Qed.


(** The third step inserts the helper when there is a place for it. *)
Lemma insert_helper_some t :
  occurs insert_target t -> insert_helper t = inr (with_helper t).
Proof.
  intros H. apply contains_iff in H. unfold insert_helper. now rewrite H.
Qed.

Lemma insert_helper_none t :
  ~ occurs insert_target t ->
  insert_helper t = inl "serializeBuffer closing not found"%string.
Proof.
  intros H. unfold insert_helper.
  destruct (Py.contains t insert_target) eqn:E; [|reflexivity].
  apply contains_iff in E. contradiction.
Qed.

(** A place for the helper in the retuned text lies before the new block or
    after it. *)
Lemma target_around_block pre post :
  occurs insert_target (retune (pre ++ new_block ++ post)) <->
  occurs insert_target pre \/ occurs insert_target post.
Proof.
  rewrite retune_block. split.
  - intros H. destruct (occurs_split _ _ _ _ target_apart_block H) as [X|X];
      [left | right]; now apply target_retune.
  - intros [X|X]; apply target_retune in X.
    + now apply occurs_app_l.
    + now apply occurs_app_r, occurs_app_r.
Qed.

Lemma finish_some pre post :
  occurs insert_target pre \/ occurs insert_target post ->
  insert_helper (retune (pre ++ new_block ++ post))
  = inr (with_helper (retune pre) ++ new_block ++ with_helper (retune post)).
Proof.
  intros H. apply target_around_block in H.
  rewrite (insert_helper_some _ H), retune_block. f_equal. apply with_helper_block.
Qed.

(** A run that writes: the parts of the text and of the result. *)
Lemma rewrite_text_inr text out :
  rewrite_text text = inr out ->
  exists pre body post,
    text = pre ++ start_marker ++ body ++ end_marker ++ post /\
    free start_marker pre (start_marker ++ body ++ end_marker ++ post) /\
    free end_marker (start_marker ++ body) (end_marker ++ post) /\
    (occurs insert_target pre \/ occurs insert_target post) /\
    out = with_helper (retune pre) ++ new_block ++ with_helper (retune post).
Proof.
  unfold rewrite_text.
  destruct (replace_block text) as [msg|t1] eqn:RB; [discriminate|].
  apply replace_block_inr in RB as (pre & body & post & -> & Fs & Fe & ->).
  intros H.
  destruct (occurs_dec insert_target (retune (pre ++ new_block ++ post))) as [Y|N].
  - apply target_around_block in Y. rewrite (finish_some _ _ Y) in H.
    injection H as <-. now exists pre, body, post.
  - rewrite (insert_helper_none _ N) in H. discriminate.
Qed.

(** ** The script: what a run does *)

(** X10. The first step of the script.  It raises the first error exactly
    when the start marker is not in the text, and the second when no end
    marker follows the first start marker.  Otherwise the text is
    [pre ++ start_marker ++ body ++ end_marker ++ post], with no earlier start
    marker and no earlier end marker after it, and the step puts [new_block]
    in the place of the block: the result is [pre ++ new_block ++ post]. *)
Theorem replace_block_spec text :
  match replace_block text with
  | inl msg =>
      (msg = "traces block start not found"%string /\ ~ occurs start_marker text) \/
      (msg = "traces block end not found"%string /\
       exists pre rest,
         text = pre ++ start_marker ++ rest /\
         free start_marker pre (start_marker ++ rest) /\
         ~ occurs end_marker (start_marker ++ rest))
  | inr text' =>
      exists pre body post,
        text = pre ++ start_marker ++ body ++ end_marker ++ post /\
        free start_marker pre (start_marker ++ body ++ end_marker ++ post) /\
        free end_marker (start_marker ++ body) (end_marker ++ post) /\
        text' = pre ++ new_block ++ post
  end.
Proof.
  destruct (Py.find_here start_marker text 0) as [s|] eqn:Es.
  - apply find_here_some in Es as (pre & rest & -> & _ & Fs).
    destruct (Py.find_here end_marker (start_marker ++ rest) (length pre)) as [e|] eqn:Ee.
    + destruct (replace_block_found pre rest e Fs Ee) as (body & post & -> & Fe & RB).
      rewrite RB. now exists pre, body, post.
    + rewrite (replace_block_start pre rest Fs), Ee.
      right. split; trivial. exists pre, rest. repeat split; trivial.
      eapply find_here_none; eassumption.
  - unfold replace_block. rewrite find_0, Es. left. split; trivial.
    eapply find_here_none; eassumption.
Qed.

(** X11. The second and third step, on a text whose block has been replaced.
    The script raises its third error exactly when the end of
    [serializeBuffer] stands neither before nor after the block.  Otherwise
    the two replacements work on the text before the block and on the text
    after it, each by itself, and [new_block] stands unchanged between
    them. *)
Theorem insert_after_block pre post :
  match insert_helper (retune (pre ++ new_block ++ post)) with
  | inl msg =>
      msg = "serializeBuffer closing not found"%string /\
      ~ occurs insert_target pre /\ ~ occurs insert_target post
  | inr out =>
      (occurs insert_target pre \/ occurs insert_target post) /\
      out = with_helper (retune pre) ++ new_block ++ with_helper (retune post)
  end.
Proof.
  destruct (occurs_dec insert_target (retune (pre ++ new_block ++ post))) as [Y|N].
  - apply target_around_block in Y. rewrite (finish_some _ _ Y). now split.
  - rewrite (insert_helper_none _ N). split; trivial.
    split; intros X; apply N, target_around_block; auto.
Qed.

Lemma tmp_normalize_written content out :
  tmp_normalize content = (Written, out) ->
  rewrite_text (read_utf_8_sig content) = inr out.
Proof.
  unfold tmp_normalize.
  destruct (rewrite_text (read_utf_8_sig content)) as [msg|t]; intros E;
    [discriminate | now injection E as ->].
Qed.

(** What a run writes: the new block between two texts that hold no start
    marker before it and no old axis range, and a place for the helper. *)
Lemma written_parts text out :
  rewrite_text text = inr out ->
  exists a b,
    out = a ++ new_block ++ b /\
    ~ occurs start_marker a /\
    ~ occurs clip_old a /\ ~ occurs clip_old b /\
    (occurs (insert_target ++ helper_insert) a \/
     occurs (insert_target ++ helper_insert) b).
Proof.
  intros H. apply rewrite_text_inr in H as (pre & body & post & _ & Fs & _ & Ht & ->).
  exists (with_helper (retune pre)), (with_helper (retune post)).
  split; [reflexivity|]. split.
  { apply no_start_after. exact (free_not_occurs _ start_marker_nonempty _ _ Fs). }
  split; [apply no_clip_after|]. split; [apply no_clip_after|].
  destruct Ht as [Ht|Ht]; apply target_retune, with_helper_occurs in Ht; auto.
Qed.

(** X12. When a run writes the file, the text it writes holds the new
    [traces] block, holds the helper right after an end of [serializeBuffer],
    and holds the old axis range nowhere. *)
Theorem written_text_result content out :
  tmp_normalize content = (Written, out) ->
  occurs new_block out /\
  occurs (insert_target ++ helper_insert) out /\
  ~ occurs clip_old out.
Proof.
  intros H. apply tmp_normalize_written, written_parts in H
    as (a & b & -> & _ & Na & Nb & Ht).
  split; [|split].
  - now exists a, b.
  - destruct Ht as [Ht|Ht].
    + now apply occurs_app_l.
    + now apply occurs_app_r, occurs_app_r.
  - intros H. destruct (occurs_split _ _ _ _ clip_old_apart_block H); contradiction.
Qed.

Lemma written_text_result_witness :
  exists out,
    tmp_normalize tsx_excerpt = (Written, out) /\
    occurs new_block out /\
    occurs (insert_target ++ helper_insert) out /\
    ~ occurs clip_old out.
Proof.
  destruct (tmp_normalize tsx_excerpt) as [o out] eqn:E.
  destruct o as [|msg]; [|vm_compute in E; discriminate].
  exists out. split; [reflexivity|]. exact (written_text_result tsx_excerpt out E).
Defined.

Lemma In_CR_dec l : existsb (N.eqb CR) l = false -> ~ In CR l.
Proof.
  intros E H. assert (X : existsb (N.eqb CR) l = true).
  { apply existsb_exists. exists CR. split; trivial. }
  congruence.
Qed.

Lemma target_has_CR : In CR insert_target.
Proof. apply in_or_app. right. now left. Qed.

Lemma occurs_In m t c : occurs m t -> In c m -> In c t.
Proof. intros (p & q & ->) H. apply in_or_app. right. apply in_or_app. now left. Qed.

(** X13. The script needs CRLF line ends.  On a file without a carriage
    return every run raises one of the three errors, and the file is left as
    it was. *)
Theorem lf_file_rejected content :
  ~ In CR content ->
  exists msg, tmp_normalize content = (ValueError msg, content).
Proof.
  intros H. unfold tmp_normalize.
  assert (Ht : ~ In CR (read_utf_8_sig content)).
  { intros X. apply H. unfold read_utf_8_sig in X.
    destruct content as [|c rest]; trivial.
    destruct (N.eqb c 65279); [now right | trivial]. }
  destruct (rewrite_text (read_utf_8_sig content)) as [msg|out] eqn:E; [now exists msg|].
  apply rewrite_text_inr in E as (pre & body & post & E & _ & _ & Hi & _).
  destruct Ht. rewrite E. destruct Hi as [Hi|Hi].
  - apply in_or_app. left. exact (occurs_In _ _ _ Hi target_has_CR).
  - apply in_or_app. right. do 3 (apply in_or_app; right).
    exact (occurs_In _ _ _ Hi target_has_CR).
Qed.

Lemma lf_file_rejected_witness :
  exists msg, tmp_normalize tsx_excerpt_lf = (ValueError msg, tsx_excerpt_lf).
Proof.
  apply (lf_file_rejected tsx_excerpt_lf).
  apply In_CR_dec. vm_compute. reflexivity.
Defined.












Local Close Scope nat_scope.
